(** * HLS transcoder: job store, package builder, archive and sweep

    A shallow embedding of [transcode.js] (the four-rung bitrate-ladder
    version) and of the [/download/:jobId] route of [index.js].

    The module-level [jobs] map, the directory tree under [/tmp/hls-jobs],
    the wall clock and the calls made to the outside (ffmpeg, archiver) are
    the fields of one [World] record that every function threads.  Code that
    can throw lives in the monad [M]; the two external tools are oracles. *)

From Stdlib Require Import ZArith Ascii String.
From stdpp Require Import gmap strings list fin_maps pretty.

Open Scope string_scope.
Open Scope Z_scope.

(** ** Strings *)

Module Str.

(** [s.endsWith(suffix)] *)
Definition endsWith (s suffix : string) : bool :=
  let n := String.length s in
  let m := String.length suffix in
  (m <=? n)%nat && String.eqb (substring (n - m) m s) suffix.

(** [s.slice(-k)]: the last [k] characters (all of [s] when it is shorter).
    The source counts UTF-16 code units; a character of the model is one
    of them for a string of Basic Latin characters, which is where this
    is used in statements. *)
Definition slice_last (k : nat) (s : string) : string :=
  let n := String.length s in
  substring (n - k) k s.

Definition slash : ascii := "/"%char.

Definition is_digit (c : ascii) : bool :=
  let n := nat_of_ascii c in (48 <=? n)%nat && (n <=? 57)%nat.

Fixpoint leading_digits (s : string) (acc : option N) : option N :=
  match s with
  | String c rest =>
      if is_digit c
      then leading_digits rest
             (Some (10 * default 0%N acc + N.of_nat (nat_of_ascii c - 48))%N)
      else acc
  | EmptyString => acc
  end.

(** [parseInt(s)] on an unsigned decimal prefix; [None] is [NaN]. *)
Definition parseInt (s : string) : option N := leading_digits s None.

End Str.

(** ** Paths

    A path is the list of its segments below the root, so [/tmp/hls-jobs]
    is [["tmp"; "hls-jobs"]].  Every segment the program joins onto a
    directory is free of [/]: job ids are generated by the server as
    [job-<millis>-<base36>], the ladder labels and fixed file names are
    literals, readdir yields entry names and [basename] never yields a
    slash. *)

Module Path.

Abbreviation t := (list string).

(** [path.join(dir, segment)] for a normalised absolute [dir] and one
    slash-free [segment]: the empty segment and [.] are dropped, [..]
    climbs one level. *)
Definition join (dir : list string) (segment : string) : list string :=
  if String.eqb segment "" || String.eqb segment "." then dir
  else if String.eqb segment ".." then removelast dir
  else (dir ++ [segment])%list.

Fixpoint drop_slashes (l : list ascii) : list ascii :=
  match l with
  | c :: rest => if Ascii.eqb c Str.slash then drop_slashes rest else l
  | [] => []
  end.

Fixpoint until_slash (l : list ascii) : list ascii :=
  match l with
  | c :: rest => if Ascii.eqb c Str.slash then [] else c :: until_slash rest
  | [] => []
  end.

(** The last portion of [p], trailing separators ignored. *)
Definition last_portion (p : string) : string :=
  string_of_list_ascii
    (rev (until_slash (drop_slashes (rev (list_ascii_of_string p))))).

(** [path.basename(p, suffix)] (POSIX), as Node documents it: the last
    portion of [p] with [suffix] removed from its end; a portion that is
    the suffix itself is kept whole, except that a [p] equal to [suffix]
    gives the empty string.  The comparison is case-sensitive. *)
Definition basename (p suffix : string) : string :=
  if String.eqb suffix p then ""
  else
    let base := last_portion p in
    if Str.endsWith base suffix && negb (String.eqb base suffix)
    then substring 0 (String.length base - String.length suffix) base
    else base.

End Path.

(** ** Data model *)

Inductive FileStatus := Pending | Processing | Completed | Failed.

Inductive JobStatus :=
  JobProcessing | JobCompleted | JobCompletedWithErrors | JobFailed.

#[global] Instance FileStatus_eq_dec : EqDecision FileStatus.
Proof. solve_decision. Defined.

#[global] Instance JobStatus_eq_dec : EqDecision JobStatus.
Proof. solve_decision. Defined.

(** One element of [job.files]. *)
Module FileEntry.
Record t := mk {
  name : string;
  status : FileStatus;
  hlsFolder : option string;
  segmentCount : nat;
  error : option string
}.
End FileEntry.

(** The object literal handed to [updateFileStatus]; an absent key is
    [None], a present key carries the new value. *)
Module Updates.
Record t := mk {
  status : option FileStatus;
  hlsFolder : option (option string);
  segmentCount : option nat;
  error : option (option string)
}.
End Updates.

(** One value of the [jobs] map.  Timestamps are milliseconds since the
    epoch: [startedAt] is written with [toISOString()] and read back with
    [new Date(...).getTime()], which returns the same millisecond. *)
Module Job.
Record t := mk {
  jobId : string;
  status : JobStatus;
  startedAt : Z;
  files : list FileEntry.t;
  completedFiles : nat;
  failedFiles : nat;
  zipPath : option Path.t;
  error : option string;
  completedAt : option Z
}.

Definition set_files (fs : list FileEntry.t) (j : t) : t :=
  mk (jobId j) (status j) (startedAt j) fs (completedFiles j)
     (failedFiles j) (zipPath j) (error j) (completedAt j).
Definition set_completedFiles (n : nat) (j : t) : t :=
  mk (jobId j) (status j) (startedAt j) (files j) n
     (failedFiles j) (zipPath j) (error j) (completedAt j).
Definition set_failedFiles (n : nat) (j : t) : t :=
  mk (jobId j) (status j) (startedAt j) (files j) (completedFiles j)
     n (zipPath j) (error j) (completedAt j).
Definition set_zipPath (z : option Path.t) (j : t) : t :=
  mk (jobId j) (status j) (startedAt j) (files j) (completedFiles j)
     (failedFiles j) z (error j) (completedAt j).
Definition set_status (s : JobStatus) (j : t) : t :=
  mk (jobId j) s (startedAt j) (files j) (completedFiles j)
     (failedFiles j) (zipPath j) (error j) (completedAt j).
Definition set_error (e : option string) (j : t) : t :=
  mk (jobId j) (status j) (startedAt j) (files j) (completedFiles j)
     (failedFiles j) (zipPath j) e (completedAt j).
Definition set_completedAt (d : option Z) (j : t) : t :=
  mk (jobId j) (status j) (startedAt j) (files j) (completedFiles j)
     (failedFiles j) (zipPath j) (error j) d.
End Job.

(** An uploaded file as [index.js] hands it to [transcode]. *)
Module Upload.
Record t := mk {
  originalName : string;
  path : Path.t;
  size : N
}.
End Upload.

(** A ladder rung. *)
Module Variant.
Record t := mk {
  name : string;
  bitrate : string;
  bandwidth : N
}.
End Variant.

Definition TEMP_DIR : Path.t := ["tmp"; "hls-jobs"].

Definition BITRATE_LADDER : list Variant.t :=
  [ Variant.mk "low" "32k" 48000;
    Variant.mk "medium" "64k" 96000;
    Variant.mk "high" "96k" 144000;
    Variant.mk "premium" "128k" 192000 ].

Module HLS_CONFIG.
Definition segmentDuration : N := 6.
Definition audioCodec : string := "aac".
Definition sampleRate : N := 44100.
Definition channels : N := 2.
End HLS_CONFIG.

(** ** The world: job map, disk, clock, calls to the outside *)

(** What a regular file holds, as far as the program looks at it. *)
Inductive Content :=
  | Opaque                              (* uploads, segments, playlists *)
  | MasterPlaylist                      (* [generateMasterPlaylist()] *)
  | Zip (members : list Path.t).        (* member paths of an archive *)

Inductive Node :=
  | Dir
  | File (size : N) (content : Content).

(** The argument vector [transcodeVariant] builds for ffmpeg. *)
Module FFmpegArgs.
Record t := mk {
  input : Path.t;
  audioCodec : string;
  audioBitrate : string;
  sampleRate : string;
  channels : string;
  hls_time : string;
  hls_segment_filename : Path.t;
  output : Path.t
}.
End FFmpegArgs.

Inductive Event :=
  | EvSpawn (args : FFmpegArgs.t)                   (* [spawn('ffmpeg', ...)] *)
  | EvWriteFile (p : Path.t)                        (* [fs.writeFileSync] *)
  | EvArchive (zip : Path.t) (members : list Path.t). (* [archive.finalize()] *)

(** [disk] maps every path that exists to what is there, so a directory
    and each thing below it are separate keys; [trace] lists, oldest first,
    the calls made to ffmpeg, to [writeFileSync] and to the archiver. *)
Record World := mkWorld {
  jobs : gmap string Job.t;
  disk : gmap (list string) Node;
  now : Z;
  trace : list Event
}.

Definition with_jobs (f : gmap string Job.t → gmap string Job.t) (w : World) :=
  mkWorld (f (jobs w)) (disk w) (now w) (trace w).
Definition with_disk
    (f : gmap (list string) Node → gmap (list string) Node) (w : World) :=
  mkWorld (jobs w) (f (disk w)) (now w) (trace w).
Definition tick (elapsed : Z) (w : World) :=
  mkWorld (jobs w) (disk w) (now w + elapsed) (trace w).
Definition emit (e : Event) (w : World) :=
  mkWorld (jobs w) (disk w) (now w) (trace w ++ [e])%list.

(** ** Exceptions and the monad of the pipeline *)

Inductive JsError :=
  | FFmpegExited (code : Z) (stderrTail : string)
  | FFmpegKilled (stderrTail : string)     (* the same, with code [null] *)
  | SpawnError (msg : string)
  | FsError (code : string) (syscall : string) (p : Path.t)
  | ArchiverError (msg : string).

Definition render (p : Path.t) : string := "/" +:+ String.concat "/" p.

(** [err.message] *)
Definition message (e : JsError) : string :=
  match e with
  | FFmpegExited code tail =>
      "FFmpeg exited with code " +:+ pretty code +:+ ": " +:+ tail
  | FFmpegKilled tail => "FFmpeg exited with code null: " +:+ tail
  | SpawnError msg => msg
  | FsError code syscall p => code +:+ ", " +:+ syscall +:+ " '" +:+ render p +:+ "'"
  | ArchiverError msg => msg
  end.

Inductive Res (A : Type) :=
  | Ok (a : A)
  | Throw (e : JsError).
Arguments Ok {A} a.
Arguments Throw {A} e.

Definition M (A : Type) : Type := World → Res A * World.

#[global] Instance M_ret : MRet M := λ A a w, (Ok a, w).
#[global] Instance M_bind : MBind M := λ A B k m w,
  match m w with
  | (Ok a, w') => k a w'
  | (Throw e, w') => (Throw e, w')
  end.

Definition throw {A} (e : JsError) : M A := λ w, (Throw e, w).
Definition try_catch {A} (body : M A) (handler : JsError → M A) : M A :=
  λ w, match body w with
       | (Ok a, w') => (Ok a, w')
       | (Throw e, w') => handler e w'
       end.
Definition get : M World := λ w, (Ok w, w).
Definition modify (f : World → World) : M unit := λ w, (Ok tt, f w).

(** [for (const x of xs) body(x)] *)
Fixpoint for_of {A} (xs : list A) (body : A → M unit) : M unit :=
  match xs with
  | [] => mret tt
  | x :: rest => body x ;; for_of rest body
  end.

(** ** The file system calls the program makes *)

Module Fs.

Fixpoint strip_prefix (p q : list string) : option (list string) :=
  match p, q with
  | [], _ => Some q
  | a :: p', b :: q' => if String.eqb a b then strip_prefix p' q' else None
  | _ :: _, [] => None
  end.

Definition existsSync (p : Path.t) (d : gmap (list string) Node) : bool :=
  match d !! p with Some _ => true | None => false end.

(** [fs.statSync(p).isDirectory()] for an entry readdir has just listed. *)
Definition isDirectory (p : Path.t) (d : gmap (list string) Node) : bool :=
  match d !! p with Some Dir => true | _ => false end.

(** Names of the entries directly inside [dir]. *)
Definition children (dir : Path.t) (d : gmap (list string) Node)
  : list string :=
  omap (λ kv, match strip_prefix dir kv.1 with
              | Some [n] => Some n
              | _ => None
              end) (map_to_list d).

(** Every entry strictly below [dir], relative to it. *)
Definition descendants (dir : Path.t) (d : gmap (list string) Node)
  : list (list string) :=
  omap (λ kv, match strip_prefix dir kv.1 with
              | Some (n :: rest) => Some (n :: rest)
              | _ => None
              end) (map_to_list d).

(** [fs.readdirSync(dir)] *)
Definition readdirSync (dir : Path.t) : M (list string) := λ w,
  match disk w !! dir with
  | Some Dir => (Ok (children dir (disk w)), w)
  | Some (File _ _) => (Throw (FsError "ENOTDIR: not a directory" "scandir" dir), w)
  | None => (Throw (FsError "ENOENT: no such file or directory" "scandir" dir), w)
  end.

(** Creates [base/s1], [base/s1/s2], ... in turn; a regular file in the
    way makes the call throw, with the directories above it left created. *)
Fixpoint mkdir_from (base rest : list string) (whole : Path.t) : M unit :=
  match rest with
  | [] => mret tt
  | s :: rest' =>
      let p := (base ++ [s])%list in
      λ w, match disk w !! p with
           | Some (File _ _) =>
               (Throw (FsError (match rest' with
                                | [] => "EEXIST: file already exists"
                                | _ => "ENOTDIR: not a directory"
                                end) "mkdir" whole), w)
           | _ => mkdir_from p rest' whole (with_disk (insert p Dir) w)
           end
  end.

(** [fs.mkdirSync(p, { recursive: true })] *)
Definition mkdirSync_recursive (p : Path.t) : M unit := mkdir_from [] p p.

(** [fs.writeFileSync(p, data)]: the target may not be a directory and its
    parent must be one. *)
Definition writeFileSync (p : Path.t) (size : N) (data : Content) : M unit :=
  λ w,
  match disk w !! p with
  | Some Dir => (Throw (FsError "EISDIR: illegal operation on a directory" "open" p), w)
  | _ =>
      match removelast p, disk w !! removelast p with
      | _ :: _, None =>
          (Throw (FsError "ENOENT: no such file or directory" "open" p), w)
      | _ :: _, Some (File _ _) =>
          (Throw (FsError "ENOTDIR: not a directory" "open" p), w)
      | _, _ =>
          (Ok tt, emit (EvWriteFile p) (with_disk (insert p (File size data)) w))
      end
  end.

(** [fs.rmSync(p, { recursive: true, force: true })] *)
Definition rmSync_recursive (p : Path.t) (d : gmap (list string) Node)
  : gmap (list string) Node :=
  filter (λ kv, strip_prefix p kv.1 = None) d.

End Fs.

(** ** Job state store *)

Definition is_completed (f : FileEntry.t) : Prop :=
  FileEntry.status f = Completed.
Definition is_failed (f : FileEntry.t) : Prop :=
  FileEntry.status f = Failed.

#[global] Instance is_completed_dec f : Decision (is_completed f).
Proof. unfold is_completed. apply _. Defined.
#[global] Instance is_failed_dec f : Decision (is_failed f).
Proof. unfold is_failed. apply _. Defined.

(** [initJob(jobId, files)]: builds the job object, [jobs.set]s it under
    [jobId] whatever the map held there, and returns it. *)
Definition initJob (jobId : string) (files : list Upload.t) : M Job.t := λ w,
  let job :=
    Job.mk jobId JobProcessing (now w)
      (map (λ f, FileEntry.mk (Upload.originalName f) Pending None 0%nat None)
           files)
      0%nat 0%nat None None None in
  (Ok job, with_jobs (insert jobId job) w).

(** [Object.assign(file, updates)] *)
Definition assign (file : FileEntry.t) (updates : Updates.t) : FileEntry.t :=
  FileEntry.mk
    (FileEntry.name file)
    (default (FileEntry.status file) (Updates.status updates))
    (default (FileEntry.hlsFolder file) (Updates.hlsFolder updates))
    (default (FileEntry.segmentCount file) (Updates.segmentCount updates))
    (default (FileEntry.error file) (Updates.error updates)).

(** [files.find(f => f.name === fileName)] followed by the in-place
    [Object.assign] on the element found: the first match is rewritten
    where it stands, a list without a match is left as it is. *)
Fixpoint assign_found (fileName : string) (updates : Updates.t)
    (files : list FileEntry.t) : list FileEntry.t :=
  match files with
  | [] => []
  | f :: rest =>
      if String.eqb (FileEntry.name f) fileName
      then assign f updates :: rest
      else f :: assign_found fileName updates rest
  end.

(** [updateFileStatus(jobId, fileName, updates)] *)
Definition updateFileStatus (jobId fileName : string) (updates : Updates.t)
    (w : World) : World :=
  match jobs w !! jobId with
  | None => w
  | Some job =>
      let job1 :=
        Job.set_files (assign_found fileName updates (Job.files job)) job in
      let job2 :=
        Job.set_completedFiles
          (length (filter is_completed (Job.files job1))) job1 in
      let job3 :=
        Job.set_failedFiles
          (length (filter is_failed (Job.files job2))) job2 in
      with_jobs (insert jobId job3) w
  end.

(** [getJobStatus(jobId)]; [None] is [null]. *)
Definition getJobStatus (jobId : string) (w : World) : option Job.t :=
  jobs w !! jobId.

(** ** Results handed between the stages *)

Module VariantResult.
Record t := mk {
  success : bool;
  segmentCount : nat
}.
End VariantResult.

Module VariantInfo.
Record t := mk {
  name : string;
  bitrate : option N;
  bandwidth : N;
  segmentCount : nat
}.
End VariantInfo.

Module Package.
Record t := mk {
  success : bool;
  hlsFolder : string;
  segmentCount : nat;
  hlsDir : Path.t;
  variants : list VariantInfo.t;
  isMultiBitrate : bool
}.
End Package.

Module HlsFile.
Record t := mk {
  name : string;
  path : Path.t;
  size : N
}.
End HlsFile.

Module SyncResult.
Inductive t :=
  | Success (hlsFolder : string) (segmentCount : nat) (files : list HlsFile.t)
            (variants : list VariantInfo.t) (isMultiBitrate : bool)
  | Failure (error : string).
Definition success (r : t) : bool :=
  match r with Success _ _ _ _ _ => true | Failure _ => false end.
End SyncResult.

(** ** The external tools *)

Inductive Exit :=
  | ExitCode (code : Z)               (* ['close'] with this code *)
  | ExitSignal                        (* ['close'] with code [null]: killed *)
  | SpawnFailure (msg : string).      (* ['error'] *)

Module FFmpegRun.
Record t := mk {
  exit : Exit;
  stderr : string;
  written : list (string * N);   (* files left in the output directory *)
  elapsed : Z
}.
End FFmpegRun.

Inductive ArchiverRun :=
  | ArchiveClosed (bytes : N) (elapsed : Z)     (* output ['close'] *)
  | ArchiveErrored (msg : string) (elapsed : Z) (* archive ['error'] *)
  | OutputFailed (partial : option N) (elapsed : Z).
      (* the output stream failed and closed: ['close'] fires all the same;
         [partial] is the size of what it had written, if it had opened *)

(** ** Cleanup *)

(** [cleanupJob(jobId)] *)
Definition cleanupJob (jobId : string) (w : World) : World :=
  let jobDir := Path.join TEMP_DIR jobId in
  let w1 :=
    if Fs.existsSync jobDir (disk w)
    then with_disk (Fs.rmSync_recursive jobDir) w
    else w in
  with_jobs (delete jobId) w1.

(** One turn of the loop of [cleanupOldJobs]. *)
Definition sweep_entry (now_ maxAge : Z) (entry : string * Job.t)
    (w : World) : World :=
  let jobAge := now_ - Job.startedAt entry.2 in
  if maxAge <? jobAge then cleanupJob entry.1 w else w.

(** [cleanupOldJobs(maxAgeMinutes)]: the clock is read once, then every
    entry of the map is visited; removing the entry being visited does not
    disturb the iteration. *)
Definition cleanupOldJobs (maxAgeMinutes : Z) (w : World) : World :=
  let now_ := now w in
  let maxAge := maxAgeMinutes * 60 * 1000 in
  foldr (sweep_entry now_ maxAge) w (map_to_list (jobs w)).

(** ** The pipeline *)

Section Pipeline.

(** What running ffmpeg with given arguments does, and what the archiver
    does when asked to write given members: both may depend on anything in
    the world at the time of the call. *)
Variable ffmpeg : World → FFmpegArgs.t → FFmpegRun.t.
Variable archiver : World → Path.t → list Path.t → ArchiverRun.

Definition write_outputs (dir : Path.t) (written : list (string * N))
    (d : gmap (list string) Node) : gmap (list string) Node :=
  foldl (λ d f, <[(dir ++ [f.1])%list := File f.2 Opaque]> d) d written.

(** [transcodeVariant(inputPath, outputDir, bitrate)]: the promise settles
    once ffmpeg has closed or failed to start.  The listing after exit code
    0 is made inside the ['close'] handler; [transcodeFile] has made the
    directory before it calls, and a listing that fails there is taken
    here as a rejection. *)
Definition transcodeVariant (inputPath outputDir : Path.t) (bitrate : string)
  : M VariantResult.t :=
  let indexFile := Path.join outputDir "index.m3u8" in
  let segmentPattern := Path.join outputDir "segment_%03d.ts" in
  let ffmpegArgs :=
    FFmpegArgs.mk inputPath HLS_CONFIG.audioCodec bitrate
      (pretty HLS_CONFIG.sampleRate) (pretty HLS_CONFIG.channels)
      (pretty HLS_CONFIG.segmentDuration) segmentPattern indexFile in
  w ← get;
  let run := ffmpeg w ffmpegArgs in
  modify (λ w, tick (FFmpegRun.elapsed run)
                 (with_disk (write_outputs outputDir (FFmpegRun.written run))
                    (emit (EvSpawn ffmpegArgs) w)));;
  match FFmpegRun.exit run with
  | ExitCode code =>
      if code =? 0 then
        files ← Fs.readdirSync outputDir;
        let segmentCount :=
          length (List.filter (λ f, Str.endsWith f ".ts") files) in
        mret (VariantResult.mk true segmentCount)
      else
        throw (FFmpegExited code (Str.slice_last 200 (FFmpegRun.stderr run)))
  | ExitSignal =>
      throw (FFmpegKilled (Str.slice_last 200 (FFmpegRun.stderr run)))
  | SpawnFailure msg => throw (SpawnError msg)
  end.

(** The second loop of [transcodeFile]; [acc] holds the locals [variants]
    and [totalSegments]. *)
Fixpoint encode_ladder (inputPath hlsDir : Path.t) (ladder : list Variant.t)
    (acc : list VariantInfo.t * nat) : M (list VariantInfo.t * nat) :=
  match ladder with
  | [] => mret acc
  | variant :: rest =>
      let variantDir := Path.join hlsDir (Variant.name variant) in
      result ← transcodeVariant inputPath variantDir (Variant.bitrate variant);
      encode_ladder inputPath hlsDir rest
        ((acc.1 ++ [VariantInfo.mk (Variant.name variant)
                      (Str.parseInt (Variant.bitrate variant))
                      (Variant.bandwidth variant)
                      (VariantResult.segmentCount result)])%list,
         (acc.2 + VariantResult.segmentCount result)%nat)
  end.

(** Byte length of the text [generateMasterPlaylist()] returns. *)
Definition master_playlist_size : N := 376.

(** [transcodeFile(inputPath, outputDir, fileName)] *)
Definition transcodeFile (inputPath outputDir : Path.t) (fileName : string)
  : M Package.t :=
  let baseName := Path.basename fileName ".mp3" in
  let hlsDir := Path.join outputDir baseName in
  for_of BITRATE_LADDER (λ variant,
    Fs.mkdirSync_recursive (Path.join hlsDir (Variant.name variant)));;
  acc ← encode_ladder inputPath hlsDir BITRATE_LADDER ([], 0%nat);
  Fs.writeFileSync (Path.join hlsDir "master.m3u8")
    master_playlist_size MasterPlaylist;;
  mret (Package.mk true baseName acc.2 hlsDir acc.1 true).

(** The loop of [createZipArchive] over the listing [items] of [outputDir]:
    every entry that is a directory and is not [uploads] is handed to
    [archive.directory(itemPath, item)], which adds all that lies below it
    under the prefix [item]. *)
Definition archive_members (outputDir : Path.t) (items : list string)
    (d : gmap (list string) Node) : list (list string) :=
  let added :=
    List.filter (λ item,
      Fs.isDirectory (Path.join outputDir item) d
      && negb (String.eqb item "uploads")) items in
  added ≫= (λ item,
    (λ rel, item :: rel) <$> Fs.descendants (Path.join outputDir item) d).

(** What [fs.createWriteStream(p)] and the bytes piped into it leave at
    [p]: the file, unless a directory is in the way, in which case the open
    fails and the stream closes with nothing written. *)
Definition write_stream (p : Path.t) (node : Node)
    (d : gmap (list string) Node) : gmap (list string) Node :=
  match d !! p with
  | Some Dir => d
  | _ => <[p := node]> d
  end.

(** [createZipArchive(jobId, outputDir)]: the promise resolves with
    [zipPath] when the output stream closes, whether or not the archive
    was written, and rejects on an error of the archiver. *)
Definition createZipArchive (jobId : string) (outputDir : Path.t)
  : M Path.t :=
  let zipPath := Path.join outputDir "hls-output.zip" in
  items ← Fs.readdirSync outputDir;
  w ← get;
  let members := archive_members outputDir items (disk w) in
  match archiver w zipPath members with
  | ArchiveClosed bytes elapsed =>
      modify (λ w, tick elapsed
                     (with_disk (write_stream zipPath (File bytes (Zip members)))
                        (emit (EvArchive zipPath members) w)));;
      mret zipPath
  | ArchiveErrored msg elapsed =>
      modify (λ w, tick elapsed
                     (with_disk (write_stream zipPath (File 0 Opaque))
                        (emit (EvArchive zipPath members) w)));;
      throw (ArchiverError msg)
  | OutputFailed partial elapsed =>
      modify (λ w, tick elapsed
                     (with_disk
                        (match partial with
                         | Some size => write_stream zipPath (File size Opaque)
                         | None => id
                         end)
                        (emit (EvArchive zipPath members) w)));;
      mret zipPath
  end.

(** The local [job] of [transcode] is the object the map holds under
    [jobId]: reads and writes through it are reads and writes of that
    entry.  [job0] is the object as [initJob] returned it. *)
Definition read_job (jobId : string) (job0 : Job.t) : M Job.t := λ w,
  (Ok (default job0 (jobs w !! jobId)), w).
Definition write_job (jobId : string) (f : Job.t → Job.t) : M unit :=
  modify (with_jobs (alter f jobId)).

(** The body of the [for] loop of [transcode]. *)
Definition transcode_one (jobId : string) (jobDir : Path.t) (file : Upload.t)
  : M unit :=
  modify (updateFileStatus jobId (Upload.originalName file)
            (Updates.mk (Some Processing) None None None));;
  try_catch
    (result ← transcodeFile (Upload.path file) jobDir (Upload.originalName file);
     modify (updateFileStatus jobId (Upload.originalName file)
               (Updates.mk (Some Completed)
                  (Some (Some (Package.hlsFolder result)))
                  (Some (Package.segmentCount result)) None)))
    (λ err,
     modify (updateFileStatus jobId (Upload.originalName file)
               (Updates.mk (Some Failed) None None (Some (Some (message err)))))).

(** What follows the loop inside the outer [try]. *)
Definition settle (jobId : string) (jobDir : Path.t) (job0 : Job.t)
  : M unit :=
  job ← read_job jobId job0;
  let successfulFiles := filter is_completed (Job.files job) in
  (if (0 <? length successfulFiles)%nat then
     zipPath ← createZipArchive jobId jobDir;
     write_job jobId (Job.set_zipPath (Some zipPath));;
     job ← read_job jobId job0;
     write_job jobId
       (Job.set_status (if (0 <? Job.failedFiles job)%nat
                        then JobCompletedWithErrors else JobCompleted))
   else
     write_job jobId (Job.set_status JobFailed);;
     write_job jobId (Job.set_error (Some "All files failed to transcode")));;
  w ← get;
  write_job jobId (Job.set_completedAt (Some (now w))).

(** [transcode(jobId, files)], run on its own: nothing else of the process
    takes a turn while a build or the archive is awaited.  The run with
    other work in between is [transcode_with] below. *)
Definition transcode (jobId : string) (files : list Upload.t) : M Job.t :=
  job0 ← initJob jobId files;
  let jobDir := Path.join TEMP_DIR jobId in
  try_catch
    (for_of files (transcode_one jobId jobDir);;
     settle jobId jobDir job0)
    (λ error,
     write_job jobId (Job.set_status JobFailed);;
     write_job jobId (Job.set_error (Some (message error)));;
     w ← get;
     write_job jobId (Job.set_completedAt (Some (now w))));;
  read_job jobId job0.

(** [collectHLSFiles(hlsDir)]: every regular file below [hlsDir], named by
    its path relative to it with [/] between the segments. *)
Definition collectHLSFiles (hlsDir : Path.t) : M (list HlsFile.t) :=
  _ ← Fs.readdirSync hlsDir;
  w ← get;
  mret (omap (λ rel,
          match disk w !! (hlsDir ++ rel)%list with
          | Some (File size _) =>
              Some (HlsFile.mk (String.concat "/" rel) (hlsDir ++ rel)%list size)
          | _ => None
          end) (Fs.descendants hlsDir (disk w))).

(** [transcodeSync(jobId, file)] *)
Definition transcodeSync (jobId : string) (file : Upload.t)
  : M SyncResult.t :=
  let jobDir := Path.join TEMP_DIR jobId in
  w ← get;
  (if negb (Fs.existsSync jobDir (disk w))
   then Fs.mkdirSync_recursive jobDir else mret tt);;
  try_catch
    (result ← transcodeFile (Upload.path file) jobDir (Upload.originalName file);
     hlsFiles ← collectHLSFiles (Package.hlsDir result);
     mret (SyncResult.Success (Package.hlsFolder result)
             (Package.segmentCount result) hlsFiles
             (Package.variants result) true))
    (λ error, mret (SyncResult.Failure (message error))).

End Pipeline.

(** ** The job run around its awaited calls

    [transcode] waits in two places, for [transcodeFile] and for
    [createZipArchive], and while it waits the process serves its other
    requests and runs its timers.  Below, the two awaited calls are
    parameters: [build file] and [archive] stand for the call together
    with whatever else the process does until the call settles.  The local
    [job] is read and written through the map, as in [transcode]: that is
    what the source does for as long as the entry under [jobId] is the
    object [initJob] made, and what is stated of these definitions assumes
    of [build] and [archive] that they leave that entry as it is. *)

Section Awaited.

Variable build : Upload.t → M Package.t.
Variable archive : M Path.t.

(** The body of the [for] loop of [transcode]. *)
Definition transcode_one_with (jobId : string) (file : Upload.t) : M unit :=
  modify (updateFileStatus jobId (Upload.originalName file)
            (Updates.mk (Some Processing) None None None));;
  try_catch
    (result ← build file;
     modify (updateFileStatus jobId (Upload.originalName file)
               (Updates.mk (Some Completed)
                  (Some (Some (Package.hlsFolder result)))
                  (Some (Package.segmentCount result)) None)))
    (λ err,
     modify (updateFileStatus jobId (Upload.originalName file)
               (Updates.mk (Some Failed) None None (Some (Some (message err)))))).

(** What follows the loop inside the outer [try]. *)
Definition settle_with (jobId : string) (job0 : Job.t) : M unit :=
  job ← read_job jobId job0;
  let successfulFiles := filter is_completed (Job.files job) in
  (if (0 <? length successfulFiles)%nat then
     zipPath ← archive;
     write_job jobId (Job.set_zipPath (Some zipPath));;
     job ← read_job jobId job0;
     write_job jobId
       (Job.set_status (if (0 <? Job.failedFiles job)%nat
                        then JobCompletedWithErrors else JobCompleted))
   else
     write_job jobId (Job.set_status JobFailed);;
     write_job jobId (Job.set_error (Some "All files failed to transcode")));;
  w ← get;
  write_job jobId (Job.set_completedAt (Some (now w))).

(** [transcode(jobId, files)]; [transcode] is the instance whose [build]
    and [archive] are [transcodeFile] and [createZipArchive] alone. *)
Definition transcode_with (jobId : string) (files : list Upload.t)
  : M Job.t :=
  job0 ← initJob jobId files;
  try_catch
    (for_of files (transcode_one_with jobId);;
     settle_with jobId job0)
    (λ error,
     write_job jobId (Job.set_status JobFailed);;
     write_job jobId (Job.set_error (Some (message error)));;
     w ← get;
     write_job jobId (Job.set_completedAt (Some (now w))));;
  read_job jobId job0.

End Awaited.

(** ** The download route of [index.js] *)

Inductive Response :=
  | Json (httpStatus : nat) (error : string) (status : option JobStatus)
  | Download (file : Path.t) (filename : string).

(** [app.get('/download/:jobId', ...)] *)
Definition download (jobId : string) (w : World) : Response :=
  match getJobStatus jobId w with
  | None => Json 404 "Job not found" None
  | Some status =>
      if negb (bool_decide (Job.status status = JobCompleted)) then
        Json 400 "Job not yet completed" (Some (Job.status status))
      else
        match Job.zipPath status with
        | None => Json 404 "ZIP file not found" None
        | Some zipPath =>
            if negb (Fs.existsSync zipPath (disk w))
            then Json 404 "ZIP file not found" None
            else Download zipPath ("hls-" +:+ jobId +:+ ".zip")
        end
  end.

(** [app.get('/status/:jobId', ...)]: the job object, or 404. *)
Definition status_route (jobId : string) (w : World) : Job.t + Response :=
  match getJobStatus jobId w with
  | None => inr (Json 404 "Job not found" None)
  | Some status => inl status
  end.

(** [multer.diskStorage] in [index.js]: the destination of an upload is the
    job directory and its file name is the original name. *)
Definition stored_at (jobId originalname : string) : Path.t :=
  Path.join (Path.join TEMP_DIR jobId) originalname.

(** [req.files.map(f => ({ originalName: f.originalname, path: f.path,
    size: f.size }))] *)
Definition as_received (jobId originalname : string) (size : N) : Upload.t :=
  Upload.mk originalname (stored_at jobId originalname) size.

(** ** The upload filter of [index.js] and the master playlist *)

(** [c.toLowerCase()] on a character of the Basic Latin block. *)
Definition lower (c : ascii) : ascii :=
  let n := nat_of_ascii c in
  if (65 <=? n)%nat && (n <=? 90)%nat then ascii_of_nat (n + 32) else c.

(** [s.toLowerCase()], where it bears on a test for an ASCII suffix: the
    letters [A] to [Z] are mapped, every other character is left alone
    (no character outside Basic Latin has a lower case within [.mp3]). *)
Fixpoint toLowerCase (s : string) : string :=
  match s with
  | EmptyString => EmptyString
  | String c rest => String (lower c) (toLowerCase rest)
  end.

(** The [fileFilter] of the multer instance in [index.js]: [true] is
    [cb(null, true)], [false] is the error [Only MP3 files are allowed]. *)
Definition fileFilter (mimetype originalname : string) : bool :=
  String.eqb mimetype "audio/mpeg"
  || Str.endsWith (toLowerCase originalname) ".mp3".

Definition newline : string := String (ascii_of_nat 10) EmptyString.
Definition double_quote : string := String (ascii_of_nat 34) EmptyString.

(** The lines of the template literal of [generateMasterPlaylist]. *)
Definition master_playlist_lines : list string :=
  let codecs := ",CODECS=" +:+ double_quote +:+ "mp4a.40.2" +:+ double_quote in
  [ "#EXTM3U";
    "#EXT-X-VERSION:3";
    EmptyString;
    "# 32 kbps LOW";
    "#EXT-X-STREAM-INF:BANDWIDTH=48000" +:+ codecs;
    "low/index.m3u8";
    EmptyString;
    "# 64 kbps MEDIUM";
    "#EXT-X-STREAM-INF:BANDWIDTH=96000" +:+ codecs;
    "medium/index.m3u8";
    EmptyString;
    "# 96 kbps HIGH";
    "#EXT-X-STREAM-INF:BANDWIDTH=144000" +:+ codecs;
    "high/index.m3u8";
    EmptyString;
    "# 128 kbps PREMIUM";
    "#EXT-X-STREAM-INF:BANDWIDTH=192000" +:+ codecs;
    "premium/index.m3u8";
    EmptyString ].

(** [generateMasterPlaylist()] *)
Definition generateMasterPlaylist : string :=
  String.concat newline master_playlist_lines.

(** The lines of a playlist that are URIs: not blank, not starting with [#]. *)
Definition playlist_uris (lines : list string) : list string :=
  List.filter (λ l, negb (String.eqb l EmptyString) && negb (String.prefix "#" l))
    lines.

(** The stream tags of a playlist. *)
Definition playlist_stream_tags (lines : list string) : list string :=
  List.filter (String.prefix "#EXT-X-STREAM-INF:") lines.

(** ** Vocabulary of the properties *)

(** The counters of a job agree with the statuses of its entries. *)
Definition counts_ok (job : Job.t) : Prop :=
  Job.completedFiles job = length (filter is_completed (Job.files job)) ∧
  Job.failedFiles job = length (filter is_failed (Job.files job)) ∧
  (Job.completedFiles job + Job.failedFiles job)%nat =
    length (filter (λ f, is_completed f ∨ is_failed f) (Job.files job)) ∧
  (Job.completedFiles job + Job.failedFiles job ≤ length (Job.files job))%nat.

(** The worlds the process can be in: it boots with an empty [jobs] map, and
    from then on every change of the map is one of the statements of
    [transcode.js] that touch it; disk, clock and trace move freely in
    between.  Activations of [transcode] interleave at their [await]s, so a
    world seen by a poller is the result of some sequence of these steps. *)
Inductive reachable : World → Prop :=
  | reach_boot d t :
      reachable (mkWorld ∅ d t [])
  | reach_outside w d t tr :
      reachable w → reachable (mkWorld (jobs w) d t tr)
  | reach_initJob w jobId files :
      reachable w → reachable (initJob jobId files w).2
  | reach_updateFileStatus w jobId fileName updates :
      reachable w → reachable (updateFileStatus jobId fileName updates w)
  | reach_set_status w jobId s :
      reachable w → reachable (with_jobs (alter (Job.set_status s) jobId) w)
  | reach_set_zipPath w jobId z :
      reachable w → reachable (with_jobs (alter (Job.set_zipPath z) jobId) w)
  | reach_set_error w jobId e :
      reachable w → reachable (with_jobs (alter (Job.set_error e) jobId) w)
  | reach_set_completedAt w jobId d :
      reachable w →
      reachable (with_jobs (alter (Job.set_completedAt d) jobId) w)
  | reach_cleanupJob w jobId :
      reachable w → reachable (cleanupJob jobId w)
  | reach_cleanupOldJobs w maxAgeMinutes :
      reachable w → reachable (cleanupOldJobs maxAgeMinutes w).

(** A segment that [Path.join] appends as it is. *)
Definition plain (s : string) : Prop := s ≠ "" ∧ s ≠ "." ∧ s ≠ "..".

(** No [/] occurs in [s]. *)
Definition slash_free (s : string) : Prop :=
  forallb (λ c, negb (Ascii.eqb c Str.slash)) (list_ascii_of_string s) = true.

(** The name of a directory entry, as an upload's original name is. *)
Definition entry_name (s : string) : Prop := plain s ∧ slash_free s.

(** [jobAge > maxAge] in [cleanupOldJobs], both in milliseconds. *)
Definition expired (maxAgeMinutes now_ : Z) (job : Job.t) : Prop :=
  maxAgeMinutes * 60 * 1000 < now_ - Job.startedAt job.

(** A directory is either present or gone with everything below it; a
    disk that is a tree has this at every path. *)
Definition dir_or_nothing (dir : Path.t) (d : gmap (list string) Node) : Prop :=
  is_Some (d !! dir) ∨ ∀ rest, d !! (dir ++ rest)%list = None.

(** [m] only ever moves the world along [R]. *)
Definition preserves (R : World → World → Prop) {A} (m : M A) : Prop :=
  ∀ w r w', m w = (r, w') → R w w'.

(** The map of jobs is the same. *)
Definition same_jobs (w w' : World) : Prop := jobs w' = jobs w.

(** A reachable world stays reachable. *)
Definition keeps_reachable (w w' : World) : Prop :=
  reachable w → reachable w'.

(** The trace grew by events that satisfy [P]. *)
Definition grows_by (P : Event → Prop) (w w' : World) : Prop :=
  ∃ evs, trace w' = (trace w ++ evs)%list ∧ Forall P evs.

(** The job under [jobId] is still being worked on: status processing, no
    archive, no top-level error, counters in step with the entries. *)
Definition in_progress (jobId : string) (w : World) : Prop :=
  ∃ job, jobs w !! jobId = Some job ∧
         Job.status job = JobProcessing ∧
         Job.zipPath job = None ∧
         Job.error job = None ∧
         counts_ok job.

(** The argument vector of one encode. *)
Definition variant_args (inputPath outputDir : Path.t) (bitrate : string)
  : FFmpegArgs.t :=
  FFmpegArgs.mk inputPath HLS_CONFIG.audioCodec bitrate
    (pretty HLS_CONFIG.sampleRate) (pretty HLS_CONFIG.channels)
    (pretty HLS_CONFIG.segmentDuration)
    (Path.join outputDir "segment_%03d.ts")
    (Path.join outputDir "index.m3u8").

(** The argument vectors of the encodes of a ladder, in ladder order. *)
Definition ladder_args (inputPath hlsDir : Path.t) (ladder : list Variant.t)
  : list FFmpegArgs.t :=
  map (λ v, variant_args inputPath (Path.join hlsDir (Variant.name v))
              (Variant.bitrate v)) ladder.

Definition is_archive_event (e : Event) : Prop :=
  match e with EvArchive _ _ => True | _ => False end.

(** ** Vocabulary of the further properties *)

(** The entry [initJob] makes for a name. *)
Definition pending_entry (name : string) : FileEntry.t :=
  FileEntry.mk name Pending None 0%nat None.

(** The entry has reached one of its two final statuses. *)
Definition settled (f : FileEntry.t) : Prop :=
  FileEntry.status f = Completed ∨ FileEntry.status f = Failed.

(** The three object literals [transcode] hands to [updateFileStatus]. *)
Definition update_processing : Updates.t :=
  Updates.mk (Some Processing) None None None.
Definition update_completed (result : Package.t) : Updates.t :=
  Updates.mk (Some Completed) (Some (Some (Package.hlsFolder result)))
    (Some (Package.segmentCount result)) None.
Definition update_failed (err : JsError) : Updates.t :=
  Updates.mk (Some Failed) None None (Some (Some (message err))).

(** The update that closes the turn of the loop for a build that ended
    with [r]. *)
Definition closing_update (r : Res Package.t) : Updates.t :=
  match r with
  | Ok result => update_completed result
  | Throw err => update_failed err
  end.

(** The entries of a job after the loop has gone through the names [done]:
    an entry whose name occurs earlier in the list is as [initJob] made it;
    the first entry of a name is settled once the name has been gone
    through and as [initJob] made it before. *)
Definition entries_after (done : list string) (files : list FileEntry.t)
  : Prop :=
  ∀ i f, files !! i = Some f →
    if decide (FileEntry.name f ∈ take i (map FileEntry.name files))
    then f = pending_entry (FileEntry.name f)
    else (FileEntry.name f ∈ done → settled f) ∧
         (FileEntry.name f ∉ done → f = pending_entry (FileEntry.name f)).

(** The entry under [jobId] is as it was: nothing deleted or replaced it. *)
Definition same_entry (jobId : string) (w w' : World) : Prop :=
  jobs w' !! jobId = jobs w !! jobId.


(** Only the job under [jobId] may differ. *)
Definition same_other_jobs (jobId : string) (w w' : World) : Prop :=
  ∀ id, id ≠ jobId → jobs w' !! id = jobs w !! id.

(** Every path that was there is still there. *)
Definition disk_grows (w w' : World) : Prop :=
  ∀ q, is_Some (disk w !! q) → is_Some (disk w' !! q).

(** Every regular file that was there is still there, as it was. *)
Definition keeps_files (w w' : World) : Prop :=
  ∀ q size content,
    disk w !! q = Some (File size content) →
    disk w' !! q = Some (File size content).

(** An upload as the server stored it for job [jobId], under a name the
    builder does not strip: a regular file at [jobDir/originalname] whose
    name does not end in [.mp3]. *)
Definition unbuildable (jobId : string) (w : World) (file : Upload.t) : Prop :=
  entry_name (Upload.originalName file) ∧
  Str.endsWith (Upload.originalName file) ".mp3" = false ∧
  Upload.path file = stored_at jobId (Upload.originalName file) ∧
  ∃ size content, disk w !! Upload.path file = Some (File size content).

(** The number of entries of [dir] whose name ends in [.ts]. *)
Definition segments_in (dir : Path.t) (d : gmap (list string) Node) : nat :=
  length (List.filter (λ f, Str.endsWith f ".ts") (Fs.children dir d)).

(** The element [transcodeFile] pushes onto [variants] for a rung whose
    directory is listed in [d]. *)
Definition variant_info (hlsDir : Path.t) (d : gmap (list string) Node)
    (variant : Variant.t) : VariantInfo.t :=
  VariantInfo.mk (Variant.name variant)
    (Str.parseInt (Variant.bitrate variant))
    (Variant.bandwidth variant)
    (segments_in (hlsDir ++ [Variant.name variant])%list d).

(** ** A sample deployment

    Two uploads in job [job-1]; ffmpeg succeeds on [a.mp3], leaving a
    playlist and two segments per rung, and rejects [b.mp3]. *)

Module Sample.

Definition jobDir : Path.t := ["tmp"; "hls-jobs"; "job-1"].

Definition good_run : FFmpegRun.t :=
  FFmpegRun.mk (ExitCode 0) ""
    [("index.m3u8", 120%N); ("segment_000.ts", 1000%N);
     ("segment_001.ts", 900%N)] 1500.

Definition bad_run : FFmpegRun.t :=
  FFmpegRun.mk (ExitCode 1) "Invalid data found when processing input" [] 20.

Definition ffmpeg (w : World) (args : FFmpegArgs.t) : FFmpegRun.t :=
  if bool_decide (FFmpegArgs.input args = (jobDir ++ ["b.mp3"])%list)
  then bad_run else good_run.

Definition archiver (w : World) (zip : Path.t) (members : list Path.t)
  : ArchiverRun := ArchiveClosed 4096 30.


Definition boot : World :=
  mkWorld ∅
    (list_to_map
       [ (["tmp"], Dir); (["tmp"; "hls-jobs"], Dir); (jobDir, Dir);
         ((jobDir ++ ["a.mp3"])%list, File 5000 Opaque);
         ((jobDir ++ ["b.mp3"])%list, File 5000 Opaque) ])
    1700000000000 [].

Definition a_mp3 : Upload.t :=
  Upload.mk "a.mp3" (jobDir ++ ["a.mp3"])%list 5000.
Definition b_mp3 : Upload.t :=
  Upload.mk "b.mp3" (jobDir ++ ["b.mp3"])%list 5000.

Definition completed_update : Updates.t :=
  Updates.mk (Some Completed) (Some (Some "a")) (Some 8%nat) None.

(** Two uploads whose names differ and whose package folder is the same,
    the job directory itself: the stem of [.mp3] is empty and that of
    [..mp3] is [.]; ffmpeg succeeds on the first and rejects the second. *)
Definition dot_mp3 : Upload.t :=
  Upload.mk ".mp3" (jobDir ++ [".mp3"])%list 5000.
Definition dotdot_mp3 : Upload.t :=
  Upload.mk "..mp3" (jobDir ++ ["..mp3"])%list 5000.

Definition ffmpeg_dots (w : World) (args : FFmpegArgs.t) : FFmpegRun.t :=
  if bool_decide (FFmpegArgs.input args = (jobDir ++ ["..mp3"])%list)
  then bad_run else good_run.

Definition boot_dots : World :=
  mkWorld ∅
    (list_to_map
       [ (["tmp"], Dir); (["tmp"; "hls-jobs"], Dir); (jobDir, Dir);
         ((jobDir ++ [".mp3"])%list, File 5000 Opaque);
         ((jobDir ++ ["..mp3"])%list, File 5000 Opaque) ])
    1700000000000 [].

(** An upload whose package folder is where the archive of the job goes. *)
Definition zip_mp3 : Upload.t :=
  Upload.mk "hls-output.zip.mp3" (jobDir ++ ["hls-output.zip.mp3"])%list 5000.

Definition boot_zip : World :=
  mkWorld ∅
    (list_to_map
       [ (["tmp"], Dir); (["tmp"; "hls-jobs"], Dir); (jobDir, Dir);
         ((jobDir ++ ["hls-output.zip.mp3"])%list, File 5000 Opaque) ])
    1700000000000 [].

Definition track_MP3 : Upload.t :=
  Upload.mk "track.MP3" (jobDir ++ ["track.MP3"])%list 5000.

Definition boot_track : World :=
  mkWorld ∅
    (list_to_map
       [ (["tmp"], Dir); (["tmp"; "hls-jobs"], Dir); (jobDir, Dir);
         ((jobDir ++ ["track.MP3"])%list, File 5000 Opaque) ])
    1700000000000 [].

(** The world the loop of [transcode] leaves for the two uploads. *)
Definition packaged : World :=
  (for_of [a_mp3; b_mp3] (transcode_one ffmpeg "job-1" jobDir)
     (initJob "job-1" [a_mp3; b_mp3] boot).2).2.

Definition after_update : World :=
  updateFileStatus "job-1" "a.mp3" completed_update
    (initJob "job-1" [a_mp3; b_mp3] boot).2.

(** A map with one job started two hours before the clock reading and one
    started ten minutes before it, each with its directory. *)
Definition old_job : Job.t :=
  Job.mk "job-old" JobProcessing (1700000000000 - 7200000)
    [FileEntry.mk "x.mp3" Processing None 0%nat None]
    0%nat 0%nat None None None.
Definition new_job : Job.t :=
  Job.mk "job-new" JobCompleted (1700000000000 - 600000)
    [FileEntry.mk "y.mp3" Completed (Some "y") 8%nat None]
    1%nat 0%nat (Some ["tmp"; "hls-jobs"; "job-new"; "hls-output.zip"])
    None (Some (1700000000000 - 500000)).
Definition two_jobs : World :=
  mkWorld (<["job-old" := old_job]> (<["job-new" := new_job]> ∅))
    (list_to_map
       [ (["tmp"], Dir); (["tmp"; "hls-jobs"], Dir);
         (["tmp"; "hls-jobs"; "job-old"], Dir);
         (["tmp"; "hls-jobs"; "job-old"; "x.mp3"], File 5000 Opaque);
         (["tmp"; "hls-jobs"; "job-new"], Dir);
         (["tmp"; "hls-jobs"; "job-new"; "hls-output.zip"],
          File 4096 (Zip [["y"; "master.m3u8"]])) ])
    1700000000000 [].

End Sample.

(** ** Job state store: counters *)

Lemma count_completed_failed (files : list FileEntry.t) :
  (length (filter is_completed files) + length (filter is_failed files))%nat =
  length (filter (λ f, is_completed f ∨ is_failed f) files).
Proof.
  induction files as [|f files IH]; [reflexivity|].
  rewrite !filter_cons.
  repeat case_decide; simpl; rewrite <- ?IH; try lia;
    exfalso; unfold is_completed, is_failed in *; intuition congruence.
Qed.

Lemma counts_ok_intro (job : Job.t) :
  Job.completedFiles job = length (filter is_completed (Job.files job)) →
  Job.failedFiles job = length (filter is_failed (Job.files job)) →
  counts_ok job.
Proof.
  intros Hc Hf. unfold counts_ok. rewrite Hc, Hf.
  repeat split.
  - apply count_completed_failed.
  - rewrite count_completed_failed. apply length_filter.
Qed.

Lemma counts_ok_set_status s job : counts_ok job → counts_ok (Job.set_status s job).
Proof. exact id. Qed.
Lemma counts_ok_set_zipPath z job : counts_ok job → counts_ok (Job.set_zipPath z job).
Proof. exact id. Qed.
Lemma counts_ok_set_error e job : counts_ok job → counts_ok (Job.set_error e job).
Proof. exact id. Qed.
Lemma counts_ok_set_completedAt d job :
  counts_ok job → counts_ok (Job.set_completedAt d job).
Proof. exact id. Qed.

Lemma initJob_all_pending (files : list Upload.t) :
  Forall (λ f, FileEntry.status f = Pending)
    (map (λ f, FileEntry.mk (Upload.originalName f) Pending None 0%nat None)
       files).
Proof. induction files; constructor; auto. Qed.

Lemma filter_none_of_pending (P : FileEntry.t → Prop) `{∀ f, Decision (P f)}
    (files : list FileEntry.t) :
  (∀ f, P f → FileEntry.status f ≠ Pending) →
  Forall (λ f, FileEntry.status f = Pending) files →
  filter P files = [].
Proof.
  intros HP Hall. induction Hall as [|f files Hf _ IH]; [reflexivity|].
  rewrite filter_cons. case_decide; [|exact IH].
  exfalso. eapply HP; eauto.
Qed.

Lemma initJob_counts_ok jobId files w :
  ∃ job, initJob jobId files w = (Ok job, with_jobs (insert jobId job) w) ∧
         counts_ok job.
Proof.
  eexists. split; [reflexivity|].
  apply counts_ok_intro; simpl.
  - rewrite (filter_none_of_pending is_completed); [reflexivity| |apply initJob_all_pending].
    unfold is_completed. congruence.
  - rewrite (filter_none_of_pending is_failed); [reflexivity| |apply initJob_all_pending].
    unfold is_failed. congruence.
Qed.

(** What [updateFileStatus] leaves under any id: the recounted job under
    its own id, the former value elsewhere. *)
Lemma updateFileStatus_lookup jobId fileName updates w id :
  jobs (updateFileStatus jobId fileName updates w) !! id =
  if decide (id = jobId) then
    (λ job,
       let files := assign_found fileName updates (Job.files job) in
       Job.set_failedFiles (length (filter is_failed files))
         (Job.set_completedFiles (length (filter is_completed files))
            (Job.set_files files job))) <$> jobs w !! jobId
  else jobs w !! id.
Proof.
  unfold updateFileStatus.
  destruct (jobs w !! jobId) as [job|] eqn:Hjob.
  - cbn [jobs with_jobs]. case_decide; subst.
    + rewrite lookup_insert_eq. reflexivity.
    + rewrite lookup_insert_ne by congruence. reflexivity.
  - case_decide; subst; [rewrite Hjob|]; reflexivity.
Qed.

Lemma updateFileStatus_counts_ok jobId fileName updates w job :
  jobs (updateFileStatus jobId fileName updates w) !! jobId = Some job →
  counts_ok job.
Proof.
  rewrite updateFileStatus_lookup, decide_True by reflexivity.
  destruct (jobs w !! jobId) as [job0|]; [|discriminate].
  intros [= <-]. apply counts_ok_intro; reflexivity.
Qed.

(** ** Paths and the disk *)

Lemma strip_prefix_Some p q r : Fs.strip_prefix p q = Some r ↔ q = (p ++ r)%list.
Proof.
  revert q. induction p as [|a p IH]; intros q; simpl.
  - split; congruence.
  - destruct q as [|b q]; [split; discriminate|].
    destruct (String.eqb_spec a b) as [->|Hne].
    + rewrite IH. split; congruence.
    + split; [discriminate|]. intros [= -> _]. congruence.
Qed.

Lemma strip_prefix_app p r : Fs.strip_prefix p (p ++ r)%list = Some r.
Proof. by apply strip_prefix_Some. Qed.

Lemma strip_prefix_None p q :
  Fs.strip_prefix p q = None ↔ ∀ r, q ≠ (p ++ r)%list.
Proof.
  split.
  - intros Hn r ->. by rewrite strip_prefix_app in Hn.
  - intros Hall. destruct (Fs.strip_prefix p q) as [r|] eqn:Hs; [|done].
    apply strip_prefix_Some in Hs. by destruct (Hall r).
Qed.

Lemma join_plain dir s : plain s → Path.join dir s = (dir ++ [s])%list.
Proof.
  intros (H1 & H2 & H3). unfold Path.join.
  destruct (String.eqb_spec s ""); [done|].
  destruct (String.eqb_spec s "."); [done|].
  destruct (String.eqb_spec s ".."); [done|].
  reflexivity.
Qed.

Lemma rmSync_recursive_lookup (p : Path.t) (d : gmap (list string) Node)
    (q : Path.t) :
  Fs.rmSync_recursive p d !! q =
  match Fs.strip_prefix p q with Some _ => None | None => d !! q end.
Proof.
  unfold Fs.rmSync_recursive.
  destruct (Fs.strip_prefix p q) as [r|] eqn:Hs.
  - apply map_lookup_filter_None. right. intros x _. simpl. congruence.
  - destruct (d !! q) as [x|] eqn:Hq.
    + apply map_lookup_filter_Some. done.
    + apply map_lookup_filter_None. by left.
Qed.

Lemma rmSync_recursive_below (p : Path.t) (d : gmap (list string) Node)
    (rest : list string) :
  Fs.rmSync_recursive p d !! (p ++ rest)%list = None.
Proof. by rewrite rmSync_recursive_lookup, strip_prefix_app. Qed.

Lemma rmSync_recursive_shrinks (p : Path.t) (d : gmap (list string) Node)
    (q : Path.t) :
  d !! q = None → Fs.rmSync_recursive p d !! q = None.
Proof. rewrite rmSync_recursive_lookup. by destruct (Fs.strip_prefix p q). Qed.

Lemma sibling_not_below dir a b rest :
  a ≠ b → Fs.strip_prefix (dir ++ [a])%list (dir ++ b :: rest)%list = None.
Proof.
  intros Hne. apply strip_prefix_None. intros r Heq.
  rewrite <- app_assoc in Heq. apply app_inv_head in Heq.
  simpl in Heq. congruence.
Qed.

(** ** Cleanup and the expiry sweep *)

Lemma cleanupJob_jobs jobId w : jobs (cleanupJob jobId w) = delete jobId (jobs w).
Proof. unfold cleanupJob. by destruct (Fs.existsSync _ _). Qed.

Lemma cleanupJob_disk jobId w :
  disk (cleanupJob jobId w) =
  if Fs.existsSync (Path.join TEMP_DIR jobId) (disk w)
  then Fs.rmSync_recursive (Path.join TEMP_DIR jobId) (disk w)
  else disk w.
Proof. unfold cleanupJob. by destruct (Fs.existsSync _ _). Qed.

Lemma cleanupJob_disk_shrinks jobId w q :
  disk w !! q = None → disk (cleanupJob jobId w) !! q = None.
Proof.
  intros Hq. rewrite cleanupJob_disk.
  destruct (Fs.existsSync _ _); [by apply rmSync_recursive_shrinks|done].
Qed.

Lemma rmSync_recursive_dir_or_nothing (p dir : Path.t)
    (d : gmap (list string) Node) :
  dir_or_nothing dir d → dir_or_nothing dir (Fs.rmSync_recursive p d).
Proof.
  intros [Hsome|Hnone].
  - destruct (Fs.strip_prefix p dir) as [r|] eqn:Hs.
    + right. intros rest. apply strip_prefix_Some in Hs. subst dir.
      rewrite <- app_assoc. apply rmSync_recursive_below.
    + left. by rewrite rmSync_recursive_lookup, Hs.
  - right. intros rest. by apply rmSync_recursive_shrinks.
Qed.

Lemma cleanupJob_dir_or_nothing jobId dir w :
  dir_or_nothing dir (disk w) → dir_or_nothing dir (disk (cleanupJob jobId w)).
Proof.
  rewrite cleanupJob_disk. destruct (Fs.existsSync _ _); [|done].
  apply rmSync_recursive_dir_or_nothing.
Qed.

Lemma cleanupJob_removes_dir jobId w :
  dir_or_nothing (Path.join TEMP_DIR jobId) (disk w) →
  ∀ rest, disk (cleanupJob jobId w) !! (Path.join TEMP_DIR jobId ++ rest)%list = None.
Proof.
  intros Hd rest. rewrite cleanupJob_disk. unfold Fs.existsSync.
  destruct (disk w !! Path.join TEMP_DIR jobId) as [x|] eqn:Hx.
  - apply rmSync_recursive_below.
  - destruct Hd as [[y Hy]|Hnone]; [congruence|apply Hnone].
Qed.

Lemma cleanupJob_other_dir jobId id w rest :
  plain jobId → jobId ≠ id →
  disk (cleanupJob jobId w) !! (TEMP_DIR ++ id :: rest)%list =
  disk w !! (TEMP_DIR ++ id :: rest)%list.
Proof.
  intros Hplain Hne. rewrite cleanupJob_disk, join_plain by done.
  destruct (Fs.existsSync _ _); [|done].
  by rewrite rmSync_recursive_lookup, sibling_not_below.
Qed.

Section Sweep.

Variables (now_ maxAge : Z).

Lemma sweep_entry_jobs entry w :
  jobs (sweep_entry now_ maxAge entry w) =
  if maxAge <? now_ - Job.startedAt entry.2
  then delete entry.1 (jobs w) else jobs w.
Proof.
  unfold sweep_entry. destruct (_ <? _); [apply cleanupJob_jobs|done].
Qed.

Lemma sweep_removed entries w id job :
  (id, job) ∈ entries → maxAge < now_ - Job.startedAt job →
  jobs (foldr (sweep_entry now_ maxAge) w entries) !! id = None.
Proof.
  intros Hin Hold. induction entries as [|e entries IH]; [by inversion Hin|].
  simpl. rewrite sweep_entry_jobs.
  apply elem_of_cons in Hin as [<-|Hin].
  - simpl. destruct (Z.ltb_spec maxAge (now_ - Job.startedAt job)); [|lia].
    apply lookup_delete_eq.
  - specialize (IH Hin). destruct (_ <? _); [|done].
    rewrite lookup_delete. by case_decide.
Qed.

Lemma sweep_kept entries w id :
  (∀ job, (id, job) ∈ entries → ¬ maxAge < now_ - Job.startedAt job) →
  jobs (foldr (sweep_entry now_ maxAge) w entries) !! id = jobs w !! id.
Proof.
  intros Hyoung. induction entries as [|[id' job'] entries IH]; [done|].
  simpl. rewrite sweep_entry_jobs. simpl.
  rewrite <- IH by (intros job Hin; apply Hyoung; by right).
  destruct (Z.ltb_spec maxAge (now_ - Job.startedAt job')); [|done].
  apply lookup_delete_ne. intros ->.
  by apply (Hyoung job'); [left|].
Qed.

Lemma sweep_dir_or_nothing entries w dir :
  dir_or_nothing dir (disk w) →
  dir_or_nothing dir (disk (foldr (sweep_entry now_ maxAge) w entries)).
Proof.
  intros Hd. induction entries as [|e entries IH]; [done|].
  simpl. unfold sweep_entry at 1. destruct (_ <? _); [|done].
  by apply cleanupJob_dir_or_nothing.
Qed.

Lemma sweep_removes_dir entries w id job :
  (id, job) ∈ entries → maxAge < now_ - Job.startedAt job →
  dir_or_nothing (Path.join TEMP_DIR id) (disk w) →
  ∀ rest,
    disk (foldr (sweep_entry now_ maxAge) w entries)
      !! (Path.join TEMP_DIR id ++ rest)%list = None.
Proof.
  intros Hin Hold Hd rest.
  induction entries as [|e entries IH]; [by inversion Hin|].
  simpl. apply elem_of_cons in Hin as [<-|Hin].
  - unfold sweep_entry at 1. simpl.
    destruct (Z.ltb_spec maxAge (now_ - Job.startedAt job)); [|lia].
    apply cleanupJob_removes_dir. by apply sweep_dir_or_nothing.
  - unfold sweep_entry at 1. destruct (_ <? _); [|by apply IH].
    apply cleanupJob_disk_shrinks. by apply IH.
Qed.

Lemma sweep_keeps_dir entries w id rest :
  (∀ id' job, (id', job) ∈ entries → plain id') →
  (∀ job, (id, job) ∈ entries → ¬ maxAge < now_ - Job.startedAt job) →
  disk (foldr (sweep_entry now_ maxAge) w entries) !! (TEMP_DIR ++ id :: rest)%list
  = disk w !! (TEMP_DIR ++ id :: rest)%list.
Proof.
  intros Hplain Hyoung. induction entries as [|[id' job'] entries IH]; [done|].
  cbn [foldr]. rewrite <- IH.
  2:{ intros ???. eapply Hplain. by right. }
  2:{ intros ??. apply Hyoung. by right. }
  unfold sweep_entry at 1. cbn [fst snd].
  destruct (Z.ltb_spec maxAge (now_ - Job.startedAt job')); [|done].
  apply cleanupJob_other_dir.
  - eapply Hplain. by left.
  - intros ->. by apply (Hyoung job'); [left|].
Qed.

End Sweep.

(** C8: the sweep with threshold [maxAgeMinutes] removes from the map
    exactly the jobs whose age, counted from [startedAt] at the time of the
    sweep, exceeds the threshold, and removes the directory of each with
    all it holds; every other job keeps its map entry, whatever its
    status, and its directory is left as it was. *)
Theorem cleanupOldJobs_expired_only maxAgeMinutes w id job :
  jobs w !! id = Some job →
  let w' := cleanupOldJobs maxAgeMinutes w in
  (expired maxAgeMinutes (now w) job →
     jobs w' !! id = None ∧
     (dir_or_nothing (Path.join TEMP_DIR id) (disk w) →
      ∀ rest, disk w' !! (Path.join TEMP_DIR id ++ rest)%list = None)) ∧
  (¬ expired maxAgeMinutes (now w) job →
     jobs w' !! id = Some job ∧
     ((∀ id', is_Some (jobs w !! id') → plain id') →
      ∀ rest, disk w' !! (TEMP_DIR ++ id :: rest)%list =
              disk w !! (TEMP_DIR ++ id :: rest)%list)).
Proof.
  intros Hjob w'. subst w'. unfold cleanupOldJobs, expired.
  assert (Hin : (id, job) ∈ map_to_list (jobs w))
    by by apply elem_of_map_to_list.
  split.
  - intros Hold. split.
    + by eapply sweep_removed.
    + intros Hd rest. by eapply sweep_removes_dir.
  - intros Hyoung.
    assert (Hall : ∀ job', (id, job') ∈ map_to_list (jobs w) →
                           ¬ maxAgeMinutes * 60 * 1000 < now w - Job.startedAt job').
    { intros job' Hin'. apply elem_of_map_to_list in Hin'.
      by replace job' with job by congruence. }
    split.
    + rewrite <- Hjob. by apply sweep_kept.
    + intros Hplain rest. apply sweep_keeps_dir; [|done].
      intros id' job' Hin'. apply elem_of_map_to_list in Hin'.
      apply Hplain. by exists job'.
Qed.

Lemma cleanupOldJobs_absent maxAgeMinutes w id :
  jobs w !! id = None → jobs (cleanupOldJobs maxAgeMinutes w) !! id = None.
Proof.
  intros Hnone. unfold cleanupOldJobs. rewrite <- Hnone. apply sweep_kept.
  intros job Hin. apply elem_of_map_to_list in Hin. congruence.
Qed.

Lemma cleanupOldJobs_lookup_inv maxAgeMinutes w id job :
  jobs (cleanupOldJobs maxAgeMinutes w) !! id = Some job →
  jobs w !! id = Some job.
Proof.
  intros Hafter. destruct (jobs w !! id) as [job0|] eqn:Hbefore.
  - assert (Hin : (id, job0) ∈ map_to_list (jobs w))
      by by apply elem_of_map_to_list.
    destruct (Z.lt_ge_cases (maxAgeMinutes * 60 * 1000)
                (now w - Job.startedAt job0)) as [Hold|Hyoung].
    + unfold cleanupOldJobs in Hafter.
      erewrite sweep_removed in Hafter; [discriminate|exact Hin|exact Hold].
    + unfold cleanupOldJobs in Hafter.
      rewrite sweep_kept in Hafter; [congruence|].
      intros job' Hin'. apply elem_of_map_to_list in Hin'.
      replace job' with job0 by congruence. lia.
  - apply (cleanupOldJobs_absent maxAgeMinutes) in Hbefore. congruence.
Qed.

Lemma cleanupOldJobs_expired_only_witness :
  jobs (cleanupOldJobs 60 Sample.two_jobs) !! "job-old" = None ∧
  disk (cleanupOldJobs 60 Sample.two_jobs)
    !! ["tmp"; "hls-jobs"; "job-old"; "x.mp3"] = None ∧
  jobs (cleanupOldJobs 60 Sample.two_jobs) !! "job-new" = Some Sample.new_job.
Proof.
  assert (Hold : jobs Sample.two_jobs !! "job-old" = Some Sample.old_job)
    by (vm_compute; reflexivity).
  assert (Hnew : jobs Sample.two_jobs !! "job-new" = Some Sample.new_job)
    by (vm_compute; reflexivity).
  assert (Eold : expired 60 (now Sample.two_jobs) Sample.old_job)
    by (vm_compute; reflexivity).
  assert (Enew : ¬ expired 60 (now Sample.two_jobs) Sample.new_job)
    by (vm_compute; discriminate).
  pose proof (cleanupOldJobs_expired_only 60 Sample.two_jobs "job-old"
                Sample.old_job Hold) as [Hexp _].
  pose proof (cleanupOldJobs_expired_only 60 Sample.two_jobs "job-new"
                Sample.new_job Hnew) as [_ Hkeep].
  destruct (Hexp Eold) as [Hgone Hdir].
  destruct (Hkeep Enew) as [Hkept _].
  split; [exact Hgone|]. split; [|exact Hkept].
  apply (Hdir (or_introl (ex_intro _ Dir eq_refl)) ["x.mp3"]).
Defined.

(** C1: in every world the process can be in, each job held by the map has
    [completedFiles] equal to the number of its entries with status
    completed and [failedFiles] equal to the number with status failed, so
    their sum is the number of entries that are completed or failed and is
    at most the number of entries; [initJob] and [updateFileStatus] are the
    only statements that write the counters, and the latter recounts. *)
Theorem store_counts_consistent w id job :
  reachable w → jobs w !! id = Some job → counts_ok job.
Proof.
  intros Hreach. revert id job.
  induction Hreach as
    [d t|w d t tr _ IH|w jobId files _ IH|w jobId fileName updates _ IH
    |w jobId s _ IH|w jobId z _ IH|w jobId e _ IH|w jobId c _ IH
    |w jobId _ IH|w maxAgeMinutes _ IH]; intros id job; cbn [jobs with_jobs].
  - by rewrite lookup_empty.
  - apply IH.
  - destruct (initJob_counts_ok jobId files w) as (job0 & -> & Hok).
    cbn [snd jobs with_jobs]. rewrite lookup_insert. case_decide.
    + by intros [= <-].
    + apply IH.
  - destruct (decide (id = jobId)) as [->|Hne].
    + apply updateFileStatus_counts_ok.
    + rewrite updateFileStatus_lookup, decide_False by done. apply IH.
  - rewrite lookup_alter. case_decide; [|apply IH]. subst.
    destruct (jobs w !! id) as [j|] eqn:Hj; [|discriminate].
    intros [= <-]. eapply counts_ok_set_status, IH, Hj.
  - rewrite lookup_alter. case_decide; [|apply IH]. subst.
    destruct (jobs w !! id) as [j|] eqn:Hj; [|discriminate].
    intros [= <-]. eapply counts_ok_set_zipPath, IH, Hj.
  - rewrite lookup_alter. case_decide; [|apply IH]. subst.
    destruct (jobs w !! id) as [j|] eqn:Hj; [|discriminate].
    intros [= <-]. eapply counts_ok_set_error, IH, Hj.
  - rewrite lookup_alter. case_decide; [|apply IH]. subst.
    destruct (jobs w !! id) as [j|] eqn:Hj; [|discriminate].
    intros [= <-]. eapply counts_ok_set_completedAt, IH, Hj.
  - rewrite cleanupJob_jobs, lookup_delete. case_decide; [discriminate|apply IH].
  - intros Hafter. eapply IH, cleanupOldJobs_lookup_inv, Hafter.
Qed.

Lemma store_counts_consistent_witness :
  ∃ job, jobs Sample.after_update !! "job-1" = Some job ∧
         Job.completedFiles job = 1%nat ∧ counts_ok job.
Proof.
  eexists. split; [vm_compute; reflexivity|]. split; [reflexivity|].
  apply (store_counts_consistent Sample.after_update "job-1").
  - apply reach_updateFileStatus, reach_initJob, reach_boot.
  - vm_compute. reflexivity.
Defined.

(** ** Job state store: creation and update *)

(** C4 as the code has it: [initJob] never fails.  Under any id, present in
    the map or not, it stores a new job whose entries carry the uploaded
    names in order, all with status pending, with both counters zero, and
    returns the stored job; a job held under that id before is replaced,
    the jobs under other ids and the disk are left alone. *)
Theorem initJob_stores_pending jobId files w :
  ∃ job w',
    initJob jobId files w = (Ok job, w') ∧
    getJobStatus jobId w' = Some job ∧
    Job.jobId job = jobId ∧
    Job.status job = JobProcessing ∧
    map FileEntry.name (Job.files job) = map Upload.originalName files ∧
    Forall (λ f, FileEntry.status f = Pending) (Job.files job) ∧
    Job.completedFiles job = 0%nat ∧ Job.failedFiles job = 0%nat ∧
    Job.zipPath job = None ∧ Job.error job = None ∧
    (∀ id, id ≠ jobId → getJobStatus id w' = getJobStatus id w) ∧
    disk w' = disk w.
Proof.
  do 2 eexists. split; [reflexivity|]. unfold getJobStatus. cbn.
  repeat split.
  - apply lookup_insert_eq.
  - rewrite map_map. reflexivity.
  - apply initJob_all_pending.
  - intros id Hne. by apply lookup_insert_ne.
Qed.

Lemma initJob_stores_pending_witness :
  ∃ job w',
    initJob "job-1" [Sample.b_mp3] Sample.after_update = (Ok job, w') ∧
    getJobStatus "job-1" w' = Some job ∧
    getJobStatus "job-2" w' = getJobStatus "job-2" Sample.after_update.
Proof.
  destruct (initJob_stores_pending "job-1" [Sample.b_mp3] Sample.after_update)
    as (job & w' & Hrun & Hget & _ & _ & _ & _ & _ & _ & _ & _ & Hother & _).
  exists job, w'. split; [exact Hrun|]. split; [exact Hget|].
  apply Hother. discriminate.
Defined.

(** C4 fails as stated: a second [initJob] under an id the map already
    holds returns normally, and the job stored under that id is no longer
    the one that was there. *)
Lemma initJob_duplicate_id_overwrites :
  ∃ existing job w',
    getJobStatus "job-1" Sample.after_update = Some existing ∧
    initJob "job-1" [Sample.b_mp3] Sample.after_update = (Ok job, w') ∧
    getJobStatus "job-1" w' = Some job ∧
    job ≠ existing ∧
    Job.files existing ≠ Job.files job.
Proof.
  do 3 eexists. split; [vm_compute; reflexivity|].
  split; [reflexivity|]. split; [vm_compute; reflexivity|].
  split; vm_compute; discriminate.
Qed.

Lemma assign_found_no_match fileName updates files :
  (∀ f, f ∈ files → FileEntry.name f ≠ fileName) →
  assign_found fileName updates files = files.
Proof.
  induction files as [|f files IH]; intros Hno; [reflexivity|]. simpl.
  destruct (String.eqb_spec (FileEntry.name f) fileName) as [Heq|_].
  - exfalso. apply (Hno f); [by left|exact Heq].
  - f_equal. apply IH. intros g Hg. apply Hno. by right.
Qed.

Lemma assign_found_first_match fileName updates pre f post :
  (∀ g, g ∈ pre → FileEntry.name g ≠ fileName) →
  FileEntry.name f = fileName →
  assign_found fileName updates (pre ++ f :: post)%list =
  (pre ++ assign f updates :: post)%list.
Proof.
  intros Hpre Hf. induction pre as [|g pre IH]; simpl.
  - destruct (String.eqb_spec (FileEntry.name f) fileName); [reflexivity|done].
  - destruct (String.eqb_spec (FileEntry.name g) fileName) as [Heq|_].
    + exfalso. apply (Hpre g); [by left|exact Heq].
    + f_equal. apply IH. intros h Hh. apply Hpre. by right.
Qed.

(** C7: [updateFileStatus] returns the world as it was when the map has no
    job under the id, so an update that arrives after [cleanupJob] does not
    bring the job back; when the job is there and no entry carries the
    name, the list of entries is the same afterwards; otherwise the first
    entry with that name, and only it, receives the fields of [updates];
    in both cases the two counters are recounted from the resulting
    entries and nothing else of the job, of other jobs or of the disk
    changes. *)
Theorem updateFileStatus_contract jobId fileName updates w :
  let w' := updateFileStatus jobId fileName updates w in
  (getJobStatus jobId w = None → w' = w) ∧
  getJobStatus jobId
    (updateFileStatus jobId fileName updates (cleanupJob jobId w)) = None ∧
  (∀ job, getJobStatus jobId w = Some job →
     ∃ job', getJobStatus jobId w' = Some job' ∧
       ((∀ f, f ∈ Job.files job → FileEntry.name f ≠ fileName) →
          Job.files job' = Job.files job) ∧
       (∀ pre f post,
          Job.files job = (pre ++ f :: post)%list →
          (∀ g, g ∈ pre → FileEntry.name g ≠ fileName) →
          FileEntry.name f = fileName →
          Job.files job' = (pre ++ assign f updates :: post)%list) ∧
       Job.completedFiles job' = length (filter is_completed (Job.files job')) ∧
       Job.failedFiles job' = length (filter is_failed (Job.files job')) ∧
       Job.set_files (Job.files job)
         (Job.set_completedFiles (Job.completedFiles job)
            (Job.set_failedFiles (Job.failedFiles job) job')) = job) ∧
  (∀ id, id ≠ jobId → getJobStatus id w' = getJobStatus id w) ∧
  disk w' = disk w ∧ now w' = now w ∧ trace w' = trace w.
Proof.
  intros w'. subst w'. unfold getJobStatus. repeat split.
  - intros Hnone. unfold updateFileStatus. by rewrite Hnone.
  - rewrite updateFileStatus_lookup, decide_True by done.
    by rewrite cleanupJob_jobs, lookup_delete_eq.
  - intros job Hjob. rewrite updateFileStatus_lookup, decide_True by done.
    rewrite Hjob. eexists. split; [reflexivity|]. cbn. repeat split.
    + apply assign_found_no_match.
    + intros pre f post -> Hpre Hf. by apply assign_found_first_match.
    + by destruct job.
  - intros id Hne. by rewrite updateFileStatus_lookup, decide_False.
  - unfold updateFileStatus. by destruct (jobs w !! jobId).
  - unfold updateFileStatus. by destruct (jobs w !! jobId).
  - unfold updateFileStatus. by destruct (jobs w !! jobId).
Qed.

Lemma updateFileStatus_contract_witness :
  updateFileStatus "job-9" "a.mp3" Sample.completed_update Sample.after_update
    = Sample.after_update ∧
  ∃ job', getJobStatus "job-1"
            (updateFileStatus "job-1" "b.mp3" Sample.completed_update
               Sample.after_update) = Some job' ∧
          Job.completedFiles job' = 2%nat.
Proof.
  split.
  - apply (updateFileStatus_contract "job-9" "a.mp3" Sample.completed_update
             Sample.after_update).
    vm_compute. reflexivity.
  - destruct (updateFileStatus_contract "job-1" "b.mp3" Sample.completed_update
                Sample.after_update) as (_ & _ & Hjob & _).
    destruct (Hjob _ eq_refl) as (job' & Hget & _ & Hfirst & Hc & _).
    exists job'. split; [exact Hget|]. rewrite Hc.
    rewrite (Hfirst [FileEntry.mk "a.mp3" Completed (Some "a") 8%nat None]
               (FileEntry.mk "b.mp3" Pending None 0%nat None) []).
    + reflexivity.
    + reflexivity.
    + intros g Hg. apply list_elem_of_singleton in Hg as ->. discriminate.
    + reflexivity.
Defined.

(** ** The download route *)

(** The archive is sent for a job exactly when its status is completed,
    its [zipPath] is set and the file is on disk. *)
Lemma download_served jobId w file filename :
  download jobId w = Download file filename ↔
  ∃ job, getJobStatus jobId w = Some job ∧
         Job.status job = JobCompleted ∧
         Job.zipPath job = Some file ∧
         Fs.existsSync file (disk w) = true ∧
         filename = "hls-" +:+ jobId +:+ ".zip".
Proof.
  unfold download. split.
  - destruct (getJobStatus jobId w) as [job|]; [|discriminate].
    case_bool_decide as Hs; [|discriminate]. simpl.
    destruct (Job.zipPath job) as [zip|] eqn:Hz; [|discriminate].
    destruct (Fs.existsSync zip (disk w)) eqn:Hex; [|discriminate].
    simpl. intros [= <- <-]. by exists job.
  - intros (job & -> & Hs & -> & Hex & ->).
    rewrite bool_decide_true by done. simpl. by rewrite Hex.
Qed.

(** Every refusal is a 4xx answer. *)
Lemma download_refusal_is_client_error jobId w code msg st :
  download jobId w = Json code msg st → code = 400%nat ∨ code = 404%nat.
Proof.
  unfold download.
  destruct (getJobStatus jobId w) as [job|]; [|intros [= <- _ _]; by right].
  case_bool_decide; simpl; [|intros [= <- _ _]; by left].
  destruct (Job.zipPath job) as [zip|]; [|intros [= <- _ _]; by right].
  destruct (Fs.existsSync zip (disk w)); simpl; [discriminate|].
  intros [= <- _ _]. by right.
Qed.

(** C5 at the failing input: [transcode] on the two sample uploads ends in
    status completed_with_errors with the archive written and on disk, and
    the download route answers 400 instead of sending it. *)
Theorem download_refuses_completed_with_errors :
  let w :=
    (transcode Sample.ffmpeg Sample.archiver "job-1"
       [Sample.a_mp3; Sample.b_mp3] Sample.boot).2 in
  ∃ job zip,
    getJobStatus "job-1" w = Some job ∧
    Job.status job = JobCompletedWithErrors ∧
    Job.zipPath job = Some zip ∧
    Fs.existsSync zip (disk w) = true ∧
    download "job-1" w =
      Json 400 "Job not yet completed" (Some JobCompletedWithErrors).
Proof.
  do 2 eexists. split; [vm_compute; reflexivity|].
  split; [reflexivity|]. split; [reflexivity|].
  split; vm_compute; reflexivity.
Qed.

(** ** Running the monad *)

Lemma run_bind {A B} (m : M A) (k : A → M B) w :
  (m ≫= k) w =
  match m w with
  | (Ok a, w') => k a w'
  | (Throw e, w') => (Throw e, w')
  end.
Proof. reflexivity. Qed.

Lemma bind_Ok {A B} (m : M A) (k : A → M B) w b w2 :
  (m ≫= k) w = (Ok b, w2) →
  ∃ a w1, m w = (Ok a, w1) ∧ k a w1 = (Ok b, w2).
Proof.
  rewrite run_bind. destruct (m w) as [[a|e] w1]; [eauto|discriminate].
Qed.

Lemma bind_Throw {A B} (m : M A) (k : A → M B) w e w2 :
  (m ≫= k) w = (Throw e, w2) →
  m w = (Throw e, w2) ∨ ∃ a w1, m w = (Ok a, w1) ∧ k a w1 = (Throw e, w2).
Proof.
  rewrite run_bind. destruct (m w) as [[a|e'] w1]; [eauto|].
  intros [= -> ->]. by left.
Qed.

Section Preserves.

Variable R : World → World → Prop.
Hypothesis R_refl : ∀ w, R w w.
Hypothesis R_trans : ∀ a b c, R a b → R b c → R a c.

Lemma preserves_ret {A} (a : A) : preserves R (mret a).
Proof. intros w r w' [= _ <-]. apply R_refl. Qed.

Lemma preserves_get : preserves R get.
Proof. intros w r w' [= _ <-]. apply R_refl. Qed.

Lemma preserves_modify f : (∀ w, R w (f w)) → preserves R (modify f).
Proof. intros Hf w r w' [= _ <-]. apply Hf. Qed.

Lemma preserves_bind {A B} (m : M A) (k : A → M B) :
  preserves R m → (∀ a, preserves R (k a)) → preserves R (m ≫= k).
Proof.
  intros Hm Hk w r w'. rewrite run_bind.
  destruct (m w) as [[a|e] w1] eqn:Hrun.
  - intros Hrest. eapply R_trans; [eapply Hm, Hrun|eapply Hk, Hrest].
  - intros [= _ <-]. eapply Hm, Hrun.
Qed.

Lemma preserves_try_catch {A} (body : M A) handler :
  preserves R body → (∀ e, preserves R (handler e)) →
  preserves R (try_catch body handler).
Proof.
  intros Hb Hh w r w'. unfold try_catch.
  destruct (body w) as [[a|e] w1] eqn:Hrun.
  - intros [= _ <-]. eapply Hb, Hrun.
  - intros Hrest. eapply R_trans; [eapply Hb, Hrun|eapply Hh, Hrest].
Qed.

Lemma preserves_for_of {A} (xs : list A) body :
  (∀ x, x ∈ xs → preserves R (body x)) → preserves R (for_of xs body).
Proof.
  induction xs as [|x xs IH]; intros Hbody; simpl.
  - apply preserves_ret.
  - apply preserves_bind.
    + apply Hbody. by left.
    + intros _. apply IH. intros y Hy. apply Hbody. by right.
Qed.

End Preserves.

Lemma same_jobs_refl w : same_jobs w w.
Proof. reflexivity. Qed.
Lemma same_jobs_trans a b c : same_jobs a b → same_jobs b c → same_jobs a c.
Proof. unfold same_jobs. congruence. Qed.

Create HintDb frame.
#[local] Hint Resolve same_jobs_refl same_jobs_trans : frame.

(** ** The steps of the package builder *)

Lemma mkdir_from_frame base rest whole w r w' :
  Fs.mkdir_from base rest whole w = (r, w') →
  jobs w' = jobs w ∧ trace w' = trace w ∧
  ∀ q, ¬ q `prefix_of` (base ++ rest)%list → disk w' !! q = disk w !! q.
Proof.
  revert base w. induction rest as [|s rest IH]; intros base w; simpl.
  - intros [= _ <-]. done.
  - destruct (disk w !! (base ++ [s])%list) as [[|size c]|] eqn:Hp.
    + intros Hrun. apply IH in Hrun as (Hj & Ht & Hd).
      split; [done|]. split; [done|]. intros q Hq.
      rewrite Hd by (by rewrite <- app_assoc).
      cbn [disk with_disk]. apply lookup_insert_ne.
      intros <-. apply Hq. by apply prefix_app, prefix_cons, prefix_nil.
    + intros [= _ <-]. done.
    + intros Hrun. apply IH in Hrun as (Hj & Ht & Hd).
      split; [done|]. split; [done|]. intros q Hq.
      rewrite Hd by (by rewrite <- app_assoc).
      cbn [disk with_disk]. apply lookup_insert_ne.
      intros <-. apply Hq. by apply prefix_app, prefix_cons, prefix_nil.
Qed.

Lemma write_outputs_lookup (dir : Path.t) (written : list (string * N))
    (d : gmap (list string) Node) (q : Path.t) :
  (∀ n, q ≠ (dir ++ [n])%list) →
  write_outputs dir written d !! q = d !! q.
Proof.
  intros Hq. unfold write_outputs. revert d.
  induction written as [|f written IH]; intros d; [done|].
  simpl. rewrite IH. apply lookup_insert_ne. intros Heq. by apply (Hq f.1).
Qed.

Lemma transcodeVariant_frame ffmpeg inputPath outputDir bitrate w r w' :
  transcodeVariant ffmpeg inputPath outputDir bitrate w = (r, w') →
  jobs w' = jobs w ∧
  trace w' = (trace w ++ [EvSpawn (variant_args inputPath outputDir bitrate)])%list ∧
  ∀ q, (∀ n, q ≠ (outputDir ++ [n])%list) → disk w' !! q = disk w !! q.
Proof.
  unfold transcodeVariant. rewrite run_bind. cbn [get]. rewrite run_bind.
  cbn [modify].
  set (run := ffmpeg w _).
  set (w1 := tick _ _).
  assert (H1 : jobs w1 = jobs w ∧
    trace w1 = (trace w ++ [EvSpawn (variant_args inputPath outputDir bitrate)])%list ∧
    ∀ q, (∀ n, q ≠ (outputDir ++ [n])%list) → disk w1 !! q = disk w !! q).
  { subst w1. cbn. split; [done|]. split; [done|].
    intros q Hq. by apply write_outputs_lookup. }
  clearbody w1.
  destruct (FFmpegRun.exit run) as [code| |msg].
  - destruct (code =? 0).
    + rewrite run_bind. unfold Fs.readdirSync.
      destruct (disk w1 !! outputDir) as [[|]|]; intros [= _ <-]; exact H1.
    + intros [= _ <-]. exact H1.
  - intros [= _ <-]. exact H1.
  - intros [= _ <-]. exact H1.
Qed.

Lemma ladder_names_plain v : v ∈ BITRATE_LADDER → plain (Variant.name v).
Proof.
  unfold BITRATE_LADDER. rewrite !elem_of_cons, elem_of_nil.
  intros [->|[->|[->|[->|[]]]]]; repeat split; discriminate.
Qed.

Lemma ladder_names_not_manifest v :
  v ∈ BITRATE_LADDER → Variant.name v ≠ "master.m3u8".
Proof.
  unfold BITRATE_LADDER. rewrite !elem_of_cons, elem_of_nil.
  intros [->|[->|[->|[->|[]]]]]; discriminate.
Qed.

Section Ladder.

Variable ffmpeg : World → FFmpegArgs.t → FFmpegRun.t.
Variables inputPath hlsDir : Path.t.

Lemma encode_ladder_app pre post acc w :
  encode_ladder ffmpeg inputPath hlsDir (pre ++ post)%list acc w =
  (encode_ladder ffmpeg inputPath hlsDir pre acc ≫=
     encode_ladder ffmpeg inputPath hlsDir post) w.
Proof.
  revert acc w. induction pre as [|v pre IH]; intros acc w; [done|].
  cbn [app encode_ladder]. rewrite !run_bind.
  destruct (transcodeVariant _ _ _ _ w) as [[res|e] w1]; [|done].
  rewrite IH. by rewrite run_bind.
Qed.

(** A ladder that throws did so at its first failing rung: the rungs
    before it succeeded, and the world is the one that rung left. *)
Lemma encode_ladder_Throw ladder acc w e w' :
  encode_ladder ffmpeg inputPath hlsDir ladder acc w = (Throw e, w') →
  ∃ pre v post acc1 w1,
    ladder = (pre ++ v :: post)%list ∧
    encode_ladder ffmpeg inputPath hlsDir pre acc w = (Ok acc1, w1) ∧
    transcodeVariant ffmpeg inputPath (Path.join hlsDir (Variant.name v))
      (Variant.bitrate v) w1 = (Throw e, w').
Proof.
  revert acc w. induction ladder as [|v ladder IH]; intros acc w; [discriminate|].
  cbn [encode_ladder]. intros Hrun.
  apply bind_Throw in Hrun as [Hfail|(res & w1 & Hok & Hrest)].
  - exists [], v, ladder, acc, w. done.
  - apply IH in Hrest as (pre & v' & post & acc1 & w2 & -> & Hpre & Hv).
    exists (v :: pre), v', post, acc1, w2. split; [done|]. split; [|done].
    cbn [encode_ladder]. rewrite run_bind, Hok. exact Hpre.
Qed.

Lemma encode_ladder_first_failure pre v post acc w acc1 w1 e w2 :
  encode_ladder ffmpeg inputPath hlsDir pre acc w = (Ok acc1, w1) →
  transcodeVariant ffmpeg inputPath (Path.join hlsDir (Variant.name v))
    (Variant.bitrate v) w1 = (Throw e, w2) →
  encode_ladder ffmpeg inputPath hlsDir (pre ++ v :: post)%list acc w =
    (Throw e, w2).
Proof.
  intros Hpre Hv. rewrite encode_ladder_app, run_bind, Hpre.
  cbn [encode_ladder]. by rewrite run_bind, Hv.
Qed.

Lemma encode_ladder_trace ladder acc w r w' :
  encode_ladder ffmpeg inputPath hlsDir ladder acc w = (r, w') →
  ∃ n, (n ≤ length ladder)%nat ∧
       trace w' =
         (trace w ++ (EvSpawn <$> ladder_args inputPath hlsDir (take n ladder)))%list ∧
       (∀ acc', r = Ok acc' → n = length ladder).
Proof.
  revert acc w. induction ladder as [|v ladder IH]; intros acc w.
  - intros [= <- <-]. exists 0%nat. cbn. by rewrite app_nil_r.
  - cbn [encode_ladder]. rewrite run_bind.
    destruct (transcodeVariant _ _ _ _ w) as [[res|e] w1] eqn:Hv;
      apply transcodeVariant_frame in Hv as (_ & Ht & _).
    + intros Hrest. apply IH in Hrest as (n & Hn & Htr & Hok).
      exists (S n). split; [simpl; lia|]. split.
      * rewrite Htr, Ht, <- app_assoc. done.
      * intros acc' Hr. simpl. f_equal. by eapply Hok.
    + intros [= <- <-]. exists 1%nat. split; [simpl; lia|]. split; [|done].
      rewrite Ht. by destruct ladder.
Qed.

Lemma encode_ladder_frame ladder acc w r w' :
  encode_ladder ffmpeg inputPath hlsDir ladder acc w = (r, w') →
  jobs w' = jobs w ∧
  ∀ q, (∀ v n, v ∈ ladder →
          q ≠ (Path.join hlsDir (Variant.name v) ++ [n])%list) →
       disk w' !! q = disk w !! q.
Proof.
  revert acc w. induction ladder as [|v ladder IH]; intros acc w.
  - intros [= _ <-]. done.
  - cbn [encode_ladder]. rewrite run_bind.
    destruct (transcodeVariant _ _ _ _ w) as [[res|e] w1] eqn:Hv;
      apply transcodeVariant_frame in Hv as (Hj & _ & Hd).
    + intros Hrest. apply IH in Hrest as (Hj2 & Hd2).
      split; [congruence|]. intros q Hq.
      rewrite Hd2 by (intros v' n Hin; apply Hq; by right).
      apply Hd. intros n. apply Hq. by left.
    + intros [= _ <-]. split; [done|]. intros q Hq.
      apply Hd. intros n. apply Hq. by left.
Qed.

Lemma encode_ladder_totals ladder acc w acc' w' :
  encode_ladder ffmpeg inputPath hlsDir ladder acc w = (Ok acc', w') →
  map VariantInfo.name acc'.1 =
    (map VariantInfo.name acc.1 ++ map Variant.name ladder)%list ∧
  (acc.2 = sum_list_with VariantInfo.segmentCount acc.1 →
   acc'.2 = sum_list_with VariantInfo.segmentCount acc'.1).
Proof.
  revert acc w. induction ladder as [|v ladder IH]; intros acc w.
  - intros [= <- _]. by rewrite app_nil_r.
  - cbn [encode_ladder]. intros Hrun.
    apply bind_Ok in Hrun as (res & w1 & _ & Hrest).
    apply IH in Hrest as [Hnames Hsum]. cbn [fst snd] in *. split.
    + rewrite Hnames, map_app, <- app_assoc. done.
    + intros Hacc. apply Hsum.
      rewrite sum_list_with_app, Hacc. simpl. lia.
Qed.

End Ladder.

Lemma manifest_not_under_rung (hlsDir : Path.t) (name : string) :
  name ≠ "master.m3u8" →
  ¬ (hlsDir ++ ["master.m3u8"])%list `prefix_of` ([] ++ (hlsDir ++ [name]))%list.
Proof.
  intros Hne [k Hk]. simpl in Hk. rewrite <- app_assoc in Hk.
  apply app_inv_head in Hk. simpl in Hk. congruence.
Qed.

Lemma manifest_not_in_rung (hlsDir : Path.t) (name n : string) :
  (hlsDir ++ ["master.m3u8"])%list ≠ ((hlsDir ++ [name]) ++ [n])%list.
Proof.
  intros Heq. apply (f_equal length) in Heq.
  rewrite !length_app in Heq. simpl in Heq. lia.
Qed.

Lemma join_manifest (hlsDir : Path.t) :
  Path.join hlsDir "master.m3u8" = (hlsDir ++ ["master.m3u8"])%list.
Proof. reflexivity. Qed.

Lemma make_rung_dirs_frame (hlsDir : Path.t) ladder w r w' :
  (∀ v, v ∈ ladder → v ∈ BITRATE_LADDER) →
  for_of ladder (λ variant,
    Fs.mkdirSync_recursive (Path.join hlsDir (Variant.name variant))) w = (r, w') →
  jobs w' = jobs w ∧ trace w' = trace w ∧
  disk w' !! (hlsDir ++ ["master.m3u8"])%list =
  disk w !! (hlsDir ++ ["master.m3u8"])%list.
Proof.
  revert w. induction ladder as [|v ladder IH]; intros w Hsub.
  - intros [= _ <-]. done.
  - cbn [for_of]. rewrite run_bind.
    assert (Hv : v ∈ BITRATE_LADDER) by (apply Hsub; by left).
    rewrite (join_plain _ _ (ladder_names_plain v Hv)).
    destruct (Fs.mkdirSync_recursive _ w) as [[[]|e] w1] eqn:Hmk;
      apply mkdir_from_frame in Hmk as (Hj & Ht & Hd);
      specialize (Hd _ (manifest_not_under_rung hlsDir _
                          (ladder_names_not_manifest v Hv))).
    + intros Hrest. apply IH in Hrest as (Hj2 & Ht2 & Hd2).
      * repeat split; congruence.
      * intros v' Hin. apply Hsub. by right.
    + intros [= _ <-]. done.
Qed.

Lemma writeFileSync_run p size data w r w' :
  Fs.writeFileSync p size data w = (r, w') →
  match r with
  | Ok _ => w' = emit (EvWriteFile p) (with_disk (insert p (File size data)) w)
  | Throw _ => w' = w
  end.
Proof.
  unfold Fs.writeFileSync.
  destruct (disk w !! p) as [[|]|];
    destruct (removelast p); try destruct (disk w !! _) as [[|]|];
    intros [= <- <-]; reflexivity.
Qed.

Section Package.

Variable ffmpeg : World → FFmpegArgs.t → FFmpegRun.t.

(** What a successful build returns. *)
Lemma transcodeFile_result inputPath outputDir fileName w pkg w' :
  transcodeFile ffmpeg inputPath outputDir fileName w = (Ok pkg, w') →
  Package.hlsFolder pkg = Path.basename fileName ".mp3" ∧
  Package.hlsDir pkg = Path.join outputDir (Path.basename fileName ".mp3") ∧
  map VariantInfo.name (Package.variants pkg) = map Variant.name BITRATE_LADDER ∧
  Package.segmentCount pkg =
    sum_list_with VariantInfo.segmentCount (Package.variants pkg).
Proof.
  unfold transcodeFile. intros Hrun.
  apply bind_Ok in Hrun as ([] & w0 & _ & Hrun).
  apply bind_Ok in Hrun as (acc & w1 & Henc & Hrun).
  apply bind_Ok in Hrun as ([] & w2 & _ & Hret).
  injection Hret as <- _.
  apply encode_ladder_totals in Henc as [Hnames Hsum]. cbn.
  repeat split; [exact Hnames|by apply Hsum].
Qed.

Lemma transcodeFile_jobs inputPath outputDir fileName :
  preserves same_jobs (transcodeFile ffmpeg inputPath outputDir fileName).
Proof.
  intros w r w'. unfold transcodeFile, same_jobs. rewrite run_bind.
  destruct (for_of _ _ w) as [[[]|e] w0] eqn:Hmk;
    apply make_rung_dirs_frame in Hmk as (Hj0 & _ & _); try done.
  2:{ intros [= _ <-]. done. }
  rewrite run_bind.
  destruct (encode_ladder _ _ _ _ _ w0) as [[acc|e] w1] eqn:Henc;
    apply encode_ladder_frame in Henc as (Hj1 & _).
  2:{ intros [= _ <-]. congruence. }
  rewrite run_bind.
  destruct (Fs.writeFileSync _ _ _ w1) as [[[]|e] w2] eqn:Hwr;
    apply writeFileSync_run in Hwr; subst w2; intros [= _ <-]; cbn; congruence.
Qed.

End Package.

Lemma rung_outputs_miss_manifest (hlsDir q : Path.t) :
  q = (hlsDir ++ ["master.m3u8"])%list →
  ∀ v n, v ∈ BITRATE_LADDER →
         q ≠ (Path.join hlsDir (Variant.name v) ++ [n])%list.
Proof.
  intros -> v n Hv. rewrite (join_plain _ _ (ladder_names_plain v Hv)).
  apply manifest_not_in_rung.
Qed.

(** ** The job loop *)

Lemma in_progress_same_jobs jobId w w' :
  same_jobs w w' → in_progress jobId w → in_progress jobId w'.
Proof. unfold same_jobs, in_progress. by intros ->. Qed.

Lemma updateFileStatus_in_progress jobId fileName updates w :
  in_progress jobId w →
  in_progress jobId (updateFileStatus jobId fileName updates w).
Proof.
  intros (job & Hjob & Hs & Hz & He & _). unfold in_progress.
  rewrite updateFileStatus_lookup, decide_True, Hjob by done.
  eexists. split; [reflexivity|].
  split; [exact Hs|]. split; [exact Hz|]. split; [exact He|].
  apply counts_ok_intro; reflexivity.
Qed.

Lemma initJob_in_progress jobId files w :
  ∃ job0 w1, initJob jobId files w = (Ok job0, w1) ∧ in_progress jobId w1.
Proof.
  destruct (initJob_counts_ok jobId files w) as (job0 & Hinit & Hok).
  exists job0, (with_jobs (insert jobId job0) w). split; [exact Hinit|].
  exists job0. cbn [jobs with_jobs]. rewrite lookup_insert_eq.
  injection Hinit as <-. done.
Qed.

Section JobLoop.

Variable ffmpeg : World → FFmpegArgs.t → FFmpegRun.t.
Variable archiver : World → Path.t → list Path.t → ArchiverRun.

Lemma transcode_one_in_progress jobId jobDir file w :
  in_progress jobId w →
  ∃ w', transcode_one ffmpeg jobId jobDir file w = (Ok tt, w') ∧
        in_progress jobId w'.
Proof.
  intros Hin. unfold transcode_one. rewrite run_bind. cbn [modify].
  unfold try_catch. rewrite run_bind.
  set (w1 := updateFileStatus _ _ _ w).
  assert (H1 : in_progress jobId w1) by by apply updateFileStatus_in_progress.
  destruct (transcodeFile _ _ _ _ w1) as [[pkg|e] w2] eqn:Hrun;
    apply transcodeFile_jobs in Hrun;
    (eexists; split; [reflexivity|]);
    apply updateFileStatus_in_progress;
    by eapply in_progress_same_jobs.
Qed.

Lemma job_loop_in_progress jobId jobDir files w :
  in_progress jobId w →
  ∃ w', for_of files (transcode_one ffmpeg jobId jobDir) w = (Ok tt, w') ∧
        in_progress jobId w'.
Proof.
  revert w. induction files as [|file files IH]; intros w Hin.
  - by exists w.
  - cbn [for_of]. rewrite run_bind.
    destruct (transcode_one_in_progress jobId jobDir file w Hin)
      as (w1 & -> & H1).
    by apply IH.
Qed.

Lemma createZipArchive_jobs jobId outputDir :
  preserves same_jobs (createZipArchive archiver jobId outputDir).
Proof.
  intros w r w'. unfold createZipArchive, same_jobs. rewrite run_bind.
  unfold Fs.readdirSync.
  destruct (disk w !! outputDir) as [[|]|]; try (intros [= _ <-]; done).
  rewrite run_bind. cbn [get].
  destruct (archiver _ _ _); rewrite run_bind; cbn [modify];
    intros [= _ <-]; done.
Qed.

End JobLoop.




(** ** The archive *)

Lemma elem_of_children (dir : Path.t) (d : gmap (list string) Node) (n : string) :
  n ∈ Fs.children dir d ↔ is_Some (d !! (dir ++ [n])%list).
Proof.
  unfold Fs.children. rewrite list_elem_of_omap. split.
  - intros ([q x] & Hin & Hmatch). apply elem_of_map_to_list in Hin.
    simpl in Hmatch.
    destruct (Fs.strip_prefix dir q) as [[|m [|]]|] eqn:Hs; try discriminate.
    injection Hmatch as ->. apply strip_prefix_Some in Hs. subst q. eauto.
  - intros [x Hx]. exists ((dir ++ [n])%list, x). split.
    + by apply elem_of_map_to_list.
    + simpl. by rewrite strip_prefix_app.
Qed.

Lemma elem_of_descendants (dir : Path.t) (d : gmap (list string) Node)
    (rel : list string) :
  rel ∈ Fs.descendants dir d ↔ rel ≠ [] ∧ is_Some (d !! (dir ++ rel)%list).
Proof.
  unfold Fs.descendants. rewrite list_elem_of_omap. split.
  - intros ([q x] & Hin & Hmatch). apply elem_of_map_to_list in Hin.
    simpl in Hmatch.
    destruct (Fs.strip_prefix dir q) as [[|m r]|] eqn:Hs; try discriminate.
    injection Hmatch as <-. apply strip_prefix_Some in Hs. subst q.
    split; [done|eauto].
  - intros [Hne [x Hx]]. exists ((dir ++ rel)%list, x). split.
    + by apply elem_of_map_to_list.
    + simpl. rewrite strip_prefix_app. by destruct rel.
Qed.

Lemma isDirectory_true (p : Path.t) (d : gmap (list string) Node) :
  Fs.isDirectory p d = true ↔ d !! p = Some Dir.
Proof.
  unfold Fs.isDirectory. destruct (d !! p) as [[|]|]; split; congruence.
Qed.

(** What the loop of [createZipArchive] collects from a directory whose
    entries have ordinary names. *)
Lemma elem_of_archive_members (outputDir : Path.t)
    (d : gmap (list string) Node) (entry : list string) :
  (∀ name, is_Some (d !! (outputDir ++ [name])%list) → plain name) →
  entry ∈ archive_members outputDir (Fs.children outputDir d) d ↔
  ∃ item rest,
    entry = item :: rest ∧ rest ≠ [] ∧
    item ≠ "uploads" ∧
    d !! (outputDir ++ [item])%list = Some Dir ∧
    is_Some (d !! (outputDir ++ item :: rest)%list).
Proof.
  intros Hplain. unfold archive_members. rewrite list_elem_of_bind. split.
  - intros (item & Hentry & Hitem).
    apply list_elem_of_In, filter_In in Hitem as [Hin Hkeep].
    apply list_elem_of_In, elem_of_children in Hin.
    apply andb_true_iff in Hkeep as [Hdir Hup].
    rewrite (join_plain _ _ (Hplain _ Hin)) in Hentry, Hdir.
    apply isDirectory_true in Hdir.
    apply list_elem_of_fmap in Hentry as (rest & -> & Hrest).
    apply elem_of_descendants in Hrest as [Hne Hsome].
    rewrite <- app_assoc in Hsome.
    exists item, rest. repeat split; try done.
    intros ->. discriminate.
  - intros (item & rest & -> & Hne & Hup & Hdir & Hsome).
    assert (Hin : is_Some (d !! (outputDir ++ [item])%list)) by eauto.
    exists item. rewrite (join_plain _ _ (Hplain _ Hin)). split.
    + apply list_elem_of_fmap. exists rest. split; [done|].
      apply elem_of_descendants. split; [done|]. by rewrite <- app_assoc.
    + apply list_elem_of_In, filter_In. split.
      * apply (proj1 (list_elem_of_In _ _)), elem_of_children, Hin.
      * cbv beta. rewrite (join_plain _ _ (Hplain _ Hin)).
        apply andb_true_iff. split; [by apply isDirectory_true|].
        apply negb_true_iff. by apply String.eqb_neq.
Qed.

(** A [createZipArchive] that resolves: it listed [outputDir], handed the
    archiver what the loop collected from that listing, and what is then at
    the path it returns is what the output stream left there. *)
Lemma createZipArchive_Ok archiver jobId outputDir w zipPath w' :
  createZipArchive archiver jobId outputDir w = (Ok zipPath, w') →
  let members :=
    archive_members outputDir (Fs.children outputDir (disk w)) (disk w) in
  zipPath = Path.join outputDir "hls-output.zip" ∧
  trace w' = (trace w ++ [EvArchive zipPath members])%list ∧
  match archiver w zipPath members with
  | ArchiveClosed bytes _ =>
      disk w' = write_stream zipPath (File bytes (Zip members)) (disk w)
  | ArchiveErrored _ _ => False
  | OutputFailed (Some size) _ =>
      disk w' = write_stream zipPath (File size Opaque) (disk w)
  | OutputFailed None _ => disk w' = disk w
  end.
Proof.
  intros Hrun members. unfold createZipArchive in Hrun.
  apply bind_Ok in Hrun as (items & w0 & Hread & Hrun).
  assert (Hitems : w0 = w ∧ items = Fs.children outputDir (disk w)).
  { unfold Fs.readdirSync in Hread.
    destruct (disk w !! outputDir) as [[|]|]; by inversion Hread. }
  destruct Hitems as [-> ->].
  rewrite run_bind in Hrun. cbn [get] in Hrun. fold members in Hrun.
  destruct (archiver w _ members) as [bytes el|msg el|[size|] el] eqn:Harch;
    rewrite run_bind in Hrun; cbn [modify] in Hrun; try discriminate;
    injection Hrun as <- <-; (split; [reflexivity|]);
    (split; [reflexivity|]); rewrite Harch; reflexivity.
Qed.

Lemma write_stream_lookup (p : Path.t) (node : Node)
    (d : gmap (list string) Node) :
  write_stream p node d !! p =
  match d !! p with Some Dir => Some Dir | _ => Some node end.
Proof.
  unfold write_stream. destruct (d !! p) as [[|size content]|] eqn:Hp;
    [exact Hp|apply lookup_insert_eq..].
Qed.

Lemma write_stream_blocked (p : Path.t) (node : Node)
    (d : gmap (list string) Node) :
  d !! p = Some Dir → write_stream p node d = d.
Proof. unfold write_stream. by intros ->. Qed.

(** C6 as the code has it: when [createZipArchive] resolves, what it handed
    to the archiver is, under its own name and with everything below it at
    the same relative path, every directory that lies directly inside the
    job directory when archiving starts, except [uploads], and nothing
    else; whether the build that made a directory completed or failed
    plays no part.  When the output closes with the archive written, the
    archive of these members is at the path returned, unless a directory is
    in the way there: then the call resolves all the same and the disk is
    as it was. *)
Theorem createZipArchive_members archiver jobId outputDir w zipPath w' :
  createZipArchive archiver jobId outputDir w = (Ok zipPath, w') →
  (∀ name, is_Some (disk w !! (outputDir ++ [name])%list) → plain name) →
  ∃ members,
    zipPath = Path.join outputDir "hls-output.zip" ∧
    trace w' = (trace w ++ [EvArchive zipPath members])%list ∧
    (∀ entry,
       entry ∈ members ↔
       ∃ item rest,
         entry = item :: rest ∧ rest ≠ [] ∧
         item ≠ "uploads" ∧
         disk w !! (outputDir ++ [item])%list = Some Dir ∧
         is_Some (disk w !! (outputDir ++ item :: rest)%list)) ∧
    (∀ bytes elapsed,
       archiver w zipPath members = ArchiveClosed bytes elapsed →
       disk w' !! zipPath =
         match disk w !! zipPath with
         | Some Dir => Some Dir
         | _ => Some (File bytes (Zip members))
         end) ∧
    (disk w !! zipPath = Some Dir → disk w' = disk w).
Proof.
  intros Hrun Hplain.
  destruct (createZipArchive_Ok _ _ _ _ _ _ Hrun) as (Hzip & Htrace & Hdisk).
  exists (archive_members outputDir (Fs.children outputDir (disk w)) (disk w)).
  split; [exact Hzip|]. split; [exact Htrace|].
  split; [intros entry; by apply elem_of_archive_members|].
  destruct (archiver w zipPath _) as [bytes el|msg el|[size|] el];
    [|done|..]; (split; [intros bytes' el' [=]|intros Hdir]); subst;
    rewrite ?Hdisk; try done.
  - apply write_stream_lookup.
  - by apply write_stream_blocked.
  - by apply write_stream_blocked.
Qed.

Lemma createZipArchive_members_witness :
  let run :=
    createZipArchive Sample.archiver "job-1" Sample.jobDir Sample.packaged in
  ∃ zipPath bytes members,
    run.1 = Ok zipPath ∧
    disk run.2 !! zipPath = Some (File bytes (Zip members)) ∧
    ["a"; "master.m3u8"] ∈ members.
Proof.
  intros run.
  assert (Hr : run.1 = Ok (Sample.jobDir ++ ["hls-output.zip"])%list)
    by (vm_compute; reflexivity).
  assert (Hrun : run = (Ok (Sample.jobDir ++ ["hls-output.zip"])%list, run.2))
    by (rewrite <- Hr; apply surjective_pairing).
  assert (Hplain : ∀ name,
    is_Some (disk Sample.packaged !! (Sample.jobDir ++ [name])%list) →
    plain name).
  { intros name Hsome. repeat split; intros ->; vm_compute in Hsome;
      by destruct Hsome. }
  assert (Hfree : disk Sample.packaged
                    !! (Sample.jobDir ++ ["hls-output.zip"])%list = None)
    by (vm_compute; reflexivity).
  destruct (createZipArchive_members Sample.archiver "job-1" Sample.jobDir
              Sample.packaged _ _ Hrun Hplain)
    as (members & _ & _ & Hmem & Hzip & _).
  specialize (Hzip 4096%N 30 eq_refl). rewrite Hfree in Hzip.
  exists (Sample.jobDir ++ ["hls-output.zip"])%list, 4096%N, members.
  split; [exact Hr|]. split; [exact Hzip|].
  apply Hmem. exists "a", ["master.m3u8"].
  split; [reflexivity|]. split; [discriminate|]. split; [discriminate|].
  split; [vm_compute; reflexivity|]. vm_compute. eauto.
Defined.

(** C6 fails as stated: [b.mp3] failed on its first rung, its entry is
    failed, and the rung directories made for it before the encode are
    members of the archive the job delivers. *)
Lemma archive_holds_failed_package :
  let run :=
    transcode Sample.ffmpeg Sample.archiver "job-1"
      [Sample.a_mp3; Sample.b_mp3] Sample.boot in
  ∃ job bytes members,
    run.1 = Ok job ∧
    (FileEntry.name <$> Job.files job) !! 1%nat = Some "b.mp3" ∧
    (FileEntry.status <$> Job.files job) !! 1%nat = Some Failed ∧
    (FileEntry.hlsFolder <$> Job.files job) !! 1%nat = Some None ∧
    Job.zipPath job = Some (Sample.jobDir ++ ["hls-output.zip"])%list ∧
    disk run.2 !! (Sample.jobDir ++ ["hls-output.zip"])%list =
      Some (File bytes (Zip members)) ∧
    ["b"; "low"] ∈ members.
Proof.
  eexists _, _, _. split; [vm_compute; reflexivity|].
  split; [reflexivity|]. split; [reflexivity|]. split; [reflexivity|].
  split; [reflexivity|]. split; [vm_compute; reflexivity|].
  apply (bool_decide_unpack _). vm_compute. exact I.
Qed.

(** The archive path is not always free: the package of an upload named
    [hls-output.zip.mp3] is built into the folder [hls-output.zip] of the
    job directory, the archive stream cannot be opened on it, the call
    resolves all the same, and the job ends completed with an archive path
    at which its package folder lies. *)
Lemma archive_path_taken_by_package :
  let run :=
    transcode Sample.ffmpeg Sample.archiver "job-1" [Sample.zip_mp3]
      Sample.boot_zip in
  ∃ job,
    run.1 = Ok job ∧
    Job.status job = JobCompleted ∧
    Job.zipPath job = Some (Sample.jobDir ++ ["hls-output.zip"])%list ∧
    disk run.2 !! (Sample.jobDir ++ ["hls-output.zip"])%list = Some Dir ∧
    trace run.2 !! 4%nat =
      Some (EvWriteFile (Sample.jobDir ++ ["hls-output.zip"; "master.m3u8"])%list).
Proof.
  intros run. eexists. split; [vm_compute; reflexivity|].
  split; [reflexivity|]. split; [reflexivity|].
  split; vm_compute; reflexivity.
Qed.

(** ** A completed package on disk and in the archive *)

Lemma mkdir_from_keeps_short base rest whole w r w' (q : Path.t) :
  Fs.mkdir_from base rest whole w = (r, w') →
  (length q ≤ length base)%nat →
  disk w' !! q = disk w !! q.
Proof.
  revert base w. induction rest as [|s rest IH]; intros base w; simpl.
  - by intros [= _ <-].
  - destruct (disk w !! (base ++ [s])%list) as [[|size c]|] eqn:Hp;
      try (by intros [= _ <-]);
      intros Hrun Hq;
      (rewrite (IH _ _ Hrun) by (rewrite length_app; simpl; lia));
      cbn [disk with_disk]; apply lookup_insert_ne;
      intros <-; rewrite length_app in Hq; simpl in Hq; lia.
Qed.

Lemma mkdir_from_makes base pre s post whole w w' :
  Fs.mkdir_from base (pre ++ s :: post)%list whole w = (Ok tt, w') →
  disk w' !! (base ++ pre ++ [s])%list = Some Dir.
Proof.
  revert base w. induction pre as [|a pre IH]; intros base w; simpl.
  - destruct (disk w !! (base ++ [s])%list) as [[|size c]|] eqn:Hp;
      try discriminate; intros Hrun;
      rewrite (mkdir_from_keeps_short _ _ _ _ _ _ _ Hrun) by done;
      cbn [disk with_disk]; apply lookup_insert_eq.
  - destruct (disk w !! (base ++ [a])%list) as [[|size c]|] eqn:Hp;
      try discriminate; intros Hrun; apply IH in Hrun;
      by rewrite <- app_assoc in Hrun.
Qed.

Lemma rung_dirs_make_folder (dir : Path.t) (s : string) ladder w w' :
  ladder ≠ [] →
  (∀ v, v ∈ ladder → v ∈ BITRATE_LADDER) →
  for_of ladder (λ variant,
    Fs.mkdirSync_recursive
      (Path.join (dir ++ [s])%list (Variant.name variant))) w = (Ok tt, w') →
  disk w' !! (dir ++ [s])%list = Some Dir.
Proof.
  revert w. induction ladder as [|v ladder IH]; intros w Hne Hsub; [done|].
  cbn [for_of]. intros Hrun.
  apply bind_Ok in Hrun as ([] & w1 & Hmk & Hrest).
  destruct ladder as [|v' ladder].
  - injection Hrest as <-.
    rewrite (join_plain _ _ (ladder_names_plain v (Hsub v ltac:(by left)))) in Hmk.
    unfold Fs.mkdirSync_recursive in Hmk. rewrite <- app_assoc in Hmk.
    by apply (mkdir_from_makes [] dir s [Variant.name v]) in Hmk.
  - apply (IH w1); [done| |exact Hrest].
    intros u Hu. apply Hsub. by right.
Qed.

Lemma writeFileSync_succeeds (dir : Path.t) (name : string) size data w :
  disk w !! (dir ++ [name])%list ≠ Some Dir →
  dir = [] ∨ disk w !! dir = Some Dir →
  Fs.writeFileSync (dir ++ [name])%list size data w =
    (Ok tt, emit (EvWriteFile (dir ++ [name])%list)
              (with_disk (insert (dir ++ [name])%list (File size data)) w)).
Proof.
  intros Hfree Hparent. unfold Fs.writeFileSync.
  rewrite removelast_last.
  destruct (disk w !! (dir ++ [name])%list) as [[|s c]|]; [done| |];
    (destruct Hparent as [->|Hdir]; [done|]); rewrite Hdir; by destruct dir.
Qed.

Lemma rung_dirs_make_package_folder (hlsDir : Path.t) w w' :
  hlsDir ≠ [] →
  for_of BITRATE_LADDER (λ variant,
    Fs.mkdirSync_recursive (Path.join hlsDir (Variant.name variant))) w
    = (Ok tt, w') →
  disk w' !! hlsDir = Some Dir.
Proof.
  intros Hne Hmk.
  destruct (exists_last Hne) as (dir & s & ->).
  apply (rung_dirs_make_folder dir s BITRATE_LADDER w w'); [done|done|exact Hmk].
Qed.

Lemma package_folder_not_rung_entry (hlsDir : Path.t) v n :
  v ∈ BITRATE_LADDER →
  hlsDir ≠ (Path.join hlsDir (Variant.name v) ++ [n])%list.
Proof.
  intros Hv. rewrite (join_plain _ _ (ladder_names_plain v Hv)).
  intros Heq. apply (f_equal length) in Heq. rewrite !length_app in Heq.
  simpl in Heq. lia.
Qed.

(** C3 as the code has it: a build of one file's package either succeeds,
    and then ffmpeg was started exactly once per rung, in ladder order, and
    the master playlist was written after the last of these encodes; or it
    throws, and then only the encodes of an initial stretch of the ladder
    were started and the build wrote no playlist: the playlist path holds
    what it held before the build, which is nothing in a package folder no
    earlier build has used.  Whenever the rungs before some rung succeed
    and that rung fails, the build throws that rung's error and stops in
    the world that rung left.  And a build does succeed: once the rung
    directories are made and every rung has encoded, it returns the package
    and leaves the playlist written, unless a directory lies at the
    playlist path. *)
Theorem transcodeFile_all_or_nothing ffmpeg inputPath outputDir fileName w r w' :
  transcodeFile ffmpeg inputPath outputDir fileName w = (r, w') →
  let hlsDir := Path.join outputDir (Path.basename fileName ".mp3") in
  let manifest := Path.join hlsDir "master.m3u8" in
  match r with
  | Ok pkg =>
      trace w' =
        (trace w ++ (EvSpawn <$> ladder_args inputPath hlsDir BITRATE_LADDER)
                 ++ [EvWriteFile manifest])%list ∧
      disk w' !! manifest = Some (File master_playlist_size MasterPlaylist)
  | Throw e =>
      (∃ n, (n ≤ length BITRATE_LADDER)%nat ∧
            trace w' =
              (trace w ++ (EvSpawn <$> ladder_args inputPath hlsDir
                                         (take n BITRATE_LADDER)))%list) ∧
      disk w' !! manifest = disk w !! manifest
  end ∧
  (∀ pre v post w0 acc1 w1 e w2,
    BITRATE_LADDER = (pre ++ v :: post)%list →
    for_of BITRATE_LADDER (λ variant,
      Fs.mkdirSync_recursive (Path.join hlsDir (Variant.name variant))) w
      = (Ok tt, w0) →
    encode_ladder ffmpeg inputPath hlsDir pre ([], 0%nat) w0 = (Ok acc1, w1) →
    transcodeVariant ffmpeg inputPath (Path.join hlsDir (Variant.name v))
      (Variant.bitrate v) w1 = (Throw e, w2) →
    r = Throw e ∧ w' = w2) ∧
  (∀ w0 acc w1,
    for_of BITRATE_LADDER (λ variant,
      Fs.mkdirSync_recursive (Path.join hlsDir (Variant.name variant))) w
      = (Ok tt, w0) →
    encode_ladder ffmpeg inputPath hlsDir BITRATE_LADDER ([], 0%nat) w0
      = (Ok acc, w1) →
    disk w !! manifest ≠ Some Dir →
    r = Ok (Package.mk true (Path.basename fileName ".mp3") acc.2 hlsDir
              acc.1 true) ∧
    w' = emit (EvWriteFile manifest)
           (with_disk (insert manifest
                         (File master_playlist_size MasterPlaylist)) w1)).
Proof.
  intros Hrun hlsDir manifest. subst manifest. rewrite join_manifest.
  unfold transcodeFile in Hrun. fold hlsDir in Hrun.
  rewrite run_bind in Hrun.
  destruct (for_of _ _ w) as [[[]|e0] w0] eqn:Hmk.
  2:{ injection Hrun as <- <-.
      apply make_rung_dirs_frame in Hmk as (_ & Ht & Hd); [|done].
      split; [|split; intros; discriminate]. split; [|exact Hd].
      exists 0%nat. split; [lia|]. by rewrite Ht, app_nil_r. }
  pose proof Hmk as Hmk'.
  apply make_rung_dirs_frame in Hmk' as (_ & Ht0 & Hd0); [|done].
  rewrite run_bind in Hrun.
  destruct (encode_ladder _ _ _ _ _ w0) as [[acc|e1] w1] eqn:Henc.
  2:{ injection Hrun as <- <-.
      pose proof Henc as Hfr. apply encode_ladder_frame in Hfr as (_ & Hd1).
      pose proof Henc as Htr. apply encode_ladder_trace in Htr as (n & Hn & Htr & _).
      split; [|split].
      - split; [exists n; split; [done|]; by rewrite Htr, Ht0|].
        rewrite Hd1; [exact Hd0|]. by apply rung_outputs_miss_manifest.
      - intros pre v post w0' acc1 w1' e w2 Hsplit [= <-] Hpre Hv.
        rewrite Hsplit in Henc.
        rewrite (encode_ladder_first_failure _ _ _ pre v post _ _ _ _ _ _ Hpre Hv)
          in Henc.
        by injection Henc as <- <-.
      - intros w0' acc w1' [= <-] Hall. congruence. }
  pose proof Henc as Hfr. apply encode_ladder_frame in Hfr as (_ & Hd1).
  pose proof Henc as Htr. apply encode_ladder_trace in Htr as (n & _ & Htr & Hall).
  rewrite (Hall acc eq_refl), firstn_all in Htr.
  assert (Hnofail : ∀ pre v post w0' acc1 w1' e w2,
    BITRATE_LADDER = (pre ++ v :: post)%list →
    (Ok (), w0) = (Ok (), w0') →
    encode_ladder ffmpeg inputPath hlsDir pre ([], 0%nat) w0' = (Ok acc1, w1') →
    transcodeVariant ffmpeg inputPath (Path.join hlsDir (Variant.name v))
      (Variant.bitrate v) w1' = (Throw e, w2) →
    r = Throw e ∧ w' = w2).
  { intros pre v post w0' acc1 w1' e w2 Hsplit [= <-] Hpre Hv.
    rewrite Hsplit in Henc.
    rewrite (encode_ladder_first_failure _ _ _ pre v post _ _ _ _ _ _ Hpre Hv)
      in Henc. discriminate. }
  assert (Hmanifest : disk w1 !! (hlsDir ++ ["master.m3u8"])%list =
                      disk w !! (hlsDir ++ ["master.m3u8"])%list).
  { rewrite Hd1; [exact Hd0|]. by apply rung_outputs_miss_manifest. }
  assert (Hwrite : disk w !! (hlsDir ++ ["master.m3u8"])%list ≠ Some Dir →
    Fs.writeFileSync (hlsDir ++ ["master.m3u8"])%list master_playlist_size
      MasterPlaylist w1 =
    (Ok tt, emit (EvWriteFile (hlsDir ++ ["master.m3u8"])%list)
              (with_disk (insert (hlsDir ++ ["master.m3u8"])%list
                            (File master_playlist_size MasterPlaylist)) w1))).
  { intros Hfree. apply writeFileSync_succeeds; [by rewrite Hmanifest|].
    destruct (decide (hlsDir = [])) as [Hnil|Hne]; [by left|right].
    rewrite Hd1 by (intros v m Hv; by apply package_folder_not_rung_entry).
    by apply (rung_dirs_make_package_folder hlsDir w w0). }
  rewrite run_bind, join_manifest in Hrun.
  destruct (Fs.writeFileSync _ _ _ w1) as [[[]|e2] w2] eqn:Hwr.
  - pose proof Hwr as Hw2. apply writeFileSync_run in Hw2. subst w2.
    injection Hrun as <- <-.
    split; [|split; [exact Hnofail|]].
    + cbn [trace disk emit with_disk]. split.
      * rewrite Htr, Ht0, <- app_assoc. done.
      * apply lookup_insert_eq.
    + intros w0' acc' w1' [= <-] Hacc _.
      rewrite Henc in Hacc. by injection Hacc as <- <-.
  - pose proof Hwr as Hw2. apply writeFileSync_run in Hw2. subst w2.
    injection Hrun as <- <-.
    split; [|split; [exact Hnofail|]].
    + split.
      * exists (length BITRATE_LADDER). split; [done|].
        by rewrite Htr, Ht0, firstn_all.
      * exact Hmanifest.
    + intros w0' acc' w1' [= <-] Hacc Hfree.
      specialize (Hwrite Hfree). discriminate Hwrite.
Qed.

Lemma transcodeFile_all_or_nothing_witness :
  let failing :=
    transcodeFile Sample.ffmpeg (Upload.path Sample.b_mp3) Sample.jobDir
      "b.mp3" Sample.boot in
  let passing :=
    transcodeFile Sample.ffmpeg (Upload.path Sample.a_mp3) Sample.jobDir
      "a.mp3" Sample.boot in
  failing.1 = Throw (FFmpegExited 1 "Invalid data found when processing input") ∧
  disk failing.2 !! (Sample.jobDir ++ ["b"; "master.m3u8"])%list = None ∧
  ∃ pkg, passing.1 = Ok pkg ∧ Package.hlsFolder pkg = "a" ∧
         Package.segmentCount pkg = 8%nat.
Proof.
  intros failing passing.
  assert (Hr : failing.1 =
    Throw (FFmpegExited 1 "Invalid data found when processing input"))
    by (vm_compute; reflexivity).
  split; [exact Hr|]. split.
  - pose proof (transcodeFile_all_or_nothing Sample.ffmpeg
                  (Upload.path Sample.b_mp3) Sample.jobDir "b.mp3" Sample.boot
                  failing.1 failing.2 (surjective_pairing failing))
      as [Hcase _].
    rewrite Hr in Hcase. destruct Hcase as [_ Hsame].
    etransitivity; [exact Hsame|]. vm_compute. reflexivity.
  - pose proof (transcodeFile_all_or_nothing Sample.ffmpeg
                  (Upload.path Sample.a_mp3) Sample.jobDir "a.mp3" Sample.boot
                  passing.1 passing.2 (surjective_pairing passing))
      as (_ & _ & Hok).
    set (dirs := for_of BITRATE_LADDER (λ variant,
           Fs.mkdirSync_recursive
             (Path.join (Path.join Sample.jobDir (Path.basename "a.mp3" ".mp3"))
                (Variant.name variant))) Sample.boot) in *.
    assert (Hdirs : dirs = (Ok tt, dirs.2)).
    { assert (H1 : dirs.1 = Ok tt) by (vm_compute; reflexivity).
      rewrite <- H1. apply surjective_pairing. }
    set (enc := encode_ladder Sample.ffmpeg (Upload.path Sample.a_mp3)
           (Path.join Sample.jobDir (Path.basename "a.mp3" ".mp3"))
           BITRATE_LADDER ([], 0%nat) dirs.2).
    destruct enc.1 as [acc|e] eqn:Henc; [|vm_compute in Henc; discriminate].
    assert (Hcount : acc.2 = 8%nat).
    { vm_compute in Henc. by injection Henc as <-. }
    destruct (Hok dirs.2 acc enc.2 Hdirs) as [Hpkg _].
    { rewrite <- Henc. apply surjective_pairing. }
    { vm_compute. discriminate. }
    eexists. split; [exact Hpkg|]. split; [reflexivity|exact Hcount].
Defined.

(** C3 fails as stated where two names share a package folder: the build
    of [.mp3] succeeds into the job directory itself, the build of [..mp3]
    goes into the same folder and fails on its first rung, and the master
    playlist of the first build is where the playlist of the second would
    be. *)
Lemma transcodeFile_failure_leaves_manifest :
  let first :=
    transcodeFile Sample.ffmpeg_dots (Upload.path Sample.dot_mp3)
      Sample.jobDir ".mp3" Sample.boot_dots in
  let second :=
    transcodeFile Sample.ffmpeg_dots (Upload.path Sample.dotdot_mp3)
      Sample.jobDir "..mp3" first.2 in
  (∃ pkg, first.1 = Ok pkg) ∧
  Path.join (Path.join Sample.jobDir (Path.basename "..mp3" ".mp3"))
    "master.m3u8" = (Sample.jobDir ++ ["master.m3u8"])%list ∧
  second.1 = Throw (FFmpegExited 1 "Invalid data found when processing input") ∧
  disk second.2 !! (Sample.jobDir ++ ["master.m3u8"])%list =
    Some (File master_playlist_size MasterPlaylist).
Proof.
  intros first second.
  split; [eexists; vm_compute; reflexivity|].
  split; [reflexivity|]. split; vm_compute; reflexivity.
Qed.

(** A build that succeeded left its package folder as a directory holding
    the master playlist. *)
Lemma transcodeFile_package_on_disk ffmpeg inputPath outputDir fileName
    (dir : Path.t) (s : string) w pkg w' :
  transcodeFile ffmpeg inputPath outputDir fileName w = (Ok pkg, w') →
  Path.join outputDir (Path.basename fileName ".mp3") = (dir ++ [s])%list →
  disk w' !! (dir ++ [s])%list = Some Dir ∧
  disk w' !! (dir ++ [s; "master.m3u8"])%list =
    Some (File master_playlist_size MasterPlaylist).
Proof.
  unfold transcodeFile. intros Hrun Hdir. rewrite Hdir in Hrun.
  apply bind_Ok in Hrun as ([] & w0 & Hmk & Hrun).
  apply bind_Ok in Hrun as (acc & w1 & Henc & Hrun).
  apply bind_Ok in Hrun as ([] & w2 & Hwr & Hret).
  injection Hret as _ <-.
  apply rung_dirs_make_folder in Hmk; [|done..].
  apply encode_ladder_frame in Henc as [_ Hd1].
  apply writeFileSync_run in Hwr. subst w2. cbn [disk emit with_disk].
  rewrite join_manifest. split.
  - rewrite lookup_insert_ne.
    + rewrite Hd1; [exact Hmk|]. intros v n Hv Heq.
      rewrite (join_plain _ _ (ladder_names_plain v Hv)) in Heq.
      apply (f_equal length) in Heq. rewrite !length_app in Heq.
      simpl in Heq. lia.
    + intros Heq. apply (f_equal length) in Heq.
      rewrite !length_app in Heq. simpl in Heq. lia.
  - rewrite <- app_assoc. apply lookup_insert_eq.
Qed.

(** The folder of a completed package, unless it is named [uploads], goes
    into an archive assembled from the world its build left. *)
Lemma completed_package_archived ffmpeg inputPath outputDir fileName w pkg w' :
  transcodeFile ffmpeg inputPath outputDir fileName w = (Ok pkg, w') →
  plain (Package.hlsFolder pkg) →
  Package.hlsFolder pkg ≠ "uploads" →
  (∀ name, is_Some (disk w' !! (outputDir ++ [name])%list) → plain name) →
  [Package.hlsFolder pkg; "master.m3u8"] ∈
    archive_members outputDir (Fs.children outputDir (disk w')) (disk w').
Proof.
  intros Hrun Hplain Hup Hnames.
  pose proof (transcodeFile_result _ _ _ _ _ _ _ Hrun) as (Hfolder & _).
  rewrite Hfolder in Hplain, Hup |- *.
  destruct (transcodeFile_package_on_disk _ _ _ _ outputDir
              (Path.basename fileName ".mp3") _ _ _ Hrun
              (join_plain _ _ Hplain)) as [Hdir Hmanifest].
  apply elem_of_archive_members; [exact Hnames|].
  exists (Path.basename fileName ".mp3"), ["master.m3u8"].
  split; [done|]. split; [done|]. split; [done|]. split; [exact Hdir|].
  rewrite Hmanifest. eauto.
Qed.

(** ** The synchronous mode *)

Lemma spawns_not_archive (args : list FFmpegArgs.t) :
  Forall (λ e, ¬ is_archive_event e) (EvSpawn <$> args).
Proof. apply Forall_fmap, Forall_forall. intros a _ []. Qed.

Lemma collectHLSFiles_world hlsDir w r w' :
  collectHLSFiles hlsDir w = (r, w') → w' = w.
Proof.
  unfold collectHLSFiles. rewrite run_bind. unfold Fs.readdirSync.
  destruct (disk w !! hlsDir) as [[|]|]; by intros [= _ <-].
Qed.

Section Sync.

Variable ffmpeg : World → FFmpegArgs.t → FFmpegRun.t.

Lemma transcodeFile_events inputPath outputDir fileName :
  preserves (grows_by (λ e, ¬ is_archive_event e))
    (transcodeFile ffmpeg inputPath outputDir fileName).
Proof.
  intros w r w'. unfold transcodeFile. rewrite run_bind.
  destruct (for_of _ _ w) as [[[]|e] w0] eqn:Hmk;
    apply make_rung_dirs_frame in Hmk as (_ & Ht0 & _); try done.
  2:{ intros [= _ <-]. exists []. by rewrite Ht0, app_nil_r. }
  rewrite run_bind.
  destruct (encode_ladder _ _ _ _ _ w0) as [[acc|e] w1] eqn:Henc;
    apply encode_ladder_trace in Henc as (n & _ & Ht1 & _).
  2:{ intros [= _ <-]. eexists. split; [by rewrite Ht1, Ht0|].
      apply spawns_not_archive. }
  rewrite run_bind.
  destruct (Fs.writeFileSync _ _ _ w1) as [[[]|e] w2] eqn:Hwr;
    apply writeFileSync_run in Hwr; subst w2; intros [= _ <-].
  - eexists. cbn [trace emit with_disk]. split.
    + rewrite Ht1, Ht0, <- app_assoc. reflexivity.
    + apply Forall_app. split; [apply spawns_not_archive|].
      repeat constructor. intros [].
  - eexists. split; [by rewrite Ht1, Ht0|]. apply spawns_not_archive.
Qed.

Lemma prepare_frame (jobDir : Path.t) w r w0 :
  (if negb (Fs.existsSync jobDir (disk w))
   then Fs.mkdirSync_recursive jobDir else mret tt) w = (r, w0) →
  jobs w0 = jobs w ∧ trace w0 = trace w.
Proof.
  destruct (negb _).
  - intros Hmk. by apply mkdir_from_frame in Hmk as (? & ? & _).
  - by intros [= _ <-].
Qed.

(** C10: [transcodeSync] leaves the map of jobs as it found it, at its end
    and in every world it passes through while the rungs are encoded, so a
    status query for its id finds at each of these points what it found
    before the call: nothing, for an id the map did not hold.  Once the
    job directory is there, the call returns normally whatever happens: an
    exception of the package build or of the collection of its files
    comes back as the failure record carrying that exception's message.
    No archive is created. *)
Theorem transcodeSync_never_registers jobId file w r w' :
  transcodeSync ffmpeg jobId file w = (r, w') →
  let jobDir := Path.join TEMP_DIR jobId in
  let prepare : M unit :=
    if negb (Fs.existsSync jobDir (disk w))
    then Fs.mkdirSync_recursive jobDir else mret tt in
  let hlsDir :=
    Path.join jobDir (Path.basename (Upload.originalName file) ".mp3") in
  (∀ id, getJobStatus id w' = getJobStatus id w) ∧
  (∀ w0 w1 pre post rk wk id,
     prepare w = (Ok tt, w0) →
     for_of BITRATE_LADDER (λ variant,
       Fs.mkdirSync_recursive (Path.join hlsDir (Variant.name variant))) w0
       = (Ok tt, w1) →
     BITRATE_LADDER = (pre ++ post)%list →
     encode_ladder ffmpeg (Upload.path file) hlsDir pre ([], 0%nat) w1
       = (rk, wk) →
     getJobStatus id wk = getJobStatus id w) ∧
  (∀ w0, prepare w = (Ok tt, w0) → ∃ res, r = Ok res) ∧
  (∀ w0 e w1,
     prepare w = (Ok tt, w0) →
     transcodeFile ffmpeg (Upload.path file) jobDir (Upload.originalName file) w0
       = (Throw e, w1) →
     r = Ok (SyncResult.Failure (message e)) ∧ w' = w1) ∧
  (∀ w0 pkg w1 e w2,
     prepare w = (Ok tt, w0) →
     transcodeFile ffmpeg (Upload.path file) jobDir (Upload.originalName file) w0
       = (Ok pkg, w1) →
     collectHLSFiles (Package.hlsDir pkg) w1 = (Throw e, w2) →
     r = Ok (SyncResult.Failure (message e)) ∧ w' = w2) ∧
  grows_by (λ e, ¬ is_archive_event e) w w'.
Proof.
  intros Hrun jobDir prepare hlsDir. unfold transcodeSync in Hrun.
  rewrite run_bind in Hrun. cbn [get] in Hrun. fold jobDir in Hrun.
  rewrite run_bind in Hrun. fold jobDir prepare in Hrun.
  destruct (prepare w) as [[[]|e0] w0] eqn:Hprep.
  2:{ injection Hrun as <- <-.
      apply prepare_frame in Hprep as [Hj Ht]. unfold getJobStatus.
      split; [by rewrite Hj|]. repeat split; try (intros; discriminate).
      exists []. by rewrite Ht, app_nil_r. }
  pose proof (prepare_frame _ _ _ _ Hprep) as [Hj0 Ht0].
  assert (Hduring : ∀ w0' w1 pre post rk wk id,
     (Ok (), w0) = (Ok (), w0') →
     for_of BITRATE_LADDER (λ variant,
       Fs.mkdirSync_recursive (Path.join hlsDir (Variant.name variant))) w0'
       = (Ok tt, w1) →
     BITRATE_LADDER = (pre ++ post)%list →
     encode_ladder ffmpeg (Upload.path file) hlsDir pre ([], 0%nat) w1
       = (rk, wk) →
     getJobStatus id wk = getJobStatus id w).
  { intros w0' w1 pre post rk wk id [= <-] Hmk _ Henc.
    apply make_rung_dirs_frame in Hmk as (Hj1 & _ & _); [|done].
    apply encode_ladder_frame in Henc as (Hjk & _).
    unfold getJobStatus. congruence. }
  unfold try_catch in Hrun. rewrite run_bind in Hrun.
  destruct (transcodeFile ffmpeg (Upload.path file) jobDir
              (Upload.originalName file) w0) as [[pkg|e] w1] eqn:Hfile.
  - pose proof (transcodeFile_jobs _ _ _ _ _ _ _ Hfile) as Hj1.
    pose proof (transcodeFile_events _ _ _ _ _ _ Hfile) as (evs & Ht1 & Hev).
    unfold same_jobs in Hj1. rewrite run_bind in Hrun.
    destruct (collectHLSFiles (Package.hlsDir pkg) w1) as [[hlsFiles|e] w2] eqn:Hcol;
      pose proof (collectHLSFiles_world _ _ _ _ Hcol) as ->;
      injection Hrun as <- <-.
    + split; [intros id; unfold getJobStatus; congruence|].
      split; [exact Hduring|]. split; [eauto|].
      split; [intros ??? [= <-]; congruence|].
      split; [intros ????? [= <-] Hf Hc; congruence|].
      exists evs. split; [congruence|done].
    + split; [intros id; unfold getJobStatus; congruence|].
      split; [exact Hduring|]. split; [eauto|].
      split; [intros ??? [= <-]; congruence|].
      split.
      * intros w0' pkg' w1' e' w2' [= <-] Hf Hc.
        rewrite Hfile in Hf. injection Hf as <- <-.
        rewrite Hcol in Hc. by injection Hc as <- <-.
      * exists evs. split; [congruence|done].
  - pose proof (transcodeFile_jobs _ _ _ _ _ _ _ Hfile) as Hj1.
    pose proof (transcodeFile_events _ _ _ _ _ _ Hfile) as (evs & Ht1 & Hev).
    unfold same_jobs in Hj1. injection Hrun as <- <-.
    split; [intros id; unfold getJobStatus; congruence|].
    split; [exact Hduring|]. split; [eauto|].
    split.
    + intros w0' e' w1' [= <-] Hf. rewrite Hfile in Hf. by injection Hf as <- <-.
    + split; [intros ????? [= <-] Hf Hc; congruence|].
      exists evs. split; [congruence|done].
Qed.

End Sync.

Lemma transcodeSync_never_registers_witness :
  let run := transcodeSync Sample.ffmpeg "job-1" Sample.b_mp3 Sample.boot in
  status_route "job-1" run.2 = inr (Json 404 "Job not found" None) ∧
  run.1 = Ok (SyncResult.Failure
                "FFmpeg exited with code 1: Invalid data found when processing input").
Proof.
  intros run.
  destruct (transcodeSync_never_registers Sample.ffmpeg "job-1" Sample.b_mp3
              Sample.boot run.1 run.2 (surjective_pairing run))
    as (Hget & _ & _ & Hfail & _).
  split.
  - unfold status_route. rewrite Hget. reflexivity.
  - pose (build := transcodeFile Sample.ffmpeg (Upload.path Sample.b_mp3)
                     Sample.jobDir "b.mp3" Sample.boot).
    assert (Hb : build.1 =
      Throw (FFmpegExited 1 "Invalid data found when processing input"))
      by (vm_compute; reflexivity).
    refine (proj1 (Hfail Sample.boot
                     (FFmpegExited 1 "Invalid data found when processing input")
                     build.2 _ _)); [reflexivity|].
    rewrite <- Hb. apply surjective_pairing.
Defined.

(** ** Names *)

Lemma substring_whole s : substring 0 (String.length s) s = s.
Proof. induction s as [|c s IH]; simpl; [done|by rewrite IH]. Qed.

Lemma substring_split s k :
  (k ≤ String.length s)%nat →
  substring 0 k s +:+ substring k (String.length s - k) s = s.
Proof.
  revert k. induction s as [|c s IH]; intros k Hk; simpl in *.
  - by replace k with 0%nat by lia.
  - destruct k as [|k]; simpl.
    + by rewrite substring_whole.
    + change (String c (substring 0 k s +:+
                          substring k (String.length s - k) s) = String c s).
      f_equal. apply IH. lia.
Qed.

Lemma endsWith_split s suffix :
  Str.endsWith s suffix = true →
  s = substring 0 (String.length s - String.length suffix) s +:+ suffix.
Proof.
  unfold Str.endsWith. intros H. apply andb_true_iff in H as [Hle Heq].
  apply Nat.leb_le in Hle. apply String.eqb_eq in Heq.
  rewrite <- Heq at 2.
  rewrite <- (substring_split s (String.length s - String.length suffix)) at 1
    by lia.
  do 2 f_equal. lia.
Qed.

Lemma drop_slashes_free l :
  forallb (λ c, negb (Ascii.eqb c Str.slash)) l = true →
  Path.drop_slashes l = l.
Proof.
  destruct l as [|c l]; [done|]. simpl. intros H.
  apply andb_true_iff in H as [Hc _]. by destruct (Ascii.eqb c Str.slash).
Qed.

Lemma until_slash_free l :
  forallb (λ c, negb (Ascii.eqb c Str.slash)) l = true →
  Path.until_slash l = l.
Proof.
  induction l as [|c l IH]; [done|]. simpl. intros H.
  apply andb_true_iff in H as [Hc Hl].
  destruct (Ascii.eqb c Str.slash); [done|]. by rewrite IH.
Qed.

Lemma last_portion_free s : slash_free s → Path.last_portion s = s.
Proof.
  unfold slash_free, Path.last_portion. intros H.
  assert (Hrev : forallb (λ c, negb (Ascii.eqb c Str.slash))
                   (rev (list_ascii_of_string s)) = true).
  { apply forallb_forall. intros c Hc. apply in_rev in Hc.
    by apply (proj1 (forallb_forall _ _) H). }
  rewrite drop_slashes_free, until_slash_free by done.
  by rewrite rev_involutive, string_of_list_ascii_of_string.
Qed.

(** On a name without [/], [basename] either removes a trailing [.mp3] or
    returns the name as it is. *)
Lemma basename_mp3_cases name :
  slash_free name →
  name = Path.basename name ".mp3" +:+ ".mp3" ∨
  Path.basename name ".mp3" = name.
Proof.
  intros Hfree. unfold Path.basename.
  destruct (String.eqb_spec ".mp3" name) as [<-|Hne]; [by left|].
  rewrite (last_portion_free name Hfree).
  destruct (Str.endsWith name ".mp3") eqn:Hends; [|by right].
  destruct (String.eqb_spec name ".mp3") as [->|_]; [done|]. simpl.
  left. exact (endsWith_split name ".mp3" Hends).
Qed.

(** ** Where uploads are stored *)

Lemma mkdir_from_blocked base pre s post whole w r w' size content :
  disk w !! (base ++ pre ++ [s])%list = Some (File size content) →
  Fs.mkdir_from base (pre ++ s :: post)%list whole w = (r, w') →
  ∃ e, r = Throw e.
Proof.
  revert base w. induction pre as [|a pre IH]; intros base w Hfile; simpl.
  - simpl in Hfile. rewrite Hfile. intros [= <- _]. eauto.
  - destruct (disk w !! (base ++ [a])%list) as [[|sz c]|] eqn:Hp.
    + apply IH. cbn [disk with_disk]. rewrite lookup_insert_ne.
      * by rewrite <- app_assoc.
      * intros Heq. apply (f_equal length) in Heq.
        rewrite !length_app in Heq. simpl in Heq. lia.
    + intros [= <- _]. eauto.
    + apply IH. cbn [disk with_disk]. rewrite lookup_insert_ne.
      * by rewrite <- app_assoc.
      * intros Heq. apply (f_equal length) in Heq.
        rewrite !length_app in Heq. simpl in Heq. lia.
Qed.

(** A package folder whose path is taken by a regular file cannot be
    built: the first [mkdirSync] throws. *)
Lemma transcodeFile_blocked ffmpeg inputPath outputDir fileName
    (dir : Path.t) (s : string) w r w' size content :
  Path.join outputDir (Path.basename fileName ".mp3") = (dir ++ [s])%list →
  disk w !! (dir ++ [s])%list = Some (File size content) →
  transcodeFile ffmpeg inputPath outputDir fileName w = (r, w') →
  ∃ e, r = Throw e.
Proof.
  intros Hdir Hfile. unfold transcodeFile. rewrite run_bind, Hdir.
  unfold BITRATE_LADDER at 1. cbn [for_of]. rewrite run_bind.
  destruct (Fs.mkdirSync_recursive _ w) as [[[]|e] w0] eqn:Hmk.
  - exfalso. unfold Fs.mkdirSync_recursive in Hmk.
    change (Path.join (dir ++ [s])%list
              (Variant.name (Variant.mk "low" "32k" 48000)))
      with ((dir ++ [s]) ++ ["low"])%list in Hmk.
    rewrite <- app_assoc in Hmk.
    eapply (mkdir_from_blocked [] dir s ["low"]) in Hmk as [e He];
      [discriminate|exact Hfile].
  - intros [= <- _]. eauto.
Qed.

(** C9: for an upload stored by the server, under its original name in the
    job directory, a package build that succeeds returns as folder name the
    original name without its [.mp3] extension, and as segment count the
    sum of the segment counts of the variants it lists, one per ladder
    rung.  (A name that does not end in [.mp3] never gets that far: its
    package folder would be the upload itself.) *)
Theorem package_folder_and_segments ffmpeg jobId originalname size
    w pkg w' fsize content :
  let file := as_received jobId originalname size in
  entry_name originalname →
  disk w !! Upload.path file = Some (File fsize content) →
  transcodeFile ffmpeg (Upload.path file) (Path.join TEMP_DIR jobId)
    (Upload.originalName file) w = (Ok pkg, w') →
  originalname = Package.hlsFolder pkg +:+ ".mp3" ∧
  Package.segmentCount pkg =
    sum_list_with VariantInfo.segmentCount (Package.variants pkg) ∧
  map VariantInfo.name (Package.variants pkg) = map Variant.name BITRATE_LADDER.
Proof.
  intros file [Hplain Hfree] Hstored Hrun. subst file.
  cbn [as_received Upload.path Upload.originalName] in *.
  unfold stored_at in *. rewrite (join_plain _ _ Hplain) in Hstored.
  pose proof (transcodeFile_result _ _ _ _ _ _ _ Hrun) as (Hfolder & _ & Hnames & Hsum).
  split; [|by split].
  rewrite Hfolder.
  destruct (basename_mp3_cases originalname Hfree) as [Hstrip|Hsame]; [done|].
  exfalso.
  eapply (transcodeFile_blocked ffmpeg _ _ _ (Path.join TEMP_DIR jobId) originalname)
    in Hrun as [e He]; [discriminate| |exact Hstored].
  by rewrite Hsame, (join_plain _ _ Hplain).
Qed.

Lemma package_folder_and_segments_witness :
  let run :=
    transcodeFile Sample.ffmpeg (Upload.path Sample.a_mp3) Sample.jobDir
      "a.mp3" Sample.boot in
  ∃ pkg, run.1 = Ok pkg ∧
         Package.hlsFolder pkg = "a" ∧ Package.segmentCount pkg = 8%nat.
Proof.
  intros run.
  assert (Hr : ∃ pkg, run.1 = Ok pkg ∧ Package.hlsFolder pkg = "a" ∧
                      Package.segmentCount pkg = 8%nat).
  { eexists. split; [vm_compute; reflexivity|]. split; reflexivity. }
  destruct Hr as (pkg & Hr & Hfolder & Hcount).
  assert (Hrun : run = (Ok pkg, run.2))
    by (rewrite <- Hr; apply surjective_pairing).
  destruct (package_folder_and_segments Sample.ffmpeg "job-1" "a.mp3" 5000
              Sample.boot pkg run.2 5000 Opaque) as (Hname & Hsum & _).
  - split; [repeat split; discriminate|reflexivity].
  - vm_compute. reflexivity.
  - exact Hrun.
  - exists pkg. split; [exact Hr|]. split; [|exact Hcount].
    rewrite Hfolder in Hname |- *. reflexivity.
Defined.

(** The upload filter of [index.js] lets [track.MP3] through; its package
    folder would be [track.MP3], which is where the upload lies, so the
    build throws before any encode. *)
Lemma uppercase_extension_never_builds :
  let run :=
    transcodeFile Sample.ffmpeg (Upload.path Sample.track_MP3) Sample.jobDir
      "track.MP3" Sample.boot_track in
  Path.basename "track.MP3" ".mp3" = "track.MP3" ∧
  run.1 = Throw (FsError "ENOTDIR: not a directory" "mkdir"
                   (Sample.jobDir ++ ["track.MP3"; "low"])%list) ∧
  trace run.2 = [].
Proof. repeat split; vm_compute; reflexivity. Qed.

(** ** The pipeline stays within the reachable worlds *)

Lemma preserves_weaken (R R' : World → World → Prop) {A} (m : M A) :
  (∀ w w', R w w' → R' w w') → preserves R m → preserves R' m.
Proof. intros Hsub Hm w r w' Hrun. eapply Hsub, Hm, Hrun. Qed.

Lemma keeps_reachable_refl w : keeps_reachable w w.
Proof. by intros ?. Qed.

Lemma keeps_reachable_trans a b c :
  keeps_reachable a b → keeps_reachable b c → keeps_reachable a c.
Proof. unfold keeps_reachable. auto. Qed.

Lemma same_jobs_keeps_reachable w w' : same_jobs w w' → keeps_reachable w w'.
Proof.
  destruct w' as [j d n t]. unfold same_jobs. cbn [jobs]. intros -> Hw.
  by apply reach_outside.
Qed.

#[local] Hint Resolve keeps_reachable_refl keeps_reachable_trans : frame.

Section Reach.

Variable ffmpeg : World → FFmpegArgs.t → FFmpegRun.t.
Variable archiver : World → Path.t → list Path.t → ArchiverRun.

Lemma initJob_keeps_reachable jobId files :
  preserves keeps_reachable (initJob jobId files).
Proof.
  intros w r w' Hrun Hw.
  replace w' with (initJob jobId files w).2 by by rewrite Hrun.
  by apply reach_initJob.
Qed.

Lemma updateFileStatus_keeps_reachable jobId fileName updates :
  preserves keeps_reachable (modify (updateFileStatus jobId fileName updates)).
Proof.
  apply preserves_modify. intros w Hw. by apply reach_updateFileStatus.
Qed.

Lemma read_job_keeps_reachable jobId job0 :
  preserves keeps_reachable (read_job jobId job0).
Proof. intros w r w' [= _ <-]. apply keeps_reachable_refl. Qed.

Lemma transcode_one_keeps_reachable jobId jobDir file :
  preserves keeps_reachable (transcode_one ffmpeg jobId jobDir file).
Proof.
  unfold transcode_one.
  apply preserves_bind; eauto with frame.
  { apply updateFileStatus_keeps_reachable. }
  intros _. apply preserves_try_catch; eauto with frame.
  - apply preserves_bind; eauto with frame.
    + eapply preserves_weaken; [apply same_jobs_keeps_reachable|].
      apply transcodeFile_jobs.
    + intros pkg. apply updateFileStatus_keeps_reachable.
  - intros e. apply updateFileStatus_keeps_reachable.
Qed.

Lemma settle_keeps_reachable jobId jobDir job0 :
  preserves keeps_reachable (settle archiver jobId jobDir job0).
Proof.
  unfold settle, write_job.
  apply preserves_bind; eauto with frame.
  { apply read_job_keeps_reachable. }
  intros job. apply preserves_bind; eauto with frame.
  - destruct (0 <? _)%nat.
    + apply preserves_bind; eauto with frame.
      { eapply preserves_weaken; [apply same_jobs_keeps_reachable|].
        apply createZipArchive_jobs. }
      intros zipPath. apply preserves_bind; eauto with frame.
      { apply preserves_modify. intros w Hw. by apply reach_set_zipPath. }
      intros _. apply preserves_bind; eauto with frame.
      { apply read_job_keeps_reachable. }
      intros job'. apply preserves_modify. intros w Hw.
      by apply reach_set_status.
    + apply preserves_bind; eauto with frame.
      { apply preserves_modify. intros w Hw. by apply reach_set_status. }
      intros _. apply preserves_modify. intros w Hw. by apply reach_set_error.
  - intros _. apply preserves_bind; eauto with frame.
    { apply preserves_get; eauto with frame. }
    intros w0. apply preserves_modify. intros w Hw.
    by apply reach_set_completedAt.
Qed.

(** Every world [transcode] ends in is one the invariant of the counters
    covers, and so is every world in between: each step it takes is a step
    of [reachable]. *)
Lemma transcode_keeps_reachable jobId files :
  preserves keeps_reachable (transcode ffmpeg archiver jobId files).
Proof.
  unfold transcode, write_job.
  apply preserves_bind; eauto with frame.
  { apply initJob_keeps_reachable. }
  intros job0. apply preserves_bind; eauto with frame.
  2:{ intros _. apply read_job_keeps_reachable. }
  apply preserves_try_catch; eauto with frame.
  - apply preserves_bind; eauto with frame.
    + apply preserves_for_of; eauto with frame.
      intros file _. apply transcode_one_keeps_reachable.
    + intros _. apply settle_keeps_reachable.
  - intros e. apply preserves_bind; eauto with frame.
    { apply preserves_modify. intros w Hw. by apply reach_set_status. }
    intros _. apply preserves_bind; eauto with frame.
    { apply preserves_modify. intros w Hw. by apply reach_set_error. }
    intros _. apply preserves_bind; eauto with frame.
    { apply preserves_get; eauto with frame. }
    intros w0. apply preserves_modify. intros w Hw.
    by apply reach_set_completedAt.
Qed.

Lemma mkdirSync_recursive_jobs p :
  preserves same_jobs (Fs.mkdirSync_recursive p).
Proof.
  intros w r w' Hrun. by apply mkdir_from_frame in Hrun as (? & _).
Qed.

Lemma transcodeSync_jobs jobId file :
  preserves same_jobs (transcodeSync ffmpeg jobId file).
Proof.
  unfold transcodeSync.
  apply preserves_bind; eauto with frame.
  { apply preserves_get; eauto with frame. }
  intros w. apply preserves_bind; eauto with frame.
  { destruct (negb _); [apply mkdirSync_recursive_jobs|].
    apply preserves_ret; eauto with frame. }
  intros _. apply preserves_try_catch; eauto with frame.
  - apply preserves_bind; eauto with frame.
    { apply transcodeFile_jobs. }
    intros pkg. apply preserves_bind; eauto with frame.
    + intros w0 r w1 Hrun. apply collectHLSFiles_world in Hrun as ->.
      apply same_jobs_refl.
    + intros hlsFiles. apply preserves_ret; eauto with frame.
  - intros e. apply preserves_ret; eauto with frame.
Qed.

Lemma transcodeSync_keeps_reachable jobId file :
  preserves keeps_reachable (transcodeSync ffmpeg jobId file).
Proof.
  eapply preserves_weaken; [apply same_jobs_keeps_reachable|].
  apply transcodeSync_jobs.
Qed.

End Reach.

(** * Further properties

    ** Deleting a job and sweeping again *)

Lemma existsSync_after_rm (p : Path.t) (d : gmap (list string) Node) :
  Fs.existsSync p (Fs.rmSync_recursive p d) = false.
Proof.
  unfold Fs.existsSync.
  pose proof (rmSync_recursive_below p d []) as Hgone.
  rewrite app_nil_r in Hgone. by rewrite Hgone.
Qed.

(** X1: after [cleanupJob] the status and download routes answer 404 for
    the id, and the status route answers every other id as before.  For an
    id without a slash, nothing is left at or below the job directory of a
    disk that is a tree; for an id that is the name of a directory entry,
    nothing outside that directory changed, and the download route answers
    as before for every other job whose archive does not lie inside it. *)
Theorem cleanupJob_forgets jobId w :
  let w' := cleanupJob jobId w in
  status_route jobId w' = inr (Json 404 "Job not found" None) ∧
  download jobId w' = Json 404 "Job not found" None ∧
  (∀ id, id ≠ jobId → getJobStatus id w' = getJobStatus id w) ∧
  (slash_free jobId →
   dir_or_nothing (Path.join TEMP_DIR jobId) (disk w) →
   ∀ rest, disk w' !! (Path.join TEMP_DIR jobId ++ rest)%list = None) ∧
  (entry_name jobId →
   ∀ q, Fs.strip_prefix (TEMP_DIR ++ [jobId])%list q = None →
        disk w' !! q = disk w !! q) ∧
  (entry_name jobId →
   ∀ id, id ≠ jobId →
     (∀ job zip, getJobStatus id w = Some job → Job.zipPath job = Some zip →
                 Fs.strip_prefix (TEMP_DIR ++ [jobId])%list zip = None) →
     download id w' = download id w).
Proof.
  intros w'. subst w'.
  assert (Hgone : getJobStatus jobId (cleanupJob jobId w) = None).
  { unfold getJobStatus. by rewrite cleanupJob_jobs, lookup_delete_eq. }
  assert (Hothers : ∀ id, id ≠ jobId →
            getJobStatus id (cleanupJob jobId w) = getJobStatus id w).
  { intros id Hne. unfold getJobStatus.
    by rewrite cleanupJob_jobs, lookup_delete_ne. }
  assert (Houtside : entry_name jobId →
            ∀ q, Fs.strip_prefix (TEMP_DIR ++ [jobId])%list q = None →
                 disk (cleanupJob jobId w) !! q = disk w !! q).
  { intros [Hplain _] q Hq. rewrite cleanupJob_disk, join_plain by done.
    destruct (Fs.existsSync _ _); [|done].
    by rewrite rmSync_recursive_lookup, Hq. }
  split; [unfold status_route; by rewrite Hgone|].
  split; [unfold download; by rewrite Hgone|].
  split; [exact Hothers|].
  split; [intros _; apply cleanupJob_removes_dir|].
  split; [exact Houtside|].
  intros Hname id Hne Hzip. unfold download. rewrite (Hothers id Hne).
  destruct (getJobStatus id w) as [job|] eqn:Hjob; [|done].
  destruct (negb _); [done|].
  destruct (Job.zipPath job) as [zip|] eqn:Hz; [|done].
  unfold Fs.existsSync. by rewrite (Houtside Hname zip (Hzip job zip eq_refl Hz)).
Qed.

Lemma cleanupJob_forgets_witness :
  let w' := cleanupJob "job-old" Sample.two_jobs in
  download "job-old" w' = Json 404 "Job not found" None ∧
  disk w' !! ["tmp"; "hls-jobs"; "job-old"; "x.mp3"] = None ∧
  download "job-new" w' =
    Download ["tmp"; "hls-jobs"; "job-new"; "hls-output.zip"] "hls-job-new.zip".
Proof.
  intros w'.
  destruct (cleanupJob_forgets "job-old" Sample.two_jobs)
    as (_ & Hdown & _ & Hgone & _ & Hother).
  split; [exact Hdown|]. split.
  - assert (Hdir : dir_or_nothing (Path.join TEMP_DIR "job-old")
                     (disk Sample.two_jobs)) by (left; vm_compute; eauto).
    exact (Hgone eq_refl Hdir ["x.mp3"]).
  - subst w'. rewrite (Hother ltac:(by repeat split) "job-new" ltac:(done)).
    + vm_compute. reflexivity.
    + intros job zip Hjob Hzip. vm_compute in Hjob. injection Hjob as <-.
      injection Hzip as <-. reflexivity.
Defined.

(** X2: deleting a job twice is deleting it once. *)
Theorem cleanupJob_idempotent jobId w :
  cleanupJob jobId (cleanupJob jobId w) = cleanupJob jobId w.
Proof.
  destruct w as [j d n t]. unfold cleanupJob. cbn [disk jobs with_disk with_jobs].
  destruct (Fs.existsSync (Path.join TEMP_DIR jobId) d) eqn:Hex;
    cbn [disk jobs with_disk with_jobs now trace].
  - rewrite existsSync_after_rm. unfold with_jobs, with_disk.
    cbn [disk jobs now trace]. by rewrite delete_delete_eq.
  - rewrite Hex. unfold with_jobs. cbn [disk jobs now trace].
    by rewrite delete_delete_eq.
Qed.

(** X3: the id is joined onto the temp directory as it comes.  With the id
    [.] the directory removed is the temp directory itself, so the files of
    every job are gone while every job keeps its map entry; with [..] it is
    [/tmp]. *)
Theorem cleanupJob_unchecked_id w :
  is_Some (disk w !! TEMP_DIR) →
  is_Some (disk w !! ["tmp"]) →
  (∀ id rest, disk (cleanupJob "." w) !! (TEMP_DIR ++ id :: rest)%list = None) ∧
  (∀ id, id ≠ "." → getJobStatus id (cleanupJob "." w) = getJobStatus id w) ∧
  (∀ rest, disk (cleanupJob ".." w) !! ("tmp" :: rest) = None).
Proof.
  intros [x Hx] [y Hy]. repeat split.
  - intros id rest. rewrite cleanupJob_disk.
    change (Path.join TEMP_DIR ".") with TEMP_DIR.
    unfold Fs.existsSync. rewrite Hx. apply rmSync_recursive_below.
  - intros id Hne. unfold getJobStatus.
    by rewrite cleanupJob_jobs, lookup_delete_ne.
  - intros rest. rewrite cleanupJob_disk.
    change (Path.join TEMP_DIR "..") with ["tmp"].
    unfold Fs.existsSync. rewrite Hy.
    apply (rmSync_recursive_below ["tmp"]).
Qed.

Lemma cleanupJob_unchecked_id_witness :
  disk (cleanupJob "." Sample.two_jobs)
    !! ["tmp"; "hls-jobs"; "job-new"; "hls-output.zip"] = None ∧
  getJobStatus "job-new" (cleanupJob "." Sample.two_jobs) = Some Sample.new_job.
Proof.
  destruct (cleanupJob_unchecked_id Sample.two_jobs) as (Hfiles & Hjobs & _).
  - vm_compute. eauto.
  - vm_compute. eauto.
  - split.
    + apply (Hfiles "job-new" ["hls-output.zip"]).
    + rewrite Hjobs by discriminate. reflexivity.
Defined.

(** ** Sweeping again *)

Lemma sweep_nothing_expired now_ maxAge entries w :
  (∀ id job, (id, job) ∈ entries → ¬ maxAge < now_ - Job.startedAt job) →
  foldr (sweep_entry now_ maxAge) w entries = w.
Proof.
  induction entries as [|[id job] entries IH]; intros Hyoung; [done|].
  cbn [foldr]. rewrite IH by (intros ???; eapply Hyoung; by right).
  unfold sweep_entry. cbn [fst snd].
  destruct (Z.ltb_spec maxAge (now_ - Job.startedAt job)) as [Hold|_]; [|done].
  exfalso. by apply (Hyoung id job); [left|].
Qed.

Lemma sweep_now now_ maxAge entries w :
  now (foldr (sweep_entry now_ maxAge) w entries) = now w.
Proof.
  induction entries as [|e entries IH]; [done|]. cbn [foldr].
  unfold sweep_entry at 1. destruct (_ <? _); [|done].
  unfold cleanupJob. by destruct (Fs.existsSync _ _).
Qed.

(** X4: a sweep leaves no job that a second sweep at the same clock
    reading would remove: sweeping twice is sweeping once, and a sweep that
    finds no job old enough returns the world as it was. *)
Theorem cleanupOldJobs_idempotent maxAgeMinutes w :
  cleanupOldJobs maxAgeMinutes (cleanupOldJobs maxAgeMinutes w) =
    cleanupOldJobs maxAgeMinutes w ∧
  ((∀ id job, jobs w !! id = Some job →
      ¬ expired maxAgeMinutes (now w) job) →
   cleanupOldJobs maxAgeMinutes w = w).
Proof.
  split.
  - unfold cleanupOldJobs at 1. apply sweep_nothing_expired.
    intros id job Hin Hold. apply elem_of_map_to_list in Hin.
    pose proof (cleanupOldJobs_lookup_inv _ _ _ _ Hin) as Hbefore.
    apply elem_of_map_to_list in Hbefore.
    unfold cleanupOldJobs in Hin, Hold. rewrite sweep_now in Hold.
    by rewrite (sweep_removed _ _ _ w id job Hbefore Hold) in Hin.
  - intros Hyoung. unfold cleanupOldJobs. apply sweep_nothing_expired.
    intros id job Hin. apply elem_of_map_to_list in Hin.
    exact (Hyoung id job Hin).
Qed.

(** ** Updates and keys of the store *)

Lemma assign_name f u : FileEntry.name (assign f u) = FileEntry.name f.
Proof. reflexivity. Qed.

Lemma assign_assign f u : assign (assign f u) u = assign f u.
Proof. destruct u as [[?|] [?|] [?|] [?|]]; reflexivity. Qed.

Lemma assign_found_names fileName updates files :
  map FileEntry.name (assign_found fileName updates files) =
  map FileEntry.name files.
Proof.
  induction files as [|f files IH]; [done|]. cbn [assign_found].
  destruct (String.eqb _ _); cbn [map]; [done|]. by rewrite IH.
Qed.

Lemma assign_found_length fileName updates files :
  length (assign_found fileName updates files) = length files.
Proof.
  rewrite <- (length_map FileEntry.name), assign_found_names.
  apply length_map.
Qed.

Lemma assign_found_twice fileName updates files :
  assign_found fileName updates (assign_found fileName updates files) =
  assign_found fileName updates files.
Proof.
  induction files as [|f files IH]; [done|]. cbn [assign_found].
  destruct (String.eqb (FileEntry.name f) fileName) eqn:Hf; cbn [assign_found].
  - by rewrite assign_name, Hf, assign_assign.
  - by rewrite Hf, IH.
Qed.

(** [assign_found] entry by entry: the entry at [i] is rewritten when it
    carries the name and no entry before it does. *)
Lemma assign_found_lookup fileName updates files i :
  assign_found fileName updates files !! i =
  (λ f, if bool_decide (FileEntry.name f = fileName ∧
                        fileName ∉ take i (map FileEntry.name files))
        then assign f updates else f) <$> files !! i.
Proof.
  revert i. induction files as [|f files IH]; intros i; [done|].
  cbn [assign_found].
  destruct (String.eqb_spec (FileEntry.name f) fileName) as [Hf|Hf].
  - destruct i as [|i]; cbn.
    + rewrite bool_decide_eq_true_2; [done|]. split; [done|]. apply not_elem_of_nil.
    + destruct (files !! i) as [g|]; [|done]. cbn.
      rewrite bool_decide_eq_false_2; [done|].
      intros [_ Hnot]. apply Hnot. rewrite Hf. by left.
  - destruct i as [|i]; cbn.
    + rewrite bool_decide_eq_false_2; [done|]. by intros [? _].
    + rewrite IH. destruct (files !! i) as [g|]; [|done]. cbn.
      f_equal.
      rewrite (bool_decide_ext
                 (FileEntry.name g = fileName ∧
                  fileName ∉ FileEntry.name f :: take i (map FileEntry.name files))
                 (FileEntry.name g = fileName ∧
                  fileName ∉ take i (map FileEntry.name files))); [done|].
      rewrite not_elem_of_cons. intuition congruence.
Qed.

(** X5: applying the same update twice is applying it once, and an update
    never renames, adds or drops an entry. *)
Theorem updateFileStatus_idempotent jobId fileName updates w :
  let w' := updateFileStatus jobId fileName updates w in
  updateFileStatus jobId fileName updates w' = w' ∧
  map FileEntry.name <$> (Job.files <$> getJobStatus jobId w') =
  map FileEntry.name <$> (Job.files <$> getJobStatus jobId w).
Proof.
  intros w'. subst w'. split.
  - unfold updateFileStatus.
    destruct (jobs w !! jobId) as [job|] eqn:Hjob; [|by rewrite Hjob].
    cbn [jobs with_jobs]. rewrite lookup_insert_eq.
    unfold with_jobs. cbn [jobs disk now trace Job.files Job.set_files
      Job.set_completedFiles Job.set_failedFiles].
    rewrite insert_insert_eq, assign_found_twice. reflexivity.
  - unfold getJobStatus.
    rewrite updateFileStatus_lookup, decide_True by done.
    destruct (jobs w !! jobId) as [job|]; [|done]. cbn.
    by rewrite assign_found_names.
Qed.

(** X6: every job the map holds is held under its own [jobId]. *)
Theorem store_keys_are_job_ids w id job :
  reachable w → jobs w !! id = Some job → Job.jobId job = id.
Proof.
  intros Hreach. revert id job.
  induction Hreach as
    [d t|w d t tr _ IH|w jobId files _ IH|w jobId fileName updates _ IH
    |w jobId s _ IH|w jobId z _ IH|w jobId e _ IH|w jobId c _ IH
    |w jobId _ IH|w maxAgeMinutes _ IH]; intros id job; cbn [jobs with_jobs snd initJob].
  - by rewrite lookup_empty.
  - apply IH.
  - rewrite lookup_insert. case_decide; [|apply IH]. by intros [= <-].
  - rewrite updateFileStatus_lookup. case_decide; [|apply IH]. subst.
    destruct (jobs w !! jobId) as [j|] eqn:Hj; [|discriminate].
    intros [= <-]. apply (IH _ _ Hj).
  - rewrite lookup_alter. case_decide; [|apply IH]. subst.
    destruct (jobs w !! id) as [j|] eqn:Hj; [|discriminate].
    intros [= <-]. apply (IH _ _ Hj).
  - rewrite lookup_alter. case_decide; [|apply IH]. subst.
    destruct (jobs w !! id) as [j|] eqn:Hj; [|discriminate].
    intros [= <-]. apply (IH _ _ Hj).
  - rewrite lookup_alter. case_decide; [|apply IH]. subst.
    destruct (jobs w !! id) as [j|] eqn:Hj; [|discriminate].
    intros [= <-]. apply (IH _ _ Hj).
  - rewrite lookup_alter. case_decide; [|apply IH]. subst.
    destruct (jobs w !! id) as [j|] eqn:Hj; [|discriminate].
    intros [= <-]. apply (IH _ _ Hj).
  - rewrite cleanupJob_jobs, lookup_delete. case_decide; [discriminate|apply IH].
  - intros Hafter. eapply IH, cleanupOldJobs_lookup_inv, Hafter.
Qed.

Lemma store_keys_are_job_ids_witness :
  (Job.jobId <$> jobs Sample.after_update !! "job-1") = Some "job-1".
Proof.
  destruct (jobs Sample.after_update !! "job-1") as [job|] eqn:Hjob.
  - cbn. f_equal.
    apply (store_keys_are_job_ids Sample.after_update "job-1" job); [|exact Hjob].
    apply reach_updateFileStatus, reach_initJob, reach_boot.
  - vm_compute in Hjob. discriminate.
Defined.

(** ** The job loop, entry by entry *)

Lemma closing_update_settles r :
  Updates.status (closing_update r) = Some Completed ∨
  Updates.status (closing_update r) = Some Failed.
Proof. destruct r; [by left|by right]. Qed.

Lemma entries_after_init (files : list Upload.t) :
  entries_after []
    (map (λ f, FileEntry.mk (Upload.originalName f) Pending None 0%nat None)
       files).
Proof.
  intros i f Hf. rewrite list_lookup_fmap in Hf.
  destruct (files !! i) as [u|]; [|done]. injection Hf as <-. cbn.
  case_decide; [done|]. split; [|done]. by intros ?%elem_of_nil.
Qed.

Lemma entries_after_step done fileName u1 u2 files :
  Updates.status u2 = Some Completed ∨ Updates.status u2 = Some Failed →
  entries_after done files →
  entries_after (fileName :: done)
    (assign_found fileName u2 (assign_found fileName u1 files)).
Proof.
  intros Hu2 Hinv i f3. rewrite !assign_found_names.
  rewrite assign_found_lookup, assign_found_names, assign_found_lookup.
  destruct (files !! i) as [f|] eqn:Hf; [|done]. cbn. intros [= <-].
  specialize (Hinv i f Hf).
  destruct (decide (FileEntry.name f = fileName ∧
                    fileName ∉ take i (map FileEntry.name files)))
    as [Hfirst|Hfirst].
  - rewrite (bool_decide_eq_true_2 _ Hfirst). rewrite assign_name.
    rewrite (bool_decide_eq_true_2 _ Hfirst).
    destruct Hfirst as [Hname Hnot]. rewrite !assign_name.
    rewrite decide_False by (by rewrite Hname).
    split; [|intros Hn; exfalso; apply Hn; rewrite Hname; by left].
    intros _. unfold settled. cbn.
    destruct Hu2 as [-> | ->]; cbn; auto.
  - rewrite !(bool_decide_eq_false_2 _ Hfirst).
    case_decide as Hearlier; [done|].
    destruct Hinv as [Hin Hout]. split.
    + intros [Heq|Hd]%elem_of_cons; [|by apply Hin].
      exfalso. apply Hfirst. split; [done|]. by rewrite <- Heq.
    + intros Hn. apply Hout. intros Hd. apply Hn. by right.
Qed.

Lemma entries_after_all (files : list FileEntry.t) :
  entries_after (map FileEntry.name files) files →
  ∀ i f, files !! i = Some f →
    if decide (FileEntry.name f ∈ take i (map FileEntry.name files))
    then f = pending_entry (FileEntry.name f)
    else settled f.
Proof.
  intros Hinv i f Hf. specialize (Hinv i f Hf).
  case_decide; [done|]. apply Hinv.
  apply list_elem_of_fmap. exists f. split; [done|].
  by eapply list_elem_of_lookup_2.
Qed.

Lemma entries_after_NoDup (files : list FileEntry.t) :
  NoDup (map FileEntry.name files) →
  entries_after (map FileEntry.name files) files →
  Forall settled files.
Proof.
  intros Hnd Hinv. apply Forall_lookup. intros i f Hf.
  pose proof (entries_after_all files Hinv i f Hf) as H.
  case_decide as Hearlier; [|done]. exfalso.
  apply list_elem_of_lookup in Hearlier as [j Hj].
  apply lookup_take_Some in Hj as [Hj Hlt].
  assert (Hi : map FileEntry.name files !! i = Some (FileEntry.name f))
    by by rewrite list_lookup_fmap, Hf.
  pose proof (NoDup_lookup _ _ _ _ Hnd Hj Hi). lia.
Qed.

Lemma entries_after_perm done done' files :
  (∀ n, n ∈ done ↔ n ∈ done') →
  entries_after done files → entries_after done' files.
Proof.
  intros Hsame Hinv i f Hf. specialize (Hinv i f Hf).
  case_decide; [done|]. by rewrite <- Hsame.
Qed.

Lemma settled_filter (files : list FileEntry.t) :
  Forall settled files →
  filter (λ f, is_completed f ∨ is_failed f) files = files.
Proof.
  intros Hall. induction Hall as [|f files Hf _ IH]; [done|].
  rewrite filter_cons, decide_True by exact Hf. by rewrite IH.
Qed.

Lemma same_other_jobs_refl jobId w : same_other_jobs jobId w w.
Proof. by intros id _. Qed.

Lemma same_other_jobs_trans jobId a b c :
  same_other_jobs jobId a b → same_other_jobs jobId b c →
  same_other_jobs jobId a c.
Proof. intros Hab Hbc id Hne. by rewrite Hbc, Hab. Qed.

Lemma same_jobs_same_other_jobs jobId w w' :
  same_jobs w w' → same_other_jobs jobId w w'.
Proof. intros Hj id _. by rewrite Hj. Qed.

Lemma updateFileStatus_same_other_jobs jobId fileName updates w :
  same_other_jobs jobId w (updateFileStatus jobId fileName updates w).
Proof. intros id Hne. by rewrite updateFileStatus_lookup, decide_False. Qed.

Lemma updateFileStatus_world jobId fileName updates w :
  disk (updateFileStatus jobId fileName updates w) = disk w ∧
  trace (updateFileStatus jobId fileName updates w) = trace w ∧
  now (updateFileStatus jobId fileName updates w) = now w.
Proof. unfold updateFileStatus. by destruct (jobs w !! jobId). Qed.

Section JobRun.

Variable ffmpeg : World → FFmpegArgs.t → FFmpegRun.t.
Variable archiver : World → Path.t → list Path.t → ArchiverRun.

(** One turn of the loop, as a composition of its three steps. *)
Lemma transcode_one_run jobId jobDir file w :
  let fileName := Upload.originalName file in
  let w1 := updateFileStatus jobId fileName update_processing w in
  let run := transcodeFile ffmpeg (Upload.path file) jobDir fileName w1 in
  transcode_one ffmpeg jobId jobDir file w =
    (Ok tt, updateFileStatus jobId fileName (closing_update run.1) run.2).
Proof.
  intros fileName w1 run. subst run w1 fileName.
  unfold transcode_one, update_processing. rewrite run_bind.
  cbn [modify]. unfold try_catch. rewrite run_bind.
  by destruct (transcodeFile _ _ _ _ _) as [[pkg|e] w2].
Qed.

Lemma transcode_one_entries jobId jobDir file w job :
  jobs w !! jobId = Some job →
  ∃ w' job' u2,
    transcode_one ffmpeg jobId jobDir file w = (Ok tt, w') ∧
    jobs w' !! jobId = Some job' ∧
    (Updates.status u2 = Some Completed ∨ Updates.status u2 = Some Failed) ∧
    Job.files job' =
      assign_found (Upload.originalName file) u2
        (assign_found (Upload.originalName file) update_processing
           (Job.files job)) ∧
    same_other_jobs jobId w w'.
Proof.
  intros Hjob. rewrite transcode_one_run.
  set (w1 := updateFileStatus _ _ update_processing w).
  destruct (transcodeFile _ _ _ _ w1) as [r w2] eqn:Hrun. cbn [fst snd].
  pose proof (transcodeFile_jobs _ _ _ _ _ _ _ Hrun) as Hsame.
  unfold same_jobs in Hsame.
  eexists _, _, (closing_update r). split; [reflexivity|].
  split; [|split; [apply closing_update_settles|split]].
  - rewrite updateFileStatus_lookup, decide_True, Hsame by done.
    subst w1. rewrite updateFileStatus_lookup, decide_True, Hjob by done.
    reflexivity.
  - reflexivity.
  - intros id Hne.
    rewrite updateFileStatus_lookup, decide_False, Hsame by done.
    subst w1. by rewrite updateFileStatus_lookup, decide_False.
Qed.

Lemma job_loop_entries jobId jobDir files w job done :
  jobs w !! jobId = Some job →
  entries_after done (Job.files job) →
  ∃ w' job',
    for_of files (transcode_one ffmpeg jobId jobDir) w = (Ok tt, w') ∧
    jobs w' !! jobId = Some job' ∧
    map FileEntry.name (Job.files job') = map FileEntry.name (Job.files job) ∧
    entries_after (rev (map Upload.originalName files) ++ done)%list
      (Job.files job') ∧
    same_other_jobs jobId w w'.
Proof.
  revert w job done. induction files as [|file files IH]; intros w job done Hjob Hinv.
  - exists w, job. repeat split; try done.
  - cbn [for_of]. rewrite run_bind.
    destruct (transcode_one_entries jobId jobDir file w job Hjob)
      as (w1 & job1 & u2 & -> & Hjob1 & Hu2 & Hfiles1 & Hother1).
    destruct (IH w1 job1 (Upload.originalName file :: done) Hjob1)
      as (w' & job' & Hloop & Hjob' & Hnames & Hinv' & Hother).
    { rewrite Hfiles1. by apply entries_after_step. }
    exists w', job'. split; [exact Hloop|]. split; [exact Hjob'|].
    split; [|split].
    + by rewrite Hnames, Hfiles1, !assign_found_names.
    + cbn [map rev]. by rewrite <- app_assoc.
    + by eapply same_other_jobs_trans.
Qed.

(** What [transcode] returns and leaves, in terms of the world [w2] the
    loop left and of the archive attempt made there. *)
Lemma transcode_run jobId files w :
  let jobDir := Path.join TEMP_DIR jobId in
  let w2 :=
    (for_of files (transcode_one ffmpeg jobId jobDir)
       (initJob jobId files w).2).2 in
  let run := transcode ffmpeg archiver jobId files w in
  ∃ job2 job,
    jobs w2 !! jobId = Some job2 ∧
    run.1 = Ok job ∧
    jobs run.2 !! jobId = Some job ∧
    Job.files job = Job.files job2 ∧
    Job.completedFiles job = Job.completedFiles job2 ∧
    Job.failedFiles job = Job.failedFiles job2 ∧
    counts_ok job2 ∧
    match length (filter is_completed (Job.files job2)) with
    | O =>
        Job.status job = JobFailed ∧
        Job.error job = Some "All files failed to transcode" ∧
        Job.zipPath job = None ∧
        same_other_jobs jobId w2 run.2 ∧
        disk run.2 = disk w2 ∧ trace run.2 = trace w2
    | S _ =>
        let zip := createZipArchive archiver jobId jobDir w2 in
        same_other_jobs jobId w2 run.2 ∧
        disk run.2 = disk zip.2 ∧ trace run.2 = trace zip.2 ∧
        match zip.1 with
        | Ok zipPath =>
            Job.zipPath job = Some zipPath ∧
            Job.error job = None ∧
            Job.status job =
              if (0 <? Job.failedFiles job2)%nat
              then JobCompletedWithErrors else JobCompleted
        | Throw e =>
            Job.status job = JobFailed ∧
            Job.error job = Some (message e) ∧
            Job.zipPath job = None
        end
    end.
Proof.
  intros jobDir w2 run.
  destruct (initJob_in_progress jobId files w) as (job0 & w1 & Hinit & Hin1).
  destruct (job_loop_in_progress ffmpeg jobId jobDir files _ Hin1)
    as (w2' & Hloop & (job2 & Hjob2 & Hs2 & Hz2 & He2 & Hok2)).
  assert (Hw2 : w2 = w2')
    by (subst w2; rewrite Hinit; cbn [snd]; by rewrite Hloop).
  clearbody w2. subst w2'.
  destruct run as [r w'] eqn:Hrun. subst run. cbn [fst snd].
  unfold transcode in Hrun. rewrite run_bind, Hinit in Hrun.
  rewrite run_bind in Hrun. unfold try_catch in Hrun at 1.
  rewrite run_bind in Hrun. fold jobDir in Hrun. rewrite Hloop in Hrun.
  unfold settle in Hrun. rewrite run_bind in Hrun.
  unfold read_job in Hrun at 1. rewrite Hjob2 in Hrun. cbn [default] in Hrun.
  exists job2.
  cbv beta zeta delta [id] in Hrun.
  destruct (length (filter is_completed (Job.files job2))) as [|n] eqn:Hn.
  - cbv [mbind M_bind write_job read_job modify get Nat.ltb Nat.leb] in Hrun.
    cbn [jobs with_jobs] in Hrun.
    rewrite !lookup_alter_eq, Hjob2 in Hrun. injection Hrun as <- <-.
    cbn [jobs with_jobs disk trace]. rewrite !lookup_alter_eq, Hjob2.
    eexists. split; [reflexivity|]. split; [reflexivity|]. cbn.
    split; [reflexivity|]. repeat (split; [done|]).
    split; [|done]. intros id Hne. cbn [jobs with_jobs].
    by rewrite !lookup_alter_ne.
  - cbn [Nat.ltb Nat.leb] in Hrun. rewrite run_bind in Hrun.
    rewrite (run_bind (createZipArchive _ _ _)) in Hrun.
    destruct (createZipArchive archiver jobId jobDir w2) as [[zp|e] w3] eqn:Hzip;
      pose proof Hzip as Hj3; apply createZipArchive_jobs in Hj3;
      unfold same_jobs in Hj3;
      cbv [mbind M_bind write_job read_job modify get] in Hrun;
      cbn [jobs with_jobs] in Hrun;
      rewrite !lookup_alter_eq, Hj3, Hjob2 in Hrun; injection Hrun as <- <-;
      cbn [jobs with_jobs disk trace fst snd]; rewrite !lookup_alter_eq, Hj3, Hjob2;
      (eexists; split; [reflexivity|]); (split; [reflexivity|]); cbn;
      (split; [reflexivity|]); repeat (split; [done|]);
      (split; [intros id Hne; cbn [jobs with_jobs];
               by rewrite !lookup_alter_ne, Hj3|]);
      done.
Qed.

End JobRun.

(** ** What a job run does to the store, the trace and the download *)

Lemma grows_by_refl P w : grows_by P w w.
Proof. exists []. by rewrite app_nil_r. Qed.

Lemma grows_by_trans P a b c : grows_by P a b → grows_by P b c → grows_by P a c.
Proof.
  intros (e1 & H1 & F1) (e2 & H2 & F2). exists (e1 ++ e2)%list.
  split; [by rewrite H2, H1, app_assoc|]. by apply Forall_app.
Qed.

Section JobTheorems.

Variable ffmpeg : World → FFmpegArgs.t → FFmpegRun.t.
Variable archiver : World → Path.t → list Path.t → ArchiverRun.

Lemma transcode_one_events jobId jobDir file w r w' :
  transcode_one ffmpeg jobId jobDir file w = (r, w') →
  grows_by (λ e, ¬ is_archive_event e) w w'.
Proof.
  rewrite transcode_one_run. intros [= _ <-].
  destruct (transcodeFile _ _ _ _ _) as [r0 w2] eqn:Hrun.
  apply transcodeFile_events in Hrun as (evs & Ht & Hall).
  exists evs. split; [|done]. cbn [fst snd].
  destruct (updateFileStatus_world jobId (Upload.originalName file)
              (closing_update r0) w2) as (_ & -> & _).
  rewrite Ht.
  by destruct (updateFileStatus_world jobId (Upload.originalName file)
                 update_processing w) as (_ & -> & _).
Qed.

Lemma job_loop_events jobId jobDir files w r w' :
  for_of files (transcode_one ffmpeg jobId jobDir) w = (r, w') →
  grows_by (λ e, ¬ is_archive_event e) w w'.
Proof.
  revert w. induction files as [|file files IH]; intros w.
  - intros [= _ <-]. apply grows_by_refl.
  - cbn [for_of]. rewrite run_bind.
    destruct (transcode_one _ _ _ _ w) as [[[]|e] w1] eqn:Hone;
      apply transcode_one_events in Hone.
    + intros Hrest. eapply grows_by_trans; [exact Hone|]. by eapply IH.
    + by intros [= _ <-].
Qed.

Lemma createZipArchive_trace jobId outputDir w r w' :
  createZipArchive archiver jobId outputDir w = (r, w') →
  match r with
  | Ok zipPath =>
      ∃ members, trace w' = (trace w ++ [EvArchive zipPath members])%list
  | Throw _ =>
      trace w' = trace w ∨
      ∃ members,
        trace w' =
          (trace w ++ [EvArchive (Path.join outputDir "hls-output.zip")
                         members])%list
  end.
Proof.
  unfold createZipArchive. rewrite run_bind. unfold Fs.readdirSync.
  destruct (disk w !! outputDir) as [[|]|]; try (intros [= <- <-]; by left).
  rewrite run_bind. cbn [get].
  destruct (archiver _ _ _); rewrite run_bind; cbn [modify];
    intros [= <- <-]; cbn [trace tick with_disk emit]; eauto.
Qed.

(** X8: [transcode] reads and writes the map under its own id only. *)
Theorem transcode_touches_one_job jobId files w id :
  id ≠ jobId →
  getJobStatus id (transcode ffmpeg archiver jobId files w).2 =
  getJobStatus id w.
Proof.
  intros Hne. unfold getJobStatus.
  destruct (transcode_run ffmpeg archiver jobId files w)
    as (job2 & job & Hjob2 & _ & _ & _ & _ & _ & _ & Hcase).
  destruct (initJob jobId files w) as [r0 w1] eqn:Hinit.
  pose proof Hinit as Hinit'. unfold initJob in Hinit'.
  injection Hinit' as <- <-. cbn [snd] in Hjob2, Hcase.
  set (job0 := Job.mk jobId JobProcessing (now w) _ _ _ _ _ _) in *.
  destruct (job_loop_entries ffmpeg jobId (Path.join TEMP_DIR jobId) files
              (with_jobs (insert jobId job0) w) job0 [])
    as (w2 & job2' & Hloop & _ & _ & _ & Hother).
  { cbn [jobs with_jobs]. by rewrite lookup_insert_eq. }
  { apply entries_after_init. }
  rewrite Hloop in Hcase. cbn [snd] in Hcase.
  assert (Hend : jobs (transcode ffmpeg archiver jobId files w).2 !! id =
                 jobs w2 !! id).
  { destruct (length _) in Hcase.
    - destruct Hcase as (_ & _ & _ & Ho & _). by apply Ho.
    - destruct Hcase as (Ho & _). by apply Ho. }
  rewrite Hend, (Hother id Hne). cbn [jobs with_jobs].
  by rewrite lookup_insert_ne.
Qed.

(** X9: the archiver is called at most once per job, after every encode,
    and not at all when no entry ended completed; a job that has an
    archive path has it from that one call. *)
Theorem transcode_archives_at_most_once jobId files w :
  let run := transcode ffmpeg archiver jobId files w in
  let zipPath := Path.join (Path.join TEMP_DIR jobId) "hls-output.zip" in
  ∃ job evs,
    run.1 = Ok job ∧
    Forall (λ e, ¬ is_archive_event e) evs ∧
    (trace run.2 = (trace w ++ evs)%list ∨
     ∃ members,
       trace run.2 = (trace w ++ evs ++ [EvArchive zipPath members])%list) ∧
    (filter is_completed (Job.files job) = [] →
       trace run.2 = (trace w ++ evs)%list) ∧
    (is_Some (Job.zipPath job) →
       Job.zipPath job = Some zipPath ∧
       ∃ members,
         trace run.2 = (trace w ++ evs ++ [EvArchive zipPath members])%list).
Proof.
  intros run zipPath.
  destruct (transcode_run ffmpeg archiver jobId files w)
    as (job2 & job & Hjob2 & Hr & _ & Hfiles & _ & _ & _ & Hcase).
  fold run in Hr, Hcase.
  destruct (for_of files _ (initJob jobId files w).2) as [r2 w2] eqn:Hloop.
  cbn [snd] in Hcase, Hjob2.
  apply job_loop_events in Hloop as (evs & Ht2 & Hall).
  change (trace (initJob jobId files w).2) with (trace w) in Ht2.
  exists job, evs. split; [exact Hr|]. split; [exact Hall|].
  rewrite Hfiles.
  destruct (length (filter is_completed (Job.files job2))) as [|n] eqn:Hn.
  - destruct Hcase as (_ & _ & Hz & _ & _ & Ht).
    rewrite Ht, Ht2. split; [by left|]. split; [done|].
    rewrite Hz. by intros [? [=]].
  - destruct Hcase as (_ & _ & Ht & Hzip). rewrite Ht.
    destruct (createZipArchive archiver jobId (Path.join TEMP_DIR jobId) w2)
      as [[zp|e] w3] eqn:Hrun; cbn [fst snd] in *.
    + pose proof (createZipArchive_Ok _ _ _ _ _ _ Hrun) as (Hzp & _).
      apply createZipArchive_trace in Hrun as (members & Ht3).
      fold zipPath in Hzp. subst zp.
      destruct Hzip as (Hz & _ & _). rewrite Ht3, Ht2, <- app_assoc.
      split; [right; by exists members|].
      split; [intros Hnil; by rewrite Hnil in Hn|].
      intros _. split; [exact Hz|]. by exists members.
    + destruct Hzip as (_ & _ & Hz). rewrite Hz.
      apply createZipArchive_trace in Hrun as [Ht3|(members & Ht3)];
        rewrite Ht3, Ht2.
      * split; [by left|]. split; [done|]. by intros [? [=]].
      * rewrite <- app_assoc. split; [right; by exists members|].
        split; [intros Hnil; by rewrite Hnil in Hn|]. by intros [? [=]].
Qed.

End JobTheorems.

Lemma transcode_touches_one_job_witness :
  getJobStatus "job-new"
    (transcode Sample.ffmpeg Sample.archiver "job-old" [Sample.b_mp3]
       Sample.two_jobs).2 = Some Sample.new_job.
Proof.
  rewrite (transcode_touches_one_job Sample.ffmpeg Sample.archiver "job-old"
             [Sample.b_mp3] Sample.two_jobs "job-new") by discriminate.
  reflexivity.
Defined.

(** ** Nothing is removed *)

Lemma disk_grows_refl w : disk_grows w w.
Proof. by intros q. Qed.

Lemma disk_grows_trans a b c : disk_grows a b → disk_grows b c → disk_grows a c.
Proof. intros Hab Hbc q Hq. by apply Hbc, Hab. Qed.

Lemma same_disk_grows w w' : disk w' = disk w → disk_grows w w'.
Proof. intros Hd q. by rewrite Hd. Qed.

Lemma insert_grows (p : Path.t) (node : Node) (d : gmap (list string) Node)
    (q : Path.t) :
  is_Some (d !! q) → is_Some (<[p := node]> d !! q).
Proof.
  intros Hq. destruct (decide (p = q)) as [->|Hne].
  - rewrite lookup_insert_eq. eauto.
  - by rewrite lookup_insert_ne.
Qed.

Lemma insert_disk_grows p node w :
  disk_grows w (with_disk (insert p node) w).
Proof. intros q Hq. by apply insert_grows. Qed.

Lemma keeps_files_refl w : keeps_files w w.
Proof. by intros q. Qed.

Lemma keeps_files_trans a b c :
  keeps_files a b → keeps_files b c → keeps_files a c.
Proof. intros Hab Hbc q s c0 Hq. by eapply Hbc, Hab. Qed.

Create HintDb disk.
#[local] Hint Resolve disk_grows_refl disk_grows_trans : disk.
#[local] Hint Resolve keeps_files_refl keeps_files_trans : disk.

Lemma mkdir_from_disk_grows base rest whole :
  preserves disk_grows (Fs.mkdir_from base rest whole).
Proof.
  revert base. induction rest as [|s rest IH]; intros base w r w'; simpl.
  - intros [= _ <-]. apply disk_grows_refl.
  - destruct (disk w !! (base ++ [s])%list) as [[|size c]|] eqn:Hp.
    + intros Hrun. eapply disk_grows_trans; [|eapply IH, Hrun].
      apply insert_disk_grows.
    + intros [= _ <-]. apply disk_grows_refl.
    + intros Hrun. eapply disk_grows_trans; [|eapply IH, Hrun].
      apply insert_disk_grows.
Qed.

Lemma mkdir_from_keeps_files base rest whole :
  preserves keeps_files (Fs.mkdir_from base rest whole).
Proof.
  revert base. induction rest as [|s rest IH]; intros base w r w'; simpl.
  - intros [= _ <-]. apply keeps_files_refl.
  - assert (Hins : disk w !! (base ++ [s])%list = Some Dir ∨
                   disk w !! (base ++ [s])%list = None →
                   keeps_files w (with_disk (insert (base ++ [s])%list Dir) w)).
    { intros Hp q size c Hq. cbn [disk with_disk].
      rewrite lookup_insert_ne; [done|]. intros <-.
      destruct Hp as [Hp|Hp]; congruence. }
    destruct (disk w !! (base ++ [s])%list) as [[|size c]|] eqn:Hp.
    + intros Hrun. eapply keeps_files_trans; [|eapply IH, Hrun]. auto.
    + intros [= _ <-]. apply keeps_files_refl.
    + intros Hrun. eapply keeps_files_trans; [|eapply IH, Hrun]. auto.
Qed.

Lemma write_outputs_grows (dir : Path.t) (written : list (string * N))
    (d : gmap (list string) Node) (q : Path.t) :
  is_Some (d !! q) → is_Some (write_outputs dir written d !! q).
Proof.
  unfold write_outputs. revert d.
  induction written as [|f written IH]; intros d Hq; [done|].
  simpl. by apply IH, insert_grows.
Qed.

Lemma write_stream_grows (p : Path.t) (node : Node)
    (d : gmap (list string) Node) (q : Path.t) :
  is_Some (d !! q) → is_Some (write_stream p node d !! q).
Proof.
  intros Hq. unfold write_stream.
  destruct (d !! p) as [[|size content]|]; [done|by apply insert_grows..].
Qed.

Lemma readdirSync_world dir w r w' :
  Fs.readdirSync dir w = (r, w') → w' = w.
Proof.
  unfold Fs.readdirSync. destruct (disk w !! dir) as [[|]|]; by intros [= _ <-].
Qed.

Section DiskGrows.

Variable ffmpeg : World → FFmpegArgs.t → FFmpegRun.t.
Variable archiver : World → Path.t → list Path.t → ArchiverRun.

Lemma transcodeVariant_disk_grows inputPath outputDir bitrate :
  preserves disk_grows (transcodeVariant ffmpeg inputPath outputDir bitrate).
Proof.
  intros w r w'. unfold transcodeVariant. rewrite run_bind. cbn [get].
  rewrite run_bind. cbn [modify].
  set (run := ffmpeg w _). set (w1 := tick _ _).
  assert (H1 : disk_grows w w1).
  { intros q Hq. subst w1. cbn [disk tick with_disk emit].
    by apply write_outputs_grows. }
  clearbody w1.
  destruct (FFmpegRun.exit run) as [code| |msg].
  - destruct (code =? 0).
    + rewrite run_bind.
      destruct (Fs.readdirSync outputDir w1) as [[l|e] w2] eqn:Hrd;
        apply readdirSync_world in Hrd as ->; by intros [= _ <-].
    + by intros [= _ <-].
  - by intros [= _ <-].
  - by intros [= _ <-].
Qed.

Lemma encode_ladder_disk_grows inputPath hlsDir ladder acc :
  preserves disk_grows (encode_ladder ffmpeg inputPath hlsDir ladder acc).
Proof.
  revert acc. induction ladder as [|v ladder IH]; intros acc; cbn [encode_ladder].
  - apply preserves_ret; eauto with disk.
  - apply preserves_bind; eauto with disk.
    apply transcodeVariant_disk_grows.
Qed.

Lemma writeFileSync_disk_grows p size data :
  preserves disk_grows (Fs.writeFileSync p size data).
Proof.
  intros w r w' Hrun. apply writeFileSync_run in Hrun.
  destruct r; subst w'; [|apply disk_grows_refl].
  intros q Hq. by apply insert_grows.
Qed.

Lemma transcodeFile_disk_grows inputPath outputDir fileName :
  preserves disk_grows (transcodeFile ffmpeg inputPath outputDir fileName).
Proof.
  unfold transcodeFile.
  apply preserves_bind; eauto with disk.
  { apply preserves_for_of; eauto with disk.
    intros v _. apply mkdir_from_disk_grows. }
  intros _. apply preserves_bind; eauto with disk.
  { apply encode_ladder_disk_grows. }
  intros acc. apply preserves_bind; eauto with disk.
  { apply writeFileSync_disk_grows. }
  intros _. apply preserves_ret; eauto with disk.
Qed.

Lemma createZipArchive_disk_grows jobId outputDir :
  preserves disk_grows (createZipArchive archiver jobId outputDir).
Proof.
  intros w r w'. unfold createZipArchive. rewrite run_bind.
  destruct (Fs.readdirSync outputDir w) as [[items|e] w1] eqn:Hrd;
    apply readdirSync_world in Hrd as ->;
    [|intros [= _ <-]; apply disk_grows_refl].
  rewrite run_bind. cbn [get].
  destruct (archiver _ _ _) as [bytes el|msg el|[size|] el];
    rewrite run_bind; cbn [modify];
    intros [= _ <-]; intros q Hq; cbn [disk tick with_disk emit];
    try exact Hq; by apply write_stream_grows.
Qed.

Lemma updateFileStatus_disk_grows jobId fileName updates :
  preserves disk_grows (modify (updateFileStatus jobId fileName updates)).
Proof.
  apply preserves_modify. intros w. apply same_disk_grows.
  apply updateFileStatus_world.
Qed.

Lemma write_job_disk_grows jobId f : preserves disk_grows (write_job jobId f).
Proof. apply preserves_modify. intros w. by apply same_disk_grows. Qed.

Lemma read_job_world jobId job0 w r w' :
  read_job jobId job0 w = (r, w') → w' = w.
Proof. by intros [= _ <-]. Qed.

Lemma transcode_disk_grows jobId files :
  preserves disk_grows (transcode ffmpeg archiver jobId files).
Proof.
  unfold transcode.
  apply preserves_bind; eauto with disk.
  { intros w r w' [= _ <-]. by apply same_disk_grows. }
  intros job0. apply preserves_bind; eauto with disk.
  2:{ intros _ w r w' ->%read_job_world. apply disk_grows_refl. }
  apply preserves_try_catch; eauto with disk.
  - apply preserves_bind; eauto with disk.
    + apply preserves_for_of; eauto with disk.
      intros file _. unfold transcode_one.
      apply preserves_bind; eauto with disk.
      { apply updateFileStatus_disk_grows. }
      intros _. apply preserves_try_catch; eauto with disk.
      * apply preserves_bind; eauto with disk.
        { apply transcodeFile_disk_grows. }
        intros pkg. apply updateFileStatus_disk_grows.
      * intros e. apply updateFileStatus_disk_grows.
    + intros _. unfold settle.
      apply preserves_bind; eauto with disk.
      { intros w r w' ->%read_job_world. apply disk_grows_refl. }
      intros job. apply preserves_bind; eauto with disk.
      * destruct (0 <? _)%nat.
        -- apply preserves_bind; eauto with disk.
           { apply createZipArchive_disk_grows. }
           intros zipPath. apply preserves_bind; eauto with disk.
           { apply write_job_disk_grows. }
           intros _. apply preserves_bind; eauto with disk.
           { intros w r w' ->%read_job_world. apply disk_grows_refl. }
           intros job'. apply write_job_disk_grows.
        -- apply preserves_bind; eauto with disk.
           { apply write_job_disk_grows. }
           intros _. apply write_job_disk_grows.
      * intros _. apply preserves_bind; eauto with disk.
        { apply preserves_get; eauto with disk. }
        intros w0. apply write_job_disk_grows.
  - intros e. apply preserves_bind; eauto with disk.
    { apply write_job_disk_grows. }
    intros _. apply preserves_bind; eauto with disk.
    { apply write_job_disk_grows. }
    intros _. apply preserves_bind; eauto with disk.
    { apply preserves_get; eauto with disk. }
    intros w0. apply write_job_disk_grows.
Qed.

Lemma transcodeSync_disk_grows jobId file :
  preserves disk_grows (transcodeSync ffmpeg jobId file).
Proof.
  unfold transcodeSync.
  apply preserves_bind; eauto with disk.
  { apply preserves_get; eauto with disk. }
  intros w. apply preserves_bind; eauto with disk.
  { destruct (negb _); [apply mkdir_from_disk_grows|].
    apply preserves_ret; eauto with disk. }
  intros _. apply preserves_try_catch; eauto with disk.
  - apply preserves_bind; eauto with disk.
    { apply transcodeFile_disk_grows. }
    intros pkg. apply preserves_bind; eauto with disk.
    + intros w0 r w1 Hrun. apply collectHLSFiles_world in Hrun as ->.
      apply disk_grows_refl.
    + intros hlsFiles. apply preserves_ret; eauto with disk.
  - intros e. apply preserves_ret; eauto with disk.
Qed.

End DiskGrows.

(** X11: neither [transcode] nor [transcodeSync] removes anything: a path
    that was on disk when they started, an upload in particular, is on
    disk when they end. *)
Theorem pipeline_never_removes ffmpeg archiver jobId files file w q :
  is_Some (disk w !! q) →
  is_Some (disk (transcode ffmpeg archiver jobId files w).2 !! q) ∧
  is_Some (disk (transcodeSync ffmpeg jobId file w).2 !! q).
Proof.
  intros Hq. split.
  - exact (transcode_disk_grows ffmpeg archiver jobId files w _ _
             (surjective_pairing _) q Hq).
  - exact (transcodeSync_disk_grows ffmpeg jobId file w _ _
             (surjective_pairing _) q Hq).
Qed.

Lemma pipeline_never_removes_witness :
  is_Some (disk (transcode Sample.ffmpeg Sample.archiver "job-1"
                   [Sample.a_mp3; Sample.b_mp3] Sample.boot).2
             !! Upload.path Sample.a_mp3) ∧
  is_Some (disk (transcodeSync Sample.ffmpeg "job-1" Sample.b_mp3
                   Sample.boot).2
             !! Upload.path Sample.b_mp3).
Proof.
  assert (Ha : is_Some (disk Sample.boot !! Upload.path Sample.a_mp3))
    by (exists (File 5000 Opaque); vm_compute; reflexivity).
  assert (Hb : is_Some (disk Sample.boot !! Upload.path Sample.b_mp3))
    by (exists (File 5000 Opaque); vm_compute; reflexivity).
  split.
  - exact (proj1 (pipeline_never_removes Sample.ffmpeg Sample.archiver "job-1"
                    [Sample.a_mp3; Sample.b_mp3] Sample.b_mp3 Sample.boot
                    (Upload.path Sample.a_mp3) Ha)).
  - exact (proj2 (pipeline_never_removes Sample.ffmpeg Sample.archiver "job-1"
                    [Sample.a_mp3; Sample.b_mp3] Sample.b_mp3 Sample.boot
                    (Upload.path Sample.b_mp3) Hb)).
Defined.

(** ** Names the builder does not strip *)

Lemma mkdir_from_blocked_error base pre s post whole w r w' size content :
  post ≠ [] →
  disk w !! (base ++ pre ++ [s])%list = Some (File size content) →
  Fs.mkdir_from base (pre ++ s :: post)%list whole w = (r, w') →
  r = Throw (FsError "ENOTDIR: not a directory" "mkdir" whole).
Proof.
  intros Hpost. revert base w.
  induction pre as [|a pre IH]; intros base w Hfile; simpl.
  - simpl in Hfile. rewrite Hfile. intros [= <- _]. by destruct post.
  - destruct (disk w !! (base ++ [a])%list) as [[|sz c]|] eqn:Hp.
    + apply IH. cbn [disk with_disk]. rewrite lookup_insert_ne.
      * by rewrite <- app_assoc.
      * intros Heq. apply (f_equal length) in Heq.
        rewrite !length_app in Heq. simpl in Heq. lia.
    + intros [= <- _]. by destruct pre.
    + apply IH. cbn [disk with_disk]. rewrite lookup_insert_ne.
      * by rewrite <- app_assoc.
      * intros Heq. apply (f_equal length) in Heq.
        rewrite !length_app in Heq. simpl in Heq. lia.
Qed.

(** A package folder whose path is taken by a regular file: the first
    [mkdirSync] throws, nothing is spawned or written, and every regular
    file stays as it is. *)
Lemma transcodeFile_blocked_run ffmpeg inputPath outputDir fileName
    (dir : Path.t) (s : string) w size content :
  Path.join outputDir (Path.basename fileName ".mp3") = (dir ++ [s])%list →
  disk w !! (dir ++ [s])%list = Some (File size content) →
  let run := transcodeFile ffmpeg inputPath outputDir fileName w in
  run.1 = Throw (FsError "ENOTDIR: not a directory" "mkdir"
                   (dir ++ [s; "low"])%list) ∧
  jobs run.2 = jobs w ∧ trace run.2 = trace w ∧ keeps_files w run.2.
Proof.
  intros Hdir Hfile. cbv zeta.
  destruct (transcodeFile _ _ _ _ w) as [r w'] eqn:Hrun. cbn [fst snd].
  unfold transcodeFile in Hrun. rewrite run_bind, Hdir in Hrun.
  unfold BITRATE_LADDER at 1 in Hrun. cbn [for_of] in Hrun.
  rewrite run_bind in Hrun.
  change (Path.join (dir ++ [s])%list
            (Variant.name (Variant.mk "low" "32k" 48000)))
    with ((dir ++ [s]) ++ ["low"])%list in Hrun.
  rewrite <- app_assoc in Hrun. cbn [app] in Hrun.
  unfold Fs.mkdirSync_recursive in Hrun.
  destruct (Fs.mkdir_from [] (dir ++ [s; "low"])%list _ w) as [r0 w0] eqn:Hmk.
  pose proof (mkdir_from_frame _ _ _ _ _ _ Hmk) as (Hj & Ht & _).
  pose proof (mkdir_from_keeps_files _ _ _ _ _ _ Hmk) as Hk.
  apply (mkdir_from_blocked_error [] dir s ["low"] _ _ _ _ size content)
    in Hmk; [|done|exact Hfile].
  subst r0. injection Hrun as <- <-. done.
Qed.

Lemma basename_without_suffix name :
  slash_free name → Str.endsWith name ".mp3" = false →
  Path.basename name ".mp3" = name.
Proof.
  intros Hfree Hends. unfold Path.basename.
  destruct (String.eqb_spec ".mp3" name) as [<-|_]; [discriminate|].
  rewrite last_portion_free by done. by rewrite Hends.
Qed.

Lemma stored_at_plain jobId originalname :
  plain jobId → plain originalname →
  stored_at jobId originalname = (TEMP_DIR ++ [jobId; originalname])%list.
Proof.
  intros Hj Hn. unfold stored_at. rewrite !join_plain by done.
  by rewrite <- app_assoc.
Qed.

(** X12: the builder strips [.mp3] in lower case only.  An upload stored
    under a name that does not end in it has the upload itself where its
    package folder would be: [transcodeFile] throws from the first
    [mkdirSync], with ffmpeg never started and the upload left as it is. *)
Theorem upload_without_mp3_suffix_never_builds ffmpeg jobId originalname w
    fsize content :
  plain jobId → entry_name originalname →
  Str.endsWith originalname ".mp3" = false →
  disk w !! stored_at jobId originalname = Some (File fsize content) →
  let run :=
    transcodeFile ffmpeg (stored_at jobId originalname)
      (Path.join TEMP_DIR jobId) originalname w in
  run.1 = Throw (FsError "ENOTDIR: not a directory" "mkdir"
                   (stored_at jobId originalname ++ ["low"])%list) ∧
  trace run.2 = trace w ∧
  jobs run.2 = jobs w ∧
  disk run.2 !! stored_at jobId originalname = Some (File fsize content).
Proof.
  intros Hj [Hplain Hfree] Hends Hfile. cbv zeta.
  rewrite stored_at_plain in * by done.
  destruct (transcodeFile_blocked_run ffmpeg
              (TEMP_DIR ++ [jobId; originalname])%list
              (Path.join TEMP_DIR jobId) originalname
              (TEMP_DIR ++ [jobId])%list originalname w fsize content)
    as (Hr & Hjobs & Ht & Hk).
  - rewrite basename_without_suffix by done. by rewrite !join_plain.
  - by rewrite <- app_assoc.
  - rewrite <- !app_assoc in Hr. rewrite <- !app_assoc.
    split; [exact Hr|]. split; [exact Ht|]. split; [exact Hjobs|].
    by apply Hk.
Qed.

Lemma upload_without_mp3_suffix_never_builds_witness :
  let run :=
    transcodeFile Sample.ffmpeg (stored_at "job-1" "track.MP3")
      (Path.join TEMP_DIR "job-1") "track.MP3" Sample.boot_track in
  fileFilter "application/octet-stream" "track.MP3" = true ∧
  run.1 = Throw (FsError "ENOTDIR: not a directory" "mkdir"
                   ["tmp"; "hls-jobs"; "job-1"; "track.MP3"; "low"]) ∧
  trace run.2 = [].
Proof.
  split; [reflexivity|].
  destruct (upload_without_mp3_suffix_never_builds Sample.ffmpeg "job-1"
              "track.MP3" Sample.boot_track 5000 Opaque)
    as (Hr & Ht & _).
  - by repeat split.
  - by repeat split.
  - reflexivity.
  - vm_compute. reflexivity.
  - split; [exact Hr|exact Ht].
Defined.

(** ** The upload filter *)

Lemma append_cons c a b : String c a +:+ b = String c (a +:+ b).
Proof. reflexivity. Qed.

Lemma append_length a b :
  String.length (a +:+ b) = (String.length a + String.length b)%nat.
Proof.
  induction a as [|c a IH]; [done|]. rewrite append_cons. cbn [String.length].
  by rewrite IH.
Qed.

Lemma substring_after a b :
  substring (String.length a) (String.length b) (a +:+ b) = b.
Proof.
  induction a as [|c a IH]; [apply substring_whole|].
  rewrite append_cons. exact IH.
Qed.

Lemma endsWith_app stem suffix : Str.endsWith (stem +:+ suffix) suffix = true.
Proof.
  unfold Str.endsWith. rewrite append_length.
  replace (String.length stem + String.length suffix - String.length suffix)%nat
    with (String.length stem) by lia.
  rewrite substring_after, String.eqb_refl, andb_true_r.
  apply Nat.leb_le. lia.
Qed.

Lemma endsWith_iff s suffix :
  Str.endsWith s suffix = true ↔ ∃ stem, s = stem +:+ suffix.
Proof.
  split.
  - intros H. eexists. by apply endsWith_split.
  - intros [stem ->]. apply endsWith_app.
Qed.

Lemma toLowerCase_app a b :
  toLowerCase (a +:+ b) = toLowerCase a +:+ toLowerCase b.
Proof.
  induction a as [|c a IH]; [done|].
  rewrite append_cons. cbn [toLowerCase]. by rewrite IH, append_cons.
Qed.

Lemma toLowerCase_app_inv s a b :
  toLowerCase s = a +:+ b →
  ∃ s1 s2, s = s1 +:+ s2 ∧ toLowerCase s1 = a ∧ toLowerCase s2 = b.
Proof.
  revert s. induction a as [|c a IH]; intros s Hs.
  - by exists "", s.
  - destruct s as [|d s]; [discriminate|].
    rewrite append_cons in Hs. cbn [toLowerCase] in Hs.
    injection Hs as Hc Hs. destruct (IH s Hs) as (s1 & s2 & -> & <- & <-).
    exists (String d s1), s2. rewrite append_cons. cbn [toLowerCase].
    by rewrite Hc.
Qed.

Lemma lower_inv (c : ascii) :
  (lower c = "." → c = ".")%char ∧
  (lower c = "3" → c = "3")%char ∧
  (lower c = "m" → c = "m" ∨ c = "M")%char ∧
  (lower c = "p" → c = "p" ∨ c = "P")%char.
Proof.
  destruct c as [[] [] [] [] [] [] [] []]; vm_compute;
    repeat split; intros H; try discriminate H; auto.
Qed.

(** X13: the upload filter lets a file through when its declared type is
    [audio/mpeg], whatever its name, or when its name ends in [.mp3]
    written in any mix of cases; nothing else passes. *)
Theorem fileFilter_accepts mimetype originalname :
  fileFilter mimetype originalname = true ↔
  mimetype = "audio/mpeg" ∨
  ∃ stem m p,
    originalname = stem +:+ String "." (String m (String p "3")) ∧
    (m = "m" ∨ m = "M")%char ∧ (p = "p" ∨ p = "P")%char.
Proof.
  unfold fileFilter. rewrite orb_true_iff, String.eqb_eq, endsWith_iff.
  split; (intros [Hm|Hn]; [by left|right]).
  - destruct Hn as [stem Hn].
    apply toLowerCase_app_inv in Hn as (s1 & s2 & -> & _ & Hext).
    destruct s2 as [|c1 [|c2 [|c3 [|c4 [|c5 s2]]]]]; try discriminate Hext.
    cbn [toLowerCase] in Hext. injection Hext as H1 H2 H3 H4.
    apply lower_inv in H1 as ->. apply lower_inv in H4 as ->.
    apply lower_inv in H2. apply lower_inv in H3.
    by exists s1, c2, c3.
  - destruct Hn as (stem & m & p & -> & Hm & Hp).
    exists (toLowerCase stem). rewrite toLowerCase_app. f_equal.
    by destruct Hm as [-> | ->], Hp as [-> | ->].
Qed.

(** ** Jobs of uploads that cannot be built *)

Lemma assign_found_Forall (P : FileEntry.t → Prop) fileName updates files :
  (∀ f, P f → P (assign f updates)) →
  Forall P files → Forall P (assign_found fileName updates files).
Proof.
  intros Hassign Hall. induction Hall as [|f files Hf Hfiles IH]; [constructor|].
  cbn [assign_found]. destruct (String.eqb _ _); constructor; auto.
Qed.

Lemma not_completed_filter (files : list FileEntry.t) :
  Forall (λ f, FileEntry.status f ≠ Completed) files →
  filter is_completed files = [].
Proof.
  intros Hall. induction Hall as [|f files Hf _ IH]; [done|].
  by rewrite filter_cons, decide_False.
Qed.

Lemma unbuildable_keeps jobId w w' file :
  keeps_files w w' → unbuildable jobId w file → unbuildable jobId w' file.
Proof.
  intros Hk (Hn & He & Hp & size & content & Hfile).
  split; [exact Hn|]. split; [exact He|]. split; [exact Hp|].
  exists size, content. by apply Hk.
Qed.

Lemma updateFileStatus_disk jobId fileName updates w :
  disk (updateFileStatus jobId fileName updates w) = disk w.
Proof. apply updateFileStatus_world. Qed.

Lemma updateFileStatus_trace jobId fileName updates w :
  trace (updateFileStatus jobId fileName updates w) = trace w.
Proof. apply updateFileStatus_world. Qed.

Section Unbuildable.

Variable ffmpeg : World → FFmpegArgs.t → FFmpegRun.t.
Variable archiver : World → Path.t → list Path.t → ArchiverRun.

Lemma transcode_one_unbuildable jobId file w job :
  plain jobId → unbuildable jobId w file →
  jobs w !! jobId = Some job →
  Forall (λ f, FileEntry.status f ≠ Completed) (Job.files job) →
  ∃ w' job',
    transcode_one ffmpeg jobId (Path.join TEMP_DIR jobId) file w = (Ok tt, w') ∧
    jobs w' !! jobId = Some job' ∧
    Forall (λ f, FileEntry.status f ≠ Completed) (Job.files job') ∧
    trace w' = trace w ∧ keeps_files w w'.
Proof.
  intros Hid ([Hplain Hfree] & Hends & Hpath & size & content & Hfile) Hjob Hall.
  rewrite transcode_one_run.
  set (w1 := updateFileStatus _ _ update_processing w).
  destruct (updateFileStatus_world jobId (Upload.originalName file)
              update_processing w) as (Hd1 & Ht1 & _). fold w1 in Hd1, Ht1.
  rewrite Hpath, stored_at_plain in Hfile by done.
  destruct (transcodeFile_blocked_run ffmpeg (Upload.path file)
              (Path.join TEMP_DIR jobId) (Upload.originalName file)
              (TEMP_DIR ++ [jobId])%list (Upload.originalName file) w1
              size content)
    as (Hr & Hjobs & Ht & Hk).
  { rewrite basename_without_suffix by done. by rewrite !join_plain. }
  { by rewrite Hd1, <- app_assoc. }
  destruct (transcodeFile _ _ _ _ w1) as [r w2]. cbn [fst snd] in *. subst r.
  eexists _, _. split; [reflexivity|]. split; [|split; [|split]].
  - rewrite updateFileStatus_lookup, decide_True, Hjobs by done.
    subst w1. rewrite updateFileStatus_lookup, decide_True, Hjob by done.
    reflexivity.
  - cbn [Job.files Job.set_files Job.set_completedFiles Job.set_failedFiles].
    apply assign_found_Forall; [by intros f _|].
    apply assign_found_Forall; [by intros f _|]. exact Hall.
  - by rewrite updateFileStatus_trace, Ht, Ht1.
  - intros q s c Hq. rewrite updateFileStatus_disk. apply Hk. by rewrite Hd1.
Qed.

Lemma job_loop_unbuildable jobId files w job :
  plain jobId → Forall (unbuildable jobId w) files →
  jobs w !! jobId = Some job →
  Forall (λ f, FileEntry.status f ≠ Completed) (Job.files job) →
  ∃ w' job',
    for_of files (transcode_one ffmpeg jobId (Path.join TEMP_DIR jobId)) w
      = (Ok tt, w') ∧
    jobs w' !! jobId = Some job' ∧
    Forall (λ f, FileEntry.status f ≠ Completed) (Job.files job') ∧
    trace w' = trace w ∧ keeps_files w w'.
Proof.
  intros Hid. revert w job.
  induction files as [|file files IH]; intros w job Hfiles Hjob Hall.
  - exists w, job. split; [done|]. split; [done|]. split; [done|]. split; [done|]. apply keeps_files_refl.
  - apply Forall_cons in Hfiles as [Hfile Hfiles].
    cbn [for_of]. rewrite run_bind.
    destruct (transcode_one_unbuildable jobId file w job Hid Hfile Hjob Hall)
      as (w1 & job1 & -> & Hjob1 & Hall1 & Ht1 & Hk1).
    destruct (IH w1 job1) as (w' & job' & Hloop & Hjob' & Hall' & Ht' & Hk');
      [|done|done|].
    { eapply Forall_impl; [exact Hfiles|]. intros f. by apply unbuildable_keeps. }
    exists w', job'. split; [exact Hloop|]. split; [exact Hjob'|].
    split; [exact Hall'|]. split; [by rewrite Ht', Ht1|].
    by eapply keeps_files_trans.
Qed.

(** X14: a job whose uploads all carry names the builder does not strip
    ends failed with the all-files-failed message: no entry is completed,
    ffmpeg and the archiver are never started, and the uploads are still
    where the server stored them. *)
Theorem job_of_unbuildable_uploads_fails jobId files w :
  plain jobId → Forall (unbuildable jobId w) files →
  let run := transcode ffmpeg archiver jobId files w in
  ∃ job,
    run.1 = Ok job ∧
    Job.status job = JobFailed ∧
    Job.error job = Some "All files failed to transcode" ∧
    Job.completedFiles job = 0%nat ∧
    Job.zipPath job = None ∧
    trace run.2 = trace w ∧
    Forall (unbuildable jobId run.2) files.
Proof.
  intros Hid Hfiles run.
  destruct (transcode_run ffmpeg archiver jobId files w)
    as (job2 & job & Hjob2 & Hr & _ & _ & Hc & _ & Hok & Hcase).
  fold run in Hr, Hcase.
  destruct (initJob jobId files w) as [r0 w1] eqn:Hinit.
  pose proof Hinit as Hinit'. unfold initJob in Hinit'.
  injection Hinit' as <- <-. cbn [snd] in Hjob2, Hcase.
  set (job0 := Job.mk jobId JobProcessing (now w) _ _ _ _ _ _) in *.
  destruct (job_loop_unbuildable jobId files
              (with_jobs (insert jobId job0) w) job0 Hid)
    as (w2 & job2' & Hloop & Hjob2' & Hall & Ht & Hk).
  { exact Hfiles. }
  { cbn [jobs with_jobs]. by rewrite lookup_insert_eq. }
  { subst job0. cbn [Job.files]. apply Forall_fmap, Forall_forall.
    by intros f _. }
  rewrite Hloop in Hjob2, Hcase. cbn [snd] in Hjob2, Hcase.
  assert (job2' = job2) as -> by congruence.
  pose proof (not_completed_filter _ Hall) as Hnone.
  rewrite Hnone in Hcase. cbn [length] in Hcase.
  destruct Hcase as (Hs & He & Hz & _ & Hd & Htr).
  exists job. split; [exact Hr|]. split; [exact Hs|]. split; [exact He|].
  split; [|split; [exact Hz|split]].
  - rewrite Hc. destruct Hok as (-> & _). by rewrite Hnone.
  - by rewrite Htr, Ht.
  - eapply Forall_impl; [exact Hfiles|]. intros f (Hn & Hends & Hp & s & c & Hf).
    split; [exact Hn|]. split; [exact Hends|]. split; [exact Hp|].
    exists s, c. rewrite Hd. by apply Hk.
Qed.

End Unbuildable.

Lemma job_of_unbuildable_uploads_fails_witness :
  let run :=
    transcode Sample.ffmpeg Sample.archiver "job-1" [Sample.track_MP3]
      Sample.boot_track in
  fileFilter "audio/mpeg" (Upload.originalName Sample.track_MP3) = true ∧
  ∃ job, run.1 = Ok job ∧ Job.status job = JobFailed ∧ trace run.2 = [].
Proof.
  split; [reflexivity|].
  destruct (job_of_unbuildable_uploads_fails Sample.ffmpeg Sample.archiver
              "job-1" [Sample.track_MP3] Sample.boot_track)
    as (job & Hr & Hs & _ & _ & _ & Ht & _).
  - by repeat split.
  - repeat constructor; try discriminate.
    exists 5000%N, Opaque. vm_compute. reflexivity.
  - exists job. split; [exact Hr|]. split; [exact Hs|exact Ht].
Defined.

(** ** The synchronous path *)

Lemma collectHLSFiles_Ok hlsDir w files w' :
  collectHLSFiles hlsDir w = (Ok files, w') →
  w' = w ∧
  ∀ f, f ∈ files ↔
    ∃ rel size content,
      rel ≠ [] ∧
      disk w !! (hlsDir ++ rel)%list = Some (File size content) ∧
      f = HlsFile.mk (String.concat "/" rel) (hlsDir ++ rel)%list size.
Proof.
  unfold collectHLSFiles. rewrite run_bind. unfold Fs.readdirSync.
  destruct (disk w !! hlsDir) as [[|]|]; try discriminate.
  rewrite run_bind. cbn [get]. intros [= <- <-]. split; [done|].
  intros f. rewrite list_elem_of_omap. split.
  - intros (rel & Hrel & Hf). apply elem_of_descendants in Hrel as [Hne _].
    destruct (disk w !! (hlsDir ++ rel)%list) as [[|size content]|] eqn:Hn;
      try discriminate.
    injection Hf as <-. by exists rel, size, content.
  - intros (rel & size & content & Hne & Hn & ->). exists rel. split.
    + apply elem_of_descendants. split; [done|]. by rewrite Hn.
    + by rewrite Hn.
Qed.

Section SyncFiles.

Variable ffmpeg : World → FFmpegArgs.t → FFmpegRun.t.

Lemma transcodeFile_manifest inputPath outputDir fileName w pkg w' :
  transcodeFile ffmpeg inputPath outputDir fileName w = (Ok pkg, w') →
  disk w' !! (Package.hlsDir pkg ++ ["master.m3u8"])%list =
    Some (File master_playlist_size MasterPlaylist).
Proof.
  unfold transcodeFile. intros Hrun.
  apply bind_Ok in Hrun as (? & w0 & _ & Hrun).
  apply bind_Ok in Hrun as (acc & w1 & _ & Hrun).
  apply bind_Ok in Hrun as (? & w2 & Hwr & Hrun).
  injection Hrun as <- <-. cbn [Package.hlsDir].
  apply writeFileSync_run in Hwr. subst w2. rewrite join_manifest.
  cbn [disk emit with_disk]. by rewrite lookup_insert_eq.
Qed.

(** X15: what a successful [transcodeSync] returns.  The folder is the
    upload's name without [.mp3]; the files are exactly the regular files
    below the package folder as they are on disk when it returns, each
    with its size and with its path below the folder as name; the master
    playlist is one of them; the segment count is the sum over the
    variants, of which there is one per ladder rung. *)
Theorem transcodeSync_success_lists_package jobId file w w'
    folder count files variants multi :
  transcodeSync ffmpeg jobId file w =
    (Ok (SyncResult.Success folder count files variants multi), w') →
  let hlsDir := Path.join (Path.join TEMP_DIR jobId) folder in
  folder = Path.basename (Upload.originalName file) ".mp3" ∧
  (∀ f, f ∈ files ↔
     ∃ rel size content,
       rel ≠ [] ∧
       disk w' !! (hlsDir ++ rel)%list = Some (File size content) ∧
       f = HlsFile.mk (String.concat "/" rel) (hlsDir ++ rel)%list size) ∧
  HlsFile.mk "master.m3u8" (hlsDir ++ ["master.m3u8"])%list
    master_playlist_size ∈ files ∧
  count = sum_list_with VariantInfo.segmentCount variants ∧
  map VariantInfo.name variants = map Variant.name BITRATE_LADDER ∧
  multi = true.
Proof.
  intros Hrun hlsDir. unfold transcodeSync in Hrun.
  apply bind_Ok in Hrun as (? & ? & [= <- <-] & Hrun).
  apply bind_Ok in Hrun as ([] & w0 & _ & Hrun).
  unfold try_catch in Hrun. rewrite run_bind in Hrun.
  destruct (transcodeFile _ _ _ _ w0) as [[pkg|e] w1] eqn:Hbuild;
    [|discriminate].
  rewrite run_bind in Hrun.
  destruct (collectHLSFiles _ w1) as [[hlsFiles|e] w2] eqn:Hcollect;
    [|discriminate].
  injection Hrun as <- <- <- <- <- <-.
  apply collectHLSFiles_Ok in Hcollect as [-> Hfiles].
  pose proof (transcodeFile_result _ _ _ _ _ _ _ Hbuild) as (Hf & Hd & Hv & Hc).
  pose proof (transcodeFile_manifest _ _ _ _ _ _ Hbuild) as Hm.
  assert (Hdir : Package.hlsDir pkg = hlsDir) by (subst hlsDir; by rewrite Hd, Hf).
  rewrite Hdir in Hfiles, Hm.
  split; [exact Hf|]. split; [exact Hfiles|].
  split; [|done].
  apply Hfiles. by exists ["master.m3u8"], master_playlist_size, MasterPlaylist.
Qed.

(** X16: the sweep goes by the map, and [transcodeSync] makes no entry:
    what it leaves under the job directory, the upload and the package, is
    left there by every later sweep, whatever the age limit and however
    late the sweep runs. *)
Theorem sync_output_is_never_swept jobId file w :
  plain jobId →
  jobs w !! jobId = None →
  (∀ id, is_Some (jobs w !! id) → plain id) →
  let w1 := (transcodeSync ffmpeg jobId file w).2 in
  getJobStatus jobId w1 = None ∧
  ∀ maxAgeMinutes elapsed rest,
    disk (cleanupOldJobs maxAgeMinutes (tick elapsed w1))
      !! (TEMP_DIR ++ jobId :: rest)%list =
    disk w1 !! (TEMP_DIR ++ jobId :: rest)%list.
Proof.
  intros Hid Hnone Hplain w1.
  assert (Hjobs : jobs w1 = jobs w).
  { exact (transcodeSync_jobs ffmpeg jobId file w _ _ (surjective_pairing _)). }
  split; [unfold getJobStatus; by rewrite Hjobs|].
  intros maxAgeMinutes elapsed rest.
  apply (sweep_keeps_dir _ _ (map_to_list (jobs w1)) (tick elapsed w1)).
  - intros id' job Hin. apply elem_of_map_to_list in Hin.
    apply Hplain. rewrite <- Hjobs. eauto.
  - intros job Hin. apply elem_of_map_to_list in Hin. congruence.
Qed.

End SyncFiles.

Lemma transcodeSync_success_lists_package_witness :
  let run := transcodeSync Sample.ffmpeg "job-1" Sample.a_mp3 Sample.boot in
  ∃ count files variants,
    run.1 = Ok (SyncResult.Success "a" count files variants true) ∧
    HlsFile.mk "master.m3u8" (Sample.jobDir ++ ["a"; "master.m3u8"])%list 376
      ∈ files.
Proof.
  intros run.
  destruct run.1 as [[folder count files variants multi|err]|e] eqn:Hr;
    [|vm_compute in Hr; discriminate..].
  pose proof (transcodeSync_success_lists_package Sample.ffmpeg "job-1"
                Sample.a_mp3 Sample.boot run.2 folder count files variants multi)
    as Hsync.
  destruct Hsync as (Hf & _ & Hm & _ & _ & Hmulti).
  { rewrite <- Hr. apply surjective_pairing. }
  subst multi. assert (folder = "a") as -> by (rewrite Hf; reflexivity).
  exists count, files, variants. split; [reflexivity|]. exact Hm.
Defined.

Lemma sync_output_is_never_swept_witness :
  let w1 :=
    (transcodeSync Sample.ffmpeg "job-sync" Sample.b_mp3 Sample.two_jobs).2 in
  disk (cleanupOldJobs 60 (tick 86400000 w1))
    !! ["tmp"; "hls-jobs"; "job-sync"; "b"; "low"] =
  disk w1 !! ["tmp"; "hls-jobs"; "job-sync"; "b"; "low"].
Proof.
  apply (sync_output_is_never_swept Sample.ffmpeg "job-sync" Sample.b_mp3
           Sample.two_jobs).
  - by repeat split.
  - reflexivity.
  - intros id [job Hjob]. unfold Sample.two_jobs in Hjob. cbn [jobs] in Hjob.
    rewrite lookup_insert in Hjob. case_decide; [subst; by repeat split|].
    rewrite lookup_insert in Hjob. case_decide; [subst; by repeat split|].
    by rewrite lookup_empty in Hjob.
Defined.

(** ** One encode *)






(** Listings. *)

Lemma child_key (dir : Path.t) (kv : list string * Node) (n : string) :
  match Fs.strip_prefix dir kv.1 with Some [n] => Some n | _ => None end
    = Some n →
  kv.1 = (dir ++ [n])%list.
Proof.
  destruct (Fs.strip_prefix dir kv.1) as [[|m [|]]|] eqn:Hs; try discriminate.
  intros [= ->]. by apply strip_prefix_Some.
Qed.

Lemma NoDup_children (dir : Path.t) (d : gmap (list string) Node) :
  NoDup (Fs.children dir d).
Proof.
  unfold Fs.children. pose proof (NoDup_fst_map_to_list d) as Hnd.
  induction (map_to_list d) as [|kv l IH]; [constructor|].
  cbn [fmap list_fmap] in Hnd. apply NoDup_cons in Hnd as [Hkv Hnd].
  cbn [omap list_omap].
  destruct (match Fs.strip_prefix dir kv.1 with
            | Some [n] => Some n | _ => None end) as [n|] eqn:Hn; [|by apply IH].
  apply NoDup_cons. split; [|by apply IH].
  intros Hin. apply list_elem_of_omap in Hin as (kv' & Hkv' & Hn').
  apply child_key in Hn, Hn'. apply Hkv. rewrite Hn, <- Hn'.
  by apply list_elem_of_fmap_2.
Qed.

Lemma children_Permutation (dir : Path.t) (d d' : gmap (list string) Node) :
  (∀ n, is_Some (d' !! (dir ++ [n])%list) ↔ is_Some (d !! (dir ++ [n])%list)) →
  Fs.children dir d' ≡ₚ Fs.children dir d.
Proof.
  intros Hsame. apply NoDup_Permutation; [apply NoDup_children..|].
  intros n. by rewrite !elem_of_children.
Qed.

Lemma filter_length_Permutation {A} (f : A → bool) (l k : list A) :
  l ≡ₚ k → length (List.filter f l) = length (List.filter f k).
Proof.
  induction 1 as [|x l k _ IH|x y l|l k m _ IH1 _ IH2]; simpl.
  - done.
  - destruct (f x); simpl; by rewrite IH.
  - by destruct (f x), (f y).
  - by rewrite IH1.
Qed.

Lemma segments_in_ext (dir : Path.t) (d d' : gmap (list string) Node) :
  (∀ n, d' !! (dir ++ [n])%list = d !! (dir ++ [n])%list) →
  segments_in dir d' = segments_in dir d.
Proof.
  intros Hsame. unfold segments_in. apply filter_length_Permutation.
  apply children_Permutation. intros n. by rewrite Hsame.
Qed.

Lemma write_outputs_entry (dir : Path.t) (written : list (string * N))
    (d : gmap (list string) Node) (n : string) :
  is_Some (write_outputs dir written d !! (dir ++ [n])%list) ↔
  is_Some (d !! (dir ++ [n])%list) ∨ n ∈ written.*1.
Proof.
  unfold write_outputs. revert d.
  induction written as [|f written IH]; intros d; cbn [foldl fmap list_fmap].
  - rewrite elem_of_nil. tauto.
  - rewrite IH, elem_of_cons.
    destruct (decide (n = f.1)) as [->|Hne].
    + rewrite lookup_insert_eq. split; [intros _; right; by left|].
      intros _. left. eauto.
    + rewrite lookup_insert_ne by (intros Heq; by simplify_list_eq).
      tauto.
Qed.

Lemma dir_not_entry (dir : Path.t) (n : string) : dir ≠ (dir ++ [n])%list.
Proof.
  intros Heq. apply (f_equal length) in Heq. rewrite length_app in Heq.
  simpl in Heq. lia.
Qed.

Section Counting.

Variable ffmpeg : World → FFmpegArgs.t → FFmpegRun.t.

(** What a rung's encode returns is the count of the listing of its
    directory in the world it leaves. *)
Lemma transcodeVariant_Ok inputPath outputDir bitrate w res w' :
  transcodeVariant ffmpeg inputPath outputDir bitrate w = (Ok res, w') →
  res = VariantResult.mk true (segments_in outputDir (disk w')) ∧
  disk w' =
    write_outputs outputDir
      (FFmpegRun.written (ffmpeg w (variant_args inputPath outputDir bitrate)))
      (disk w).
Proof.
  unfold transcodeVariant. rewrite run_bind. cbn [get]. rewrite run_bind.
  cbn [modify]. fold (variant_args inputPath outputDir bitrate).
  set (run := ffmpeg w _). set (w1 := tick _ _).
  destruct (FFmpegRun.exit run) as [code| |msg]; [|discriminate..].
  destruct (code =? 0); [|discriminate].
  rewrite run_bind. unfold Fs.readdirSync.
  destruct (disk w1 !! outputDir) as [[|]|]; try discriminate.
  intros [= <- <-]. done.
Qed.

(** X18: on exit code 0 the segment count is read off the directory, not
    off what this run wrote: it is the number of distinct names ending in
    [.ts] that the output directory holds afterwards, those that were
    there before the run as well as those ffmpeg left. *)
Theorem transcodeVariant_counts_directory inputPath outputDir bitrate w :
  let run := ffmpeg w (variant_args inputPath outputDir bitrate) in
  let out := transcodeVariant ffmpeg inputPath outputDir bitrate w in
  FFmpegRun.exit run = ExitCode 0 →
  disk w !! outputDir = Some Dir →
  ∃ names,
    out.1 = Ok (VariantResult.mk true (length names)) ∧
    NoDup names ∧
    ∀ n, n ∈ names ↔
         Str.endsWith n ".ts" = true ∧
         (is_Some (disk w !! (outputDir ++ [n])%list) ∨
          n ∈ (FFmpegRun.written run).*1).
Proof.
  intros run out Hexit Hdir. subst out.
  exists (List.filter (λ f, Str.endsWith f ".ts")
            (Fs.children outputDir
               (write_outputs outputDir (FFmpegRun.written run) (disk w)))).
  split; [|split].
  - unfold transcodeVariant. rewrite run_bind. cbn [get]. rewrite run_bind.
    cbn [modify]. fold (variant_args inputPath outputDir bitrate). fold run.
    rewrite Hexit. cbn [Z.eqb]. rewrite run_bind. unfold Fs.readdirSync.
    cbn [disk tick with_disk emit].
    rewrite write_outputs_lookup by apply dir_not_entry. by rewrite Hdir.
  - apply NoDup_ListNoDup, List.NoDup_filter, NoDup_ListNoDup, NoDup_children.
  - intros n. rewrite list_elem_of_In, List.filter_In, <- list_elem_of_In.
    rewrite elem_of_children, write_outputs_entry. tauto.
Qed.

End Counting.

Lemma transcodeVariant_counts_directory_witness :
  ∃ names,
    (transcodeVariant Sample.ffmpeg (Upload.path Sample.a_mp3) Sample.jobDir
       "32k" Sample.boot).1 = Ok (VariantResult.mk true (length names)) ∧
    "segment_001.ts" ∈ names ∧ "index.m3u8" ∉ names.
Proof.
  assert (Hexit : FFmpegRun.exit
            (Sample.ffmpeg Sample.boot
               (variant_args (Upload.path Sample.a_mp3) Sample.jobDir "32k"))
          = ExitCode 0) by reflexivity.
  assert (Hdir : disk Sample.boot !! Sample.jobDir = Some Dir)
    by (vm_compute; reflexivity).
  destruct (transcodeVariant_counts_directory Sample.ffmpeg
              (Upload.path Sample.a_mp3) Sample.jobDir "32k" Sample.boot
              Hexit Hdir)
    as (names & Hr & _ & Hnames).
  exists names. split; [exact Hr|]. split.
  - apply Hnames. split; [reflexivity|]. right.
    apply (bool_decide_unpack _). vm_compute. exact I.
  - intros Hin. apply Hnames in Hin as [Hends _]. discriminate Hends.
Defined.

(** ** The variants of a package *)

Lemma ladder_names_NoDup : NoDup (map Variant.name BITRATE_LADDER).
Proof. apply (bool_decide_unpack _). vm_compute. exact I. Qed.

Section LadderInfo.

Variable ffmpeg : World → FFmpegArgs.t → FFmpegRun.t.
Variables inputPath hlsDir : Path.t.

Lemma encode_ladder_infos ladder acc w acc' w' :
  NoDup (map Variant.name ladder) →
  (∀ v, v ∈ ladder → plain (Variant.name v)) →
  encode_ladder ffmpeg inputPath hlsDir ladder acc w = (Ok acc', w') →
  acc'.1 = (acc.1 ++ map (variant_info hlsDir (disk w')) ladder)%list.
Proof.
  revert acc w. induction ladder as [|v ladder IH]; intros acc w Hnd Hplain.
  - intros [= <- _]. by rewrite app_nil_r.
  - cbn [encode_ladder]. intros Hrun.
    apply bind_Ok in Hrun as (res & w1 & Hvar & Hrest).
    cbn [map] in Hnd. apply NoDup_cons in Hnd as [Hv Hnd].
    pose proof (encode_ladder_frame _ _ _ _ _ _ _ _ Hrest) as [_ Hframe].
    apply IH in Hrest; [|done|intros v' Hv'; apply Hplain; by right].
    rewrite Hrest. cbn [fst map]. rewrite <- app_assoc. cbn [app].
    do 2 f_equal. apply transcodeVariant_Ok in Hvar as [-> _].
    unfold variant_info. cbn [VariantResult.segmentCount]. f_equal.
    rewrite join_plain by (apply Hplain; by left).
    symmetry. apply segments_in_ext. intros n. apply Hframe.
    intros v' n' Hv'. rewrite join_plain by (apply Hplain; by right).
    intros Heq. apply Hv. simplify_list_eq.
    apply list_elem_of_fmap. by exists v'.
Qed.

End LadderInfo.

(** X19: the variants a successful build reports are the four rungs in
    ladder order: label, bitrate as the number in front of the [k],
    bandwidth, and as segment count the number of [.ts] entries the rung's
    directory holds when the build returns. *)
Theorem package_variants_follow_ladder ffmpeg inputPath outputDir fileName
    w pkg w' :
  transcodeFile ffmpeg inputPath outputDir fileName w = (Ok pkg, w') →
  Package.variants pkg =
    map (variant_info (Package.hlsDir pkg) (disk w')) BITRATE_LADDER ∧
  map (λ i, (VariantInfo.name i, VariantInfo.bitrate i, VariantInfo.bandwidth i))
    (Package.variants pkg) =
    [ ("low", Some 32%N, 48000%N); ("medium", Some 64%N, 96000%N);
      ("high", Some 96%N, 144000%N); ("premium", Some 128%N, 192000%N) ].
Proof.
  unfold transcodeFile. intros Hrun.
  apply bind_Ok in Hrun as ([] & w0 & _ & Hrun).
  apply bind_Ok in Hrun as (acc & w1 & Henc & Hrun).
  apply bind_Ok in Hrun as ([] & w2 & Hwr & Hret).
  injection Hret as <- <-. cbn [Package.variants Package.hlsDir].
  apply writeFileSync_run in Hwr. subst w2.
  apply encode_ladder_infos in Henc;
    [|apply ladder_names_NoDup|apply ladder_names_plain].
  cbn [fst app] in Henc.
  split.
  - rewrite Henc. apply map_ext_in. intros v _. unfold variant_info. f_equal.
    symmetry. apply segments_in_ext. intros n. cbn [disk emit with_disk].
    rewrite join_manifest. apply lookup_insert_ne, manifest_not_in_rung.
  - rewrite Henc. reflexivity.
Qed.

Lemma package_variants_follow_ladder_witness :
  let run :=
    transcodeFile Sample.ffmpeg (Upload.path Sample.a_mp3) Sample.jobDir
      "a.mp3" Sample.boot in
  ∃ pkg, run.1 = Ok pkg ∧
         map VariantInfo.bitrate (Package.variants pkg) =
           [Some 32%N; Some 64%N; Some 96%N; Some 128%N].
Proof.
  intros run.
  destruct run.1 as [pkg|e] eqn:Hr; [|vm_compute in Hr; discriminate].
  exists pkg. split; [reflexivity|].
  destruct (package_variants_follow_ladder Sample.ffmpeg
              (Upload.path Sample.a_mp3) Sample.jobDir "a.mp3" Sample.boot
              pkg run.2) as [_ Hmeta].
  { rewrite <- Hr. apply surjective_pairing. }
  apply (f_equal (map (λ t, t.1.2))) in Hmeta. rewrite map_map in Hmeta.
  exact Hmeta.
Defined.

(** ** The master playlist *)

(** X20: the master playlist goes with the ladder.  Its URIs are, in ladder
    order, the index files the encodes write, each relative to the package
    folder; its stream tags carry the bandwidths of the rungs in the same
    order; and its text has the length the manifest is written with. *)
Theorem master_playlist_lists_ladder (inputPath hlsDir : Path.t) :
  playlist_uris master_playlist_lines =
    map (λ v, String.concat "/" [Variant.name v; "index.m3u8"]) BITRATE_LADDER ∧
  playlist_stream_tags master_playlist_lines =
    map (λ v, "#EXT-X-STREAM-INF:BANDWIDTH=" +:+ pretty (Variant.bandwidth v)
              +:+ ",CODECS=" +:+ double_quote +:+ "mp4a.40.2" +:+ double_quote)
      BITRATE_LADDER ∧
  Forall (λ v,
    FFmpegArgs.output
      (variant_args inputPath (Path.join hlsDir (Variant.name v))
         (Variant.bitrate v))
    = (hlsDir ++ [Variant.name v; "index.m3u8"])%list) BITRATE_LADDER ∧
  N.of_nat (String.length generateMasterPlaylist) = master_playlist_size.
Proof.
  split; [vm_compute; reflexivity|]. split; [vm_compute; reflexivity|].
  split; [|vm_compute; reflexivity].
  apply Forall_forall. intros v Hv. cbn [variant_args FFmpegArgs.output].
  rewrite !join_plain by (by apply ladder_names_plain || by repeat split).
  by rewrite <- app_assoc.
Qed.

(** ** The job run around its awaited calls *)

Lemma transcode_is_transcode_with ffmpeg archiver jobId files :
  transcode ffmpeg archiver jobId files =
  transcode_with
    (λ file, transcodeFile ffmpeg (Upload.path file) (Path.join TEMP_DIR jobId)
               (Upload.originalName file))
    (createZipArchive archiver jobId (Path.join TEMP_DIR jobId))
    jobId files.
Proof. reflexivity. Qed.

Lemma same_entry_same_jobs jobId w w' : same_jobs w w' → same_entry jobId w w'.
Proof. unfold same_jobs, same_entry. by intros ->. Qed.

Section AwaitedRun.

Variable build : Upload.t → M Package.t.
Variable archive : M Path.t.
Variable jobId : string.

Hypothesis build_leaves_entry : ∀ file, preserves (same_entry jobId) (build file).
Hypothesis archive_leaves_entry : preserves (same_entry jobId) archive.

(** One turn of the loop, as a composition of its three steps. *)
Lemma transcode_one_with_run file w :
  let fileName := Upload.originalName file in
  let w1 := updateFileStatus jobId fileName update_processing w in
  let run := build file w1 in
  transcode_one_with build jobId file w =
    (Ok tt, updateFileStatus jobId fileName (closing_update run.1) run.2).
Proof.
  intros fileName w1 run. subst run w1 fileName.
  unfold transcode_one_with, update_processing. rewrite run_bind.
  cbn [modify]. unfold try_catch. rewrite run_bind.
  by destruct (build _ _) as [[pkg|e] w2].
Qed.

Lemma transcode_one_with_entries file w job :
  jobs w !! jobId = Some job →
  ∃ w' job' u2,
    transcode_one_with build jobId file w = (Ok tt, w') ∧
    jobs w' !! jobId = Some job' ∧
    (Updates.status u2 = Some Completed ∨ Updates.status u2 = Some Failed) ∧
    Job.files job' =
      assign_found (Upload.originalName file) u2
        (assign_found (Upload.originalName file) update_processing
           (Job.files job)) ∧
    Job.status job' = Job.status job ∧
    Job.zipPath job' = Job.zipPath job ∧
    Job.error job' = Job.error job ∧
    counts_ok job'.
Proof.
  intros Hjob. rewrite transcode_one_with_run.
  set (w1 := updateFileStatus _ _ update_processing w).
  destruct (build file w1) as [r w2] eqn:Hrun. cbn [fst snd].
  pose proof (build_leaves_entry file _ _ _ Hrun) as Hsame.
  unfold same_entry in Hsame.
  eexists _, _, (closing_update r). split; [reflexivity|].
  split.
  { rewrite updateFileStatus_lookup, decide_True, Hsame by done.
    subst w1. rewrite updateFileStatus_lookup, decide_True, Hjob by done.
    reflexivity. }
  split; [apply closing_update_settles|].
  repeat (split; [reflexivity|]). by apply counts_ok_intro.
Qed.

Lemma job_loop_with_entries files w job done :
  jobs w !! jobId = Some job →
  entries_after done (Job.files job) →
  ∃ w' job',
    for_of files (transcode_one_with build jobId) w = (Ok tt, w') ∧
    jobs w' !! jobId = Some job' ∧
    map FileEntry.name (Job.files job') = map FileEntry.name (Job.files job) ∧
    entries_after (rev (map Upload.originalName files) ++ done)%list
      (Job.files job') ∧
    Job.status job' = Job.status job ∧
    Job.zipPath job' = Job.zipPath job ∧
    Job.error job' = Job.error job ∧
    (counts_ok job → counts_ok job').
Proof.
  revert w job done.
  induction files as [|file files IH]; intros w job done Hjob Hinv.
  - exists w, job. by repeat (split; [done|]).
  - cbn [for_of]. rewrite run_bind.
    destruct (transcode_one_with_entries file w job Hjob)
      as (w1 & job1 & u2 & -> & Hjob1 & Hu2 & Hfiles1 & Hs1 & Hz1 & He1 & Hok1).
    destruct (IH w1 job1 (Upload.originalName file :: done) Hjob1)
      as (w' & job' & Hloop & Hjob' & Hnames & Hinv' & Hs & Hz & He & Hok).
    { rewrite Hfiles1. by apply entries_after_step. }
    exists w', job'. split; [exact Hloop|]. split; [exact Hjob'|].
    split; [by rewrite Hnames, Hfiles1, !assign_found_names|].
    split; [cbn [map rev]; by rewrite <- app_assoc|].
    split; [congruence|]. split; [congruence|]. split; [congruence|]. auto.
Qed.

(** What a run returns and leaves, in terms of the world [w2] the loop
    left and of the archive step taken there. *)
Lemma transcode_with_run files w :
  let w2 :=
    (for_of files (transcode_one_with build jobId) (initJob jobId files w).2).2 in
  let run := transcode_with build archive jobId files w in
  ∃ job2 job,
    jobs w2 !! jobId = Some job2 ∧
    run.1 = Ok job ∧
    jobs run.2 !! jobId = Some job ∧
    Job.files job = Job.files job2 ∧
    Job.completedFiles job = Job.completedFiles job2 ∧
    Job.failedFiles job = Job.failedFiles job2 ∧
    counts_ok job2 ∧
    map FileEntry.name (Job.files job2) = map Upload.originalName files ∧
    entries_after (map FileEntry.name (Job.files job2)) (Job.files job2) ∧
    match length (filter is_completed (Job.files job2)) with
    | O =>
        Job.status job = JobFailed ∧
        Job.error job = Some "All files failed to transcode" ∧
        Job.zipPath job = None ∧
        disk run.2 = disk w2
    | S _ =>
        let zip := archive w2 in
        disk run.2 = disk zip.2 ∧
        match zip.1 with
        | Ok zipPath =>
            Job.zipPath job = Some zipPath ∧
            Job.error job = None ∧
            Job.status job =
              if (0 <? Job.failedFiles job2)%nat
              then JobCompletedWithErrors else JobCompleted
        | Throw e =>
            Job.status job = JobFailed ∧
            Job.error job = Some (message e) ∧
            Job.zipPath job = None
        end
    end.
Proof.
  intros w2 run.
  destruct (initJob jobId files w) as [r0 w1] eqn:Hinit.
  pose proof Hinit as Hinit'. unfold initJob in Hinit'.
  injection Hinit' as <- <-.
  set (job0 := Job.mk jobId JobProcessing (now w) _ _ _ _ _ _) in *.
  destruct (job_loop_with_entries files (with_jobs (insert jobId job0) w) job0 [])
    as (w2' & job2 & Hloop & Hjob2 & Hnames & Hinv & Hs2 & Hz2 & He2 & Hok2).
  { cbn [jobs with_jobs]. by rewrite lookup_insert_eq. }
  { apply entries_after_init. }
  assert (Hok0 : counts_ok job0).
  { destruct (initJob_counts_ok jobId files w) as (j & Hj & Hok).
    rewrite Hinit in Hj. by injection Hj as <-. }
  specialize (Hok2 Hok0).
  assert (Hw2 : w2 = w2') by (subst w2; cbn [snd]; by rewrite Hloop).
  clearbody w2. subst w2'.
  assert (Hn : map FileEntry.name (Job.files job2) = map Upload.originalName files).
  { rewrite Hnames. subst job0. cbn [Job.files]. by rewrite map_map. }
  assert (Hall : entries_after (map FileEntry.name (Job.files job2))
                   (Job.files job2)).
  { eapply entries_after_perm; [|exact Hinv]. intros n.
    rewrite app_nil_r, Hn, !list_elem_of_In. symmetry. apply in_rev. }
  cbn [Job.status Job.zipPath Job.error] in Hs2, Hz2, He2.
  destruct run as [r w'] eqn:Hrun. subst run. cbn [fst snd].
  unfold transcode_with in Hrun. rewrite run_bind, Hinit in Hrun.
  rewrite run_bind in Hrun. unfold try_catch in Hrun at 1.
  rewrite run_bind in Hrun. rewrite Hloop in Hrun.
  unfold settle_with in Hrun. rewrite run_bind in Hrun.
  unfold read_job in Hrun at 1. rewrite Hjob2 in Hrun. cbn [default] in Hrun.
  exists job2.
  cbv beta zeta delta [id] in Hrun.
  destruct (length (filter is_completed (Job.files job2))) as [|n] eqn:Hcount.
  - cbv [mbind M_bind write_job read_job modify get Nat.ltb Nat.leb] in Hrun.
    cbn [jobs with_jobs] in Hrun.
    rewrite !lookup_alter_eq, Hjob2 in Hrun. injection Hrun as <- <-.
    cbn [jobs with_jobs disk trace]. rewrite !lookup_alter_eq, Hjob2.
    eexists. split; [reflexivity|]. split; [reflexivity|]. cbn.
    split; [reflexivity|]. by repeat (split; [done|]).
  - cbn [Nat.ltb Nat.leb] in Hrun. rewrite run_bind in Hrun.
    rewrite (run_bind archive) in Hrun.
    destruct (archive w2) as [[zp|e] w3] eqn:Hzip;
      pose proof (archive_leaves_entry _ _ _ Hzip) as Hj3;
      unfold same_entry in Hj3;
      cbv [mbind M_bind write_job read_job modify get] in Hrun;
      cbn [jobs with_jobs] in Hrun;
      rewrite !lookup_alter_eq, Hj3, Hjob2 in Hrun; injection Hrun as <- <-;
      cbn [jobs with_jobs disk trace fst snd]; rewrite !lookup_alter_eq, Hj3, Hjob2;
      (eexists; split; [reflexivity|]); (split; [reflexivity|]); cbn;
      (split; [reflexivity|]); repeat (split; [done|]); done.
Qed.

(** X7: as long as nothing deletes the job while its files are built and
    archived, a run of [transcode] goes through every upload.  The job it
    returns is the one the map holds; it lists the uploaded names in
    order; the first entry of each name is completed or failed, and an
    entry whose name stands earlier in the list is still as [initJob] made
    it, since the updates find the first entry of a name.  With names that
    differ from one another no entry is left pending and the two counters
    add up to the number of uploads. *)
Theorem transcode_attempts_every_file files w :
  let run := transcode_with build archive jobId files w in
  ∃ job,
    run.1 = Ok job ∧
    getJobStatus jobId run.2 = Some job ∧
    map FileEntry.name (Job.files job) = map Upload.originalName files ∧
    (∀ i f, Job.files job !! i = Some f →
       if decide (FileEntry.name f ∈ take i (map Upload.originalName files))
       then f = pending_entry (FileEntry.name f)
       else settled f) ∧
    (NoDup (map Upload.originalName files) →
       Forall settled (Job.files job) ∧
       (Job.completedFiles job + Job.failedFiles job)%nat = length files).
Proof.
  intros run.
  destruct (transcode_with_run files w)
    as (job2 & job & _ & Hr & Hjob & Hfiles & Hc & Hf & Hok & Hn & Hall & _).
  fold run in Hr, Hjob.
  exists job. split; [exact Hr|]. split; [exact Hjob|].
  rewrite Hfiles, Hc, Hf. split; [exact Hn|]. split.
  - intros i f Hi. rewrite <- Hn. by apply entries_after_all.
  - intros Hnd. rewrite <- Hn in Hnd.
    pose proof (entries_after_NoDup _ Hnd Hall) as Hs. split; [exact Hs|].
    destruct Hok as (_ & _ & -> & _). rewrite settled_filter by done.
    by rewrite <- (length_map FileEntry.name), Hn, length_map.
Qed.

(** X10: as long as nothing deletes the job while it runs, the download
    route answers right after the run as the final status has it: 400 with
    the status for every outcome other than completed,
    completed_with_errors included; for a completed job the archive path
    is the one the archive step resolved with, and the route serves it as
    [hls-<jobId>.zip] when a regular file is there and answers 404 when
    nothing is. *)
Theorem download_after_transcode files w :
  let w2 :=
    (for_of files (transcode_one_with build jobId) (initJob jobId files w).2).2 in
  let run := transcode_with build archive jobId files w in
  ∃ job,
    run.1 = Ok job ∧
    (Job.status job ≠ JobCompleted →
     download jobId run.2 =
       Json 400 "Job not yet completed" (Some (Job.status job))) ∧
    (Job.status job = JobCompleted →
     ∃ zipPath,
       Job.zipPath job = Some zipPath ∧
       (archive w2).1 = Ok zipPath ∧
       disk run.2 = disk (archive w2).2 ∧
       (∀ size content,
          disk run.2 !! zipPath = Some (File size content) →
          download jobId run.2 =
            Download zipPath ("hls-" +:+ jobId +:+ ".zip")) ∧
       (disk run.2 !! zipPath = None →
        download jobId run.2 = Json 404 "ZIP file not found" None)).
Proof.
  intros w2 run.
  destruct (transcode_with_run files w)
    as (job2 & job & _ & Hr & Hjob & _ & _ & _ & _ & _ & _ & Hcase).
  fold w2 in Hcase. fold run in Hr, Hjob, Hcase.
  exists job. split; [exact Hr|].
  unfold download, getJobStatus. rewrite Hjob. split.
  - intros Hs. by rewrite bool_decide_eq_false_2.
  - intros Hs. rewrite bool_decide_eq_true_2 by done. cbn [negb].
    destruct (length _) in Hcase.
    { destruct Hcase as (Hf & _). congruence. }
    destruct Hcase as (Hd & Hzip).
    destruct (archive w2) as [[zp|e] w3] eqn:Hrun; cbn [fst snd] in *.
    2:{ destruct Hzip as (Hf & _). congruence. }
    destruct Hzip as (Hz & _ & _). exists zp. split; [exact Hz|].
    split; [reflexivity|]. split; [exact Hd|]. rewrite Hz. unfold Fs.existsSync.
    split; [intros size content ->|intros ->]; done.
Qed.

End AwaitedRun.

Lemma transcode_attempts_every_file_witness :
  let run :=
    transcode Sample.ffmpeg Sample.archiver "job-1"
      [Sample.a_mp3; Sample.b_mp3] Sample.boot in
  ∃ job,
    run.1 = Ok job ∧
    getJobStatus "job-1" run.2 = Some job ∧
    map FileEntry.name (Job.files job) = ["a.mp3"; "b.mp3"] ∧
    Forall settled (Job.files job) ∧
    (Job.completedFiles job + Job.failedFiles job)%nat = 2%nat.
Proof.
  intros run.
  assert (Hnd : NoDup (map Upload.originalName [Sample.a_mp3; Sample.b_mp3])).
  { apply NoDup_ListNoDup. repeat constructor; cbn; intuition discriminate. }
  destruct (transcode_attempts_every_file
              (λ file, transcodeFile Sample.ffmpeg (Upload.path file)
                         (Path.join TEMP_DIR "job-1") (Upload.originalName file))
              (createZipArchive Sample.archiver "job-1"
                 (Path.join TEMP_DIR "job-1"))
              "job-1"
              (λ file w r w' H,
                 same_entry_same_jobs "job-1" w w'
                   (transcodeFile_jobs Sample.ffmpeg _ _ _ w r w' H))
              (λ w r w' H,
                 same_entry_same_jobs "job-1" w w'
                   (createZipArchive_jobs Sample.archiver _ _ w r w' H))
              [Sample.a_mp3; Sample.b_mp3] Sample.boot)
    as (job & Hr & Hjob & Hnames & _ & Hall).
  destruct (Hall Hnd) as [Hs Hsum].
  exists job. split; [exact Hr|]. split; [exact Hjob|].
  split; [exact Hnames|]. split; [exact Hs|exact Hsum].
Defined.

Lemma download_after_transcode_witness :
  let run :=
    transcode Sample.ffmpeg Sample.archiver "job-1" [Sample.a_mp3] Sample.boot in
  download "job-1" run.2 =
    Download (Sample.jobDir ++ ["hls-output.zip"])%list "hls-job-1.zip".
Proof.
  intros run.
  destruct (download_after_transcode
              (λ file, transcodeFile Sample.ffmpeg (Upload.path file)
                         (Path.join TEMP_DIR "job-1") (Upload.originalName file))
              (createZipArchive Sample.archiver "job-1"
                 (Path.join TEMP_DIR "job-1"))
              "job-1"
              (λ file w r w' H,
                 same_entry_same_jobs "job-1" w w'
                   (transcodeFile_jobs Sample.ffmpeg _ _ _ w r w' H))
              (λ w r w' H,
                 same_entry_same_jobs "job-1" w w'
                   (createZipArchive_jobs Sample.archiver _ _ w r w' H))
              [Sample.a_mp3] Sample.boot)
    as (job & Hr & _ & Hdone).
  change (run.1 = Ok job) in Hr.
  assert (Hjob : Job.status <$> (match run.1 with Ok j => Some j | _ => None end)
                 = Some JobCompleted) by (vm_compute; reflexivity).
  rewrite Hr in Hjob. injection Hjob as Hs.
  destruct (Hdone Hs) as (zipPath & Hz & Hzp & _ & Hfile & _).
  assert (Hzp' : zipPath = (Sample.jobDir ++ ["hls-output.zip"])%list).
  { match type of Hzp with ?a = _ =>
      assert (Hc : a = Ok (Sample.jobDir ++ ["hls-output.zip"])%list)
        by (vm_compute; reflexivity) end.
    rewrite Hc in Hzp. by injection Hzp as <-. }
  subst zipPath.
  destruct (disk run.2 !! (Sample.jobDir ++ ["hls-output.zip"])%list)
    as [[|size content]|] eqn:Hd;
    [vm_compute in Hd; discriminate| |vm_compute in Hd; discriminate].
  exact (Hfile size content Hd).
Defined.
